(** * rustbox probe and fixture programs: a shallow embedding

    The repository ships a battery of small C probes (fork, memory, network,
    syscalls, timeout, file I/O) and C++ judge fixtures (star pattern,
    longest increasing subsequence, memory-limit-exceeded).  Each program is
    embedded below as a Rocq function of the answers its environment gives
    (return values of [malloc], [fork], [connect], ...), and the properties
    the specification states about them are proved on these functions.

    Conventions
    - [int] is a 32-bit two's complement integer, [size_t] and
      [unsigned long long] are 64-bit; arithmetic on them is written with
      the wrap-around spelled out ([wrap_int], [wrap_size_t]).
    - a loop of the source is a fuelled recursion; a result [None] means
      the fuel ran out, and every termination statement gives the fuel that
      suffices.
    - standard output is the list of the chunks written, in order. *)

From Stdlib Require Import ZArith String Ascii List Lia Bool DecimalString.
From stdpp Require Import base list.

Local Open Scope string_scope.
Local Open Scope list_scope.
Local Open Scope Z_scope.

(** ** Machine integers *)

Definition INT_MAX : Z := 2147483647.
Definition INT_MIN : Z := -2147483648.

(** Reduction of a mathematical integer to the [int] that holds it. *)
Definition wrap_int (z : Z) : Z := (z + 2147483648) mod 4294967296 - 2147483648.

(** Reduction to a 64-bit unsigned value ([size_t], [unsigned long long]). *)
Definition wrap_size_t (z : Z) : Z := z mod 18446744073709551616.

(** Reduction to a 64-bit signed value ([long], [time_t]). *)
Definition wrap_long (z : Z) : Z :=
  (z + 9223372036854775808) mod 18446744073709551616 - 9223372036854775808.

(** ** Printing *)

Infix "+:+" := String.append (at level 60, right associativity).

(** [operator<<(int)] and [printf("%d")]: the decimal numeral. *)
Definition show_Z (z : Z) : string := NilZero.string_of_int (Z.to_int z).

(** The newline character, and [std::endl], which writes it. *)
Definition newline : ascii := ascii_of_nat 10.
Definition endl : string := String newline EmptyString.

(** A format string that ends in a newline. *)
Definition line (s : string) : string := s +:+ endl.

(** [strcmp]: zero exactly on equal strings, otherwise the sign of the
    first difference. *)
Definition strcmp (a b : string) : Z :=
  match String.compare a b with
  | Eq => 0
  | Lt => -1
  | Gt => 1
  end.

(** ** Control *)

(** What a statement of the source can do besides falling through. *)
Inductive outcome (A : Type) : Type :=
  | Returns (a : A)          (* normal completion with a value *)
  | Throws (what : string)   (* a C++ exception leaves the function *)
  | Undefined.               (* the standard gives the execution no meaning *)
Arguments Returns {A} a.
Arguments Throws {A} what.
Arguments Undefined {A}.

(** One iteration of a loop body either goes on or leaves the loop. *)
Inductive ctl (S : Type) : Type :=
  | Continue (s : S)
  | Break (s : S).
Arguments Continue {S} s.
Arguments Break {S} s.

(** [while (1) body]: the only way out is a [break] of the body. *)
Fixpoint while_true {S : Type} (fuel : nat) (body : S -> ctl S) (s : S) : option S :=
  match fuel with
  | O => None
  | Datatypes.S fuel' =>
      match body s with
      | Continue s' => while_true fuel' body s'
      | Break s' => Some s'
      end
  end.

(** Where a loop stands after at most [k] passes through its body:
    [Continue s] when it is back at its head in state [s], [Break s] when it
    has been left in state [s]. *)
Fixpoint after {S : Type} (k : nat) (body : S -> ctl S) (s : S) : ctl S :=
  match k with
  | O => Continue s
  | Datatypes.S k' =>
      match body s with
      | Continue s' => after k' body s'
      | Break s' => Break s'
      end
  end.

Definition state_of {S : Type} (c : ctl S) : S :=
  match c with
  | Continue s => s
  | Break s => s
  end.

(** One pass of [for (int i = ..; i < hi; i++) body]: the test, the body
    and the increment.  [continue] in the body is [Continue]. *)
Definition for_lt_step {S : Type} (hi : Z) (body : Z -> S -> ctl S) (st : Z * S)
  : ctl (Z * S) :=
  let '(i, s) := st in
  if i <? hi then
    match body i s with
    | Continue s' => Continue (wrap_int (i + 1), s')
    | Break s' => Break (i, s')
    end
  else Break (i, s).

(** One pass of [for (int i = ..; i <= hi; i++) body]. *)
Definition for_le_step {S : Type} (hi : Z) (body : Z -> S -> ctl S) (st : Z * S)
  : ctl (Z * S) :=
  let '(i, s) := st in
  if i <=? hi then
    match body i s with
    | Continue s' => Continue (wrap_int (i + 1), s')
    | Break s' => Break (i, s')
    end
  else Break (i, s).

Definition for_lt {S : Type} (fuel : nat) (lo hi : Z) (body : Z -> S -> ctl S) (s : S)
  : option S :=
  snd <$> while_true fuel (for_lt_step hi body) (lo, s).

Definition for_le {S : Type} (fuel : nat) (lo hi : Z) (body : Z -> S -> ctl S) (s : S)
  : option S :=
  snd <$> while_true fuel (for_le_step hi body) (lo, s).

(** ** Longest increasing subsequence fixtures (test_3_lis.cpp, two variants) *)

Module Lis.

(** [std::max(a, b)] is [(a < b) ? b : a]. *)
Definition std_max (a b : Z) : Z := if a <? b then b else a.

(** [*std::max_element(first, last)]: [None] on the empty range, where the
    algorithm returns [last] and the dereference has no meaning. *)
Definition max_element (dp : list Z) : option Z :=
  match dp with
  | [] => None
  | x :: rest => Some (foldl (fun largest y => if largest <? y then y else largest) x rest)
  end.

(** Body of the inner loop of [longest_increasing_subsequence]:
    [if (arr[j] < arr[i]) dp[i] = max(dp[i], dp[j] + 1);] *)
Definition src_inner_body (arr : list Z) (i : nat) (dp : list Z) (j : nat) : list Z :=
  if arr !!! j <? arr !!! i
  then <[i := std_max (dp !!! i) (wrap_int (dp !!! j + 1))]> dp
  else dp.

(** Body of the inner loop of [lis]:
    [if (arr[i] > arr[j] && dp[i] < dp[j] + 1) dp[i] = dp[j] + 1;] *)
Definition lis_inner_body (arr : list Z) (i : nat) (dp : list Z) (j : nat) : list Z :=
  if (arr !!! i >? arr !!! j) && (dp !!! i <? wrap_int (dp !!! j + 1))
  then <[i := wrap_int (dp !!! j + 1)]> dp
  else dp.

(** The two nested loops, [for (i = 1; i < n; i++) for (j = 0; j < i; j++)],
    over a given inner body.  The counters stay below [n <= INT_MAX], so
    they are naturals here. *)
Definition dp_loops (body : list Z -> nat -> list Z -> nat -> list Z)
    (arr : list Z) (n : nat) (dp : list Z) : list Z :=
  foldl (fun dp i => foldl (body arr i) dp (seq 0 i)) dp (seq 1 (n - 1)).

(** Shared tail of both functions: [int n = arr.size(); vector<int> dp(n, 1);]
    the loops, and [return *max_element(dp.begin(), dp.end());].  A negative
    [n] converts to a [size_t] above [max_size()], for which the vector
    constructor throws [std::length_error]. *)
Definition dp_table (body : list Z -> nat -> list Z -> nat -> list Z)
    (arr : list Z) : outcome Z :=
  let n := wrap_int (Z.of_nat (length arr)) in
  if n <? 0 then Throws "cannot create std::vector larger than max_size()"
  else
    let dp := replicate (Z.to_nat n) 1 in
    let dp := dp_loops body arr (Z.to_nat n) dp in
    match max_element dp with
    | Some m => Returns m
    | None => Undefined
    end.

(** test_files/lang_cpp/test_3_lis.cpp *)
Definition longest_increasing_subsequence (arr : list Z) : outcome Z :=
  if bool_decide (arr = []) then Returns 0
  else dp_table src_inner_body arr.

(** tests/languages/lang_cpp/test_3_lis.cpp *)
Definition lis (arr : list Z) : outcome Z := dp_table lis_inner_body arr.

(** [main] of test_files/lang_cpp/test_3_lis.cpp: standard output and exit
    status, when the call returns. *)
Definition main_src : outcome (list string * Z) :=
  let arr := [10; 9; 2; 5; 3; 7; 101; 18] in
  match longest_increasing_subsequence arr with
  | Returns result => Returns (["LIS length: " +:+ show_Z result +:+ endl], 0)
  | Throws what => Throws what
  | Undefined => Undefined
  end.

(** [main] of tests/languages/lang_cpp/test_3_lis.cpp. *)
Definition main_tests : outcome (list string * Z) :=
  let arr := [10; 22; 9; 33; 21; 50; 41; 60] in
  match lis arr with
  | Returns result => Returns ([show_Z result +:+ endl], 0)
  | Throws what => Throws what
  | Undefined => Undefined
  end.

(** *** Specification side *)

(** A list is strictly increasing when each element is below its successor. *)
Fixpoint increasing (s : list Z) : Prop :=
  match s with
  | x :: (y :: _) as rest => x < y /\ increasing rest
  | _ => True
  end.

(** [L] is the length of the longest strictly increasing subsequence of [arr]. *)
Definition lis_length (arr : list Z) (L : Z) : Prop :=
  (exists s, s `sublist_of` arr /\ increasing s /\ Z.of_nat (length s) = L) /\
  (forall s, s `sublist_of` arr -> increasing s -> Z.of_nat (length s) <= L).

(** [s] followed by [arr[i]] is an increasing subsequence of [arr] that
    ends at index [i]. *)
Definition ending_at (arr : list Z) (i : nat) (s : list Z) : Prop :=
  s `sublist_of` take i arr /\ increasing (s ++ [arr !!! i]).

(** [v] is the length of the longest increasing subsequence that ends at
    index [i]: what the table is to hold in [dp[i]]. *)
Definition opt_end (arr : list Z) (i : nat) (v : Z) : Prop :=
  (exists s, ending_at arr i s /\ Z.of_nat (length s) + 1 = v) /\
  (forall s, ending_at arr i s -> Z.of_nat (length s) + 1 <= v).

(** The array of [main] in test_files/lang_cpp/test_3_lis.cpp. *)
Definition fixture_array : list Z := [10; 9; 2; 5; 3; 7; 101; 18].

(** A vector of 2^32 + 1 elements: 0, 1 and then zeros. *)
Definition huge_vector : list Z := 0 :: 1 :: replicate (Z.to_nat 4294967295) 0.

(** Invariant of the inner loop for row [i], entered with table [dp0],
    before its pass for [j]: only [dp[i]] has changed, it is the length of
    some increasing subsequence ending at [i], and it accounts for every
    predecessor below [j]. *)
Definition inner_inv (arr : list Z) (i : nat) (dp0 : list Z) (j : nat) (dp : list Z)
  : Prop :=
  length dp = length dp0 /\
  (forall k, k <> i -> dp !! k = dp0 !! k) /\
  (exists s, ending_at arr i s /\ Z.of_nat (length s) + 1 = dp !!! i) /\
  (forall j', (j' < j)%nat -> arr !!! j' < arr !!! i -> dp0 !!! j' + 1 <= dp !!! i).

(** Invariant of the outer loop before its pass for [m]: the rows below
    [m] are final, the others still hold the initial 1. *)
Definition outer_inv (arr : list Z) (m : nat) (dp : list Z) : Prop :=
  length dp = length arr /\
  (forall k, (k < m)%nat -> (k < length arr)%nat -> opt_end arr k (dp !!! k)) /\
  (forall k, (m <= k)%nat -> (k < length arr)%nat -> dp !!! k = 1).

End Lis.


(** ** Star pattern fixtures (test_2_star.cpp, two variants) *)

Module Star.

(** [for (int j = 0; j < k; j++) cout << "*";] *)
Fixpoint put_stars (fuel : nat) (j k : Z) (out : string) : option string :=
  match fuel with
  | O => None
  | S fuel' =>
      if j <? k then put_stars fuel' (wrap_int (j + 1)) k (out +:+ "*")
      else Some out
  end.

(** The bound of the inner loop, [2 * i - 1] in [int] arithmetic. *)
Definition group_width (i : Z) : Z := wrap_int (wrap_int (2 * i) - 1).

(** Outer loop of [print_star_pattern]:
    [for (int i = 1; i <= N; i++) { if (i > 1) cout << " "; <inner loop> }].
    [inner_fuel] is the fuel handed to each inner loop. *)
Fixpoint src_rows (inner_fuel fuel : nat) (i N : Z) (out : string) : option string :=
  match fuel with
  | O => None
  | S fuel' =>
      if i <=? N then
        let out := if i >? 1 then out +:+ " " else out in
        out ← put_stars inner_fuel 0 (group_width i) out;
        src_rows inner_fuel fuel' (wrap_int (i + 1)) N out
      else Some out
  end.

(** test_files/lang_cpp/test_2_star.cpp *)
Definition print_star_pattern (fuel : nat) (N : Z) : option string :=
  out ← src_rows fuel fuel 1 N "";
  Some (out +:+ endl).

(** Outer loop of [printStarPattern]:
    [for (int i = 1; i <= N; ++i) { <inner loop> cout << " "; }]. *)
Fixpoint tests_rows (inner_fuel fuel : nat) (i N : Z) (out : string) : option string :=
  match fuel with
  | O => None
  | S fuel' =>
      if i <=? N then
        out ← put_stars inner_fuel 0 (group_width i) out;
        tests_rows inner_fuel fuel' (wrap_int (i + 1)) N (out +:+ " ")
      else Some out
  end.

(** tests/languages/lang_cpp/test_2_star.cpp *)
Definition printStarPattern (fuel : nat) (N : Z) : option string :=
  out ← tests_rows fuel fuel 1 N "";
  Some (out +:+ endl).

(** Both [main]s: [cin >> N], the call, [return 0].  [N] is the [int]
    that the extraction stored. *)
Definition main_src (fuel : nat) (N : Z) : option (string * Z) :=
  out ← print_star_pattern fuel N; Some (out, 0).

Definition main_tests (fuel : nat) (N : Z) : option (string * Z) :=
  out ← printStarPattern fuel N; Some (out, 0).

(** *** Specification side *)

(** A run of [k] stars. *)
Fixpoint stars (k : nat) : string :=
  match k with
  | O => ""
  | S k' => String "*" (stars k')
  end.






(** What each fixture writes for row [i], in exact arithmetic: the first
    with a blank before every row but the first, the second with a blank
    after every row. *)
Definition src_row (i : Z) : string :=
  (if i >? 1 then " " else "") +:+ stars (Z.to_nat (2 * i - 1)).

Definition tests_row (i : Z) : string := stars (Z.to_nat (2 * i - 1)) +:+ " ".

(** The rows of a range, one after the other. *)
Definition concat_rows (row : Z -> string) (range : list Z) : string :=
  fold_right (fun i text => row i +:+ text) "" range.

End Star.

(** ** timeout.c *)

Module Timeout.

Inductive event : Type :=
  | Print (s : string)
  | Flush
  | Sleep (seconds : Z)
  | Time (now : Z).

(** The environment: what the [k]-th call of [time(NULL)] returns. *)
Record world : Type := { clock : nat -> Z }.

Record state : Type := { trace : list event; ticks : nat }.

Definition emit (e : event) (st : state) : state :=
  {| trace := trace st ++ [e]; ticks := ticks st |}.

Definition printf (s : string) : state -> state := emit (Print s).
Definition sleep (seconds : Z) : state -> state := emit (Sleep seconds).

(** [time(NULL)]: the clock is read, and the call is recorded. *)
Definition ticked (w : world) (st : state) : state :=
  {| trace := trace st ++ [Time (clock w (ticks st))]; ticks := S (ticks st) |}.

Definition time (w : world) (st : state) : Z * state :=
  (clock w (ticks st), ticked w st).

(** Body of the loop of [test_timeouts]. *)
Definition second_body (i : Z) (st : state) : ctl state :=
  let st := printf (line ("Second " +:+ show_Z i +:+ "/30")) st in
  let st := emit Flush st in
  Continue (sleep 1 st).

Definition test_timeouts (fuel : nat) (w : world) (st : state) : option state :=
  let st := printf (line "=== C Timeout Test ===") st in
  let st := printf (line "Testing 2-second operation...") st in
  let '(start, st) := time w st in
  let st := sleep 2 st in
  let '(now, st) := time w st in
  let elapsed := wrap_long (now - start) in
  let st := printf (line ("✓ 2-second operation completed in " +:+ show_Z elapsed
                          +:+ " seconds")) st in
  let st := printf (line "Testing 5-second operation...") st in
  let '(start, st) := time w st in
  let st := sleep 5 st in
  let '(now, st) := time w st in
  let elapsed := wrap_long (now - start) in
  let st := printf (line ("✓ 5-second operation completed in " +:+ show_Z elapsed
                          +:+ " seconds")) st in
  let st := printf (line "Testing 30-second operation (should be terminated)...") st in
  let '(start, st) := time w st in
  st ← for_le fuel 1 30 second_body st;
  let '(now, st) := time w st in
  let elapsed := wrap_long (now - start) in
  Some (printf (line ("⚠ 30-second operation completed in " +:+ show_Z elapsed
                      +:+ " seconds (not terminated)")) st).

(** The variables of [infinite_loop_test] together with the I/O state. *)
Record loop_vars : Type :=
  { counter : Z; start : Z; last_print : Z; io : state }.

(** Body of [while (1) { ... }] in [infinite_loop_test]. *)
Definition infinite_body (w : world) (v : loop_vars) : ctl loop_vars :=
  let counter' := wrap_size_t (counter v + 1) in
  let '(now, st) := time w (io v) in
  if wrap_long (now - last_print v) >=? 1 then
    let st := printf (line ("Loop iteration " +:+ show_Z counter' +:+ ", elapsed: "
                            +:+ show_Z (wrap_long (now - start v)) +:+ " seconds")) st in
    let st := emit Flush st in
    Continue {| counter := counter'; start := start v; last_print := now; io := st |}
  else
    Continue {| counter := counter'; start := start v; last_print := last_print v;
                io := st |}.

(** The state in which [infinite_loop_test] enters its loop. *)
Definition infinite_entry (w : world) (st : state) : loop_vars :=
  let st := printf (line "=== C Infinite Loop Test ===") st in
  let st := printf (line "Starting infinite loop (should be terminated by timeout)...") st in
  let '(start, st) := time w st in
  {| counter := 0; start := start; last_print := start; io := st |}.

Definition infinite_loop_test (fuel : nat) (w : world) (st : state) : option state :=
  io <$> while_true fuel (infinite_body w) (infinite_entry w st).

Definition initial : state := {| trace := []; ticks := 0 |}.

(** [main]: exit status and trace when it returns. *)
Definition main (fuel : nat) (w : world) (argv : list string) : option (Z * list event) :=
  let argc := Z.of_nat (length argv) in
  st ← (if (argc >? 1) && (strcmp (nth 1 argv "") "infinite" =? 0)
        then infinite_loop_test fuel w initial
        else test_timeouts fuel w initial);
  Some (0, trace st).

(** The sleeps of a trace, in order. *)
Definition sleeps (tr : list event) : list Z :=
  omap (fun e => match e with Sleep n => Some n | _ => None end) tr.

(** The command line names the infinite-loop mode: its first argument after
    the program name is "infinite". *)
Definition asks_infinite (argv : list string) : Prop :=
  exists prog rest, argv = prog :: "infinite" :: rest.

(** A world whose clock advances by one second per call. *)
Definition ticking : world := {| clock := fun k => Z.of_nat k |}.

(** The lines printed in a trace. *)
Definition printed (tr : list event) : list string :=
  omap (fun e => match e with Print s => Some s | _ => None end) tr.

(** A world whose clock stands still. *)
Definition frozen : world := {| clock := fun _ => 1000 |}.

End Timeout.

(** ** memory.c *)

Module Memory.

(** [#define MB (1024 * 1024)] *)
Definition MB : Z := 1024 * 1024.

Inductive event : Type :=
  | Print (s : string)
  | Malloc (size : Z) (ok : bool)   (* [ok]: the result is not [NULL] *)
  | Memset (size : Z)
  | Free
  | Usleep (usec : Z).

(** The environment: whether the first [malloc(MB)] succeeds, and whether
    the [malloc(chunk_size)] of iteration [i] does. *)
Record world : Type := { small_malloc : bool; chunk_malloc : Z -> bool }.

(** The variables of [main]; [ptrs] holds, per slot, whether a non-null
    pointer was stored there. *)
Record vars : Type :=
  { ptrs : list bool;
    allocated_chunks : Z;
    total_allocated : Z;
    trace : list event }.

Definition emit (e : event) (v : vars) : vars :=
  {| ptrs := ptrs v; allocated_chunks := allocated_chunks v;
     total_allocated := total_allocated v; trace := trace v ++ [e] |}.

Definition printf (s : string) : vars -> vars := emit (Print s).

(** [size_t chunk_size = 5 * MB;] *)
Definition chunk_size : Z := wrap_size_t (wrap_int (5 * MB)).

(** The safety ceiling [500 * MB], converted for the comparison with a
    [size_t]. *)
Definition ceiling : Z := wrap_size_t (wrap_int (500 * MB)).

(** Body of [for (int i = 0; i < 200; i++)]. *)
Definition alloc_body (w : world) (i : Z) (v : vars) : ctl vars :=
  let ok := chunk_malloc w i in
  let v := emit (Malloc chunk_size ok) v in
  let v := {| ptrs := <[Z.to_nat i := ok]> (ptrs v);
              allocated_chunks := allocated_chunks v;
              total_allocated := total_allocated v; trace := trace v |} in
  if negb ok then
    let v := printf (line ("✓ Memory allocation failed at chunk " +:+ show_Z i
                           +:+ " (limit reached)")) v in
    Break (printf (line ("✓ Total allocated before failure: "
                         +:+ show_Z (total_allocated v / MB) +:+ " MB")) v)
  else
    let v := emit (Memset chunk_size) v in
    let v := {| ptrs := ptrs v;
                allocated_chunks := wrap_int (allocated_chunks v + 1);
                total_allocated := wrap_size_t (total_allocated v + chunk_size);
                trace := trace v |} in
    let v := printf (line ("✓ Allocated chunk " +:+ show_Z (wrap_int (i + 1)) +:+ ": "
                           +:+ show_Z (total_allocated v / MB) +:+ " MB total")) v in
    let v := emit (Usleep 100000) v in
    if total_allocated v >? ceiling then
      Break (printf (line "⚠ Allocated over 500 MB, stopping test") v)
    else Continue v.

(** Body of the clean-up loop: [if (ptrs[i]) free(ptrs[i]);] *)
Definition free_body (i : Z) (v : vars) : ctl vars :=
  if ((ptrs v !!! Z.to_nat i) : bool) then Continue (emit Free v) else Continue v.

Definition initial : vars :=
  {| ptrs := replicate 200 false; allocated_chunks := 0; total_allocated := 0;
     trace := [] |}.

(** The state in which the progressive-allocation loop is entered. *)
Definition loop_entry : vars :=
  let v := printf (line "=== C Memory Allocation Test ===") initial in
  let v := emit (Malloc (wrap_size_t MB) true) v in
  let v := printf (line "✓ Small allocation (1 MB) successful") v in
  let v := emit (Memset (wrap_size_t MB)) v in
  let v := emit Free v in
  printf (line ("Testing progressive allocation in " +:+ show_Z (chunk_size / MB)
                +:+ " MB chunks...")) v.

(** [main]: exit status and trace when it returns. *)
Definition main (fuel : nat) (w : world) : option (Z * list event) :=
  if small_malloc w then
    v ← for_lt fuel 0 200 (alloc_body w) loop_entry;
    let v := printf (line ("Final stats: " +:+ show_Z (allocated_chunks v)
                           +:+ " chunks allocated, "
                           +:+ show_Z (total_allocated v / MB) +:+ " MB total")) v in
    v ← for_lt fuel 0 (allocated_chunks v) free_body v;
    let v := printf (line "✓ Memory cleanup completed") v in
    Some (0, trace v)
  else
    let v := printf (line "=== C Memory Allocation Test ===") initial in
    let v := emit (Malloc (wrap_size_t MB) false) v in
    let v := printf (line "✗ Small allocation failed") v in
    Some (1, trace v).

(** The sizes passed to [malloc] in a trace, and those of the calls that
    succeeded. *)
Definition requests (tr : list event) : list Z :=
  omap (fun e => match e with Malloc size _ => Some size | _ => None end) tr.

Definition granted (tr : list event) : list Z :=
  omap (fun e => match e with Malloc size true => Some size | _ => None end) tr.

(** What holds of the variables [v] at any point of the progressive
    allocation loop entered with [v0]: the loop has added [tr] to the trace,
    every request was for 5 MB, [total_allocated] is 5 MB per granted
    request, at most 200 requests were made and at most 505 MB are held. *)
Definition loop_facts (v0 v : vars) : Prop :=
  exists tr,
    trace v = trace v0 ++ tr /\
    Forall (fun size => size = 5 * 1024 * 1024) (requests tr) /\
    total_allocated v = 5 * 1024 * 1024 * Z.of_nat (length (granted tr)) /\
    allocated_chunks v = Z.of_nat (length (granted tr)) /\
    (length (requests tr) <= 200)%nat /\
    total_allocated v <= 505 * 1024 * 1024.

(** The same at the head of the loop, before the pass for [i]: so far [i]
    requests were made and granted, and the ceiling is not exceeded. *)
Definition at_head (v0 : vars) (st : Z * vars) : Prop :=
  let '(i, v) := st in
  0 <= i <= 100 /\
  total_allocated v <= 500 * 1024 * 1024 /\
  exists tr,
    trace v = trace v0 ++ tr /\
    Forall (fun size => size = 5 * 1024 * 1024) (requests tr) /\
    length (requests tr) = Z.to_nat i /\
    length (granted tr) = Z.to_nat i /\
    total_allocated v = 5 * 1024 * 1024 * i /\
    allocated_chunks v = i.

(** And once the loop is left. *)
Definition once_left (v0 : vars) (st : Z * vars) : Prop :=
  let '(i, v) := st in
  exists tr,
    trace v = trace v0 ++ tr /\
    Forall (fun size => size = 5 * 1024 * 1024) (requests tr) /\
    (length (requests tr) <= 101)%nat /\
    total_allocated v = 5 * 1024 * 1024 * Z.of_nat (length (granted tr)) /\
    allocated_chunks v = Z.of_nat (length (granted tr)) /\
    total_allocated v <= 505 * 1024 * 1024.

(** A world with room for 2 chunks after the small allocation. *)
Definition capped : world :=
  {| small_malloc := true; chunk_malloc := fun i => i <? 2 |}.

(** The number of [free] calls in a trace. *)
Definition frees (tr : list event) : nat :=
  length (omap (fun e => match e with Free => Some tt | _ => None end) tr).

(** What the progressive-allocation loop, entered with [v0], keeps true of
    [ptrs] and of the trace: the slots below [allocated_chunks] hold the
    chunks granted, nothing was freed, and the trace has one granted request
    per chunk counted. *)
Definition slots_filled (v0 : vars) (st : Z * vars) : Prop :=
  let '(_, v) := st in
  length (ptrs v) = 200%nat /\
  (forall j, (j < Z.to_nat (allocated_chunks v))%nat -> ptrs v !!! j = true) /\
  frees (trace v) = frees (trace v0) /\
  length (granted (trace v))
    = (length (granted (trace v0)) + Z.to_nat (allocated_chunks v))%nat.


Definition starved : world :=
  {| small_malloc := false; chunk_malloc := fun _ => false |}.

End Memory.

(** ** fork.c *)

Module Fork.

Inductive event : Type :=
  | Print (s : string)
  | ForkCall (ret : Z)
  | Store (index : Z) (pid : Z)     (* [children[index] = pid] *)
  | Sleep (seconds : Z)
  | Usleep (usec : Z)
  | Wait
  | Waitpid (pid : Z)
  | Exit (code : Z).

(** The environment, as this process sees it. *)
Record world : Type :=
  { getpid : Z;
    getppid : Z;
    first_fork : Z;            (* result of the basic [fork()] *)
    first_status : Z;          (* status stored by [wait(&status)] *)
    loop_fork : Z -> Z;        (* result of [fork()] in iteration [i] *)
    fork_error : string;       (* [strerror(errno)] after a failed fork *)
    waitpid_ret : Z -> Z }.    (* result of [waitpid(children[i], ..)] *)

Record vars : Type :=
  { children : list Z;
    created_count : Z;
    exited : option Z;         (* set by [exit(code)] *)
    trace : list event }.

Definition emit (e : event) (v : vars) : vars :=
  {| children := children v; created_count := created_count v;
     exited := exited v; trace := trace v ++ [e] |}.

Definition printf (s : string) : vars -> vars := emit (Print s).

(** [exit(code)]: the process ends here. *)
Definition exit (code : Z) (v : vars) : vars :=
  {| children := children v; created_count := created_count v;
     exited := Some code; trace := trace v ++ [Exit code] |}.

(** [WEXITSTATUS(status)] *)
Definition WEXITSTATUS (status : Z) : Z := Z.land (Z.shiftr status 8) 255.

(** [int max_processes = 50;] *)
Definition max_processes : Z := 50.

(** Body of [for (int i = 0; i < max_processes; i++)]. *)
Definition fork_body (w : world) (i : Z) (v : vars) : ctl vars :=
  let pid := loop_fork w i in
  let v := emit (ForkCall pid) v in
  if pid =? -1 then
    Break (printf (line ("✓ Process creation blocked at " +:+ show_Z i
                         +:+ " processes: " +:+ fork_error w)) v)
  else if pid =? 0 then
    let v := printf (line ("Child " +:+ show_Z i +:+ ": PID " +:+ show_Z (getpid w))) v in
    let v := emit (Sleep 5) v in
    Break (exit i v)
  else
    let v := emit (Store (created_count v) pid) v in
    let v := {| children := <[Z.to_nat (created_count v) := pid]> (children v);
                created_count := wrap_int (created_count v + 1);
                exited := exited v; trace := trace v |} in
    let v := printf (line ("✓ Created child " +:+ show_Z i +:+ ": PID " +:+ show_Z pid)) v in
    Continue (emit (Usleep 100000) v).

(** Body of the loop that waits for the children. *)
Definition wait_body (w : world) (i : Z) (v : vars) : ctl vars :=
  let v := emit (Waitpid (children v !!! Z.to_nat i)) v in
  let waited_pid := waitpid_ret w i in
  if waited_pid >? 0 then
    Continue (printf (line ("Child " +:+ show_Z i +:+ " (PID " +:+ show_Z waited_pid
                            +:+ ") completed")) v)
  else Continue v.

Definition initial : vars :=
  {| children := replicate 50 0; created_count := 0; exited := None; trace := [] |}.

(** The basic fork test that precedes the loop. *)
Definition basic_fork (w : world) (v : vars) : vars :=
  let v := printf (line "=== C Fork/Process Test ===") v in
  let v := printf (line ("Main process PID: " +:+ show_Z (getpid w))) v in
  let pid := first_fork w in
  let v := emit (ForkCall pid) v in
  if pid =? -1 then
    printf (line ("✓ Fork blocked: " +:+ fork_error w)) v
  else if pid =? 0 then
    let v := printf (line ("✓ Fork successful - Child PID: " +:+ show_Z (getpid w))) v in
    let v := printf (line ("Child parent PID: " +:+ show_Z (getppid w))) v in
    let v := emit (Sleep 1) v in
    exit 0 v
  else
    let v := printf (line ("✓ Fork successful - Parent created child PID: "
                           +:+ show_Z pid)) v in
    let v := emit Wait v in
    printf (line ("✓ Child process completed with status: "
                  +:+ show_Z (WEXITSTATUS (first_status w)))) v.

(** [main]: exit status and trace when the process ends. *)
Definition main (fuel : nat) (w : world) : option (Z * list event) :=
  let v := basic_fork w initial in
  match exited v with
  | Some code => Some (code, trace v)
  | None =>
      let v := printf (endl +:+ line "Testing multiple process creation...") v in
      v ← for_lt fuel 0 max_processes (fork_body w) v;
      match exited v with
      | Some code => Some (code, trace v)
      | None =>
          let v := printf (line ("Waiting for " +:+ show_Z (created_count v)
                                 +:+ " children to complete...")) v in
          v ← for_lt fuel 0 (created_count v) (wait_body w) v;
          let v := printf (line ("✓ Created " +:+ show_Z (created_count v)
                                 +:+ " child processes total")) v in
          Some (0, trace v)
      end
  end.

(** The results of the [fork()] calls of a trace, and the indices written
    in [children], in order. *)
Definition forks (tr : list event) : list Z :=
  omap (fun e => match e with ForkCall ret => Some ret | _ => None end) tr.

Definition stores (tr : list event) : list Z :=
  omap (fun e => match e with Store index _ => Some index | _ => None end) tr.

(** A fork succeeded, seen from the parent: neither [-1] nor the child's [0]. *)
Definition created (ret : Z) : bool := negb (ret =? -1) && negb (ret =? 0).

(** A fork failed. *)
Definition failed (ret : Z) : bool := ret =? -1.

(** What holds of the variables [v] at any point of the multi-fork loop
    entered with [v0]: the loop has added [tr] to the trace; at most 50
    forks were attempted; [created_count] is the number of forks that gave
    this process a child, and at most 50; every write to [children] was at an
    index within the array; a failed fork is the last attempt; and as long
    as the process is the parent, [created_count] is the number of forks
    that did not fail. *)
Definition loop_facts (v0 v : vars) : Prop :=
  exists tr,
    trace v = trace v0 ++ tr /\
    (length (forks tr) <= 50)%nat /\
    created_count v = Z.of_nat (length (List.filter created (forks tr))) /\
    0 <= created_count v <= 50 /\
    Forall (fun index => 0 <= index < 50) (stores tr) /\
    (forall j ret, forks tr !! j = Some ret -> failed ret = true ->
                   S j = length (forks tr)) /\
    (exited v = None ->
     created_count v
       = Z.of_nat (length (List.filter (fun ret => negb (failed ret)) (forks tr)))).

(** The same at the head of the loop, before the pass for [i]: so far [i]
    forks were attempted and each gave the process a child. *)
Definition at_head (v0 : vars) (st : Z * vars) : Prop :=
  let '(i, v) := st in
  0 <= i <= 50 /\
  exited v = None /\
  created_count v = i /\
  exists tr,
    trace v = trace v0 ++ tr /\
    length (forks tr) = Z.to_nat i /\
    Forall (fun ret => created ret = true) (forks tr) /\
    Forall (fun index => 0 <= index < 50) (stores tr).

(** The state in which [main] enters the multi-fork loop when the basic
    fork left it running. *)
Definition loop_entry (w : world) : vars :=
  printf (endl +:+ line "Testing multiple process creation...") (basic_fork w initial).

(** A world in which the third fork of the loop fails. *)
Definition two_children : world :=
  {| getpid := 100; getppid := 1; first_fork := 101; first_status := 0;
     loop_fork := fun i => if i <? 2 then 102 + i else -1;
     fork_error := "Resource temporarily unavailable";
     waitpid_ret := fun i => 102 + i |}.

(** The pids written into [children] and the pids passed to [waitpid],
    in order. *)
Definition stored (tr : list event) : list Z :=
  omap (fun e => match e with Store _ pid => Some pid | _ => None end) tr.

Definition waited (tr : list event) : list Z :=
  omap (fun e => match e with Waitpid pid => Some pid | _ => None end) tr.

(** What the multi-fork loop, entered with [v0], keeps true of [children]:
    its first [created_count] slots hold the pids stored so far, in order,
    and nothing was waited for. *)
Definition roster (v0 : vars) (st : Z * vars) : Prop :=
  let '(_, v) := st in
  length (children v) = 50%nat /\
  0 <= created_count v <= 50 /\
  stored (trace v) = stored (trace v0) ++ take (Z.to_nat (created_count v)) (children v) /\
  waited (trace v) = waited (trace v0).

(** A world in which the loop's third fork returns in the child. *)
Definition third_child : world :=
  {| getpid := 104; getppid := 100; first_fork := 101; first_status := 0;
     loop_fork := fun i => if i <? 2 then 102 + i else 0;
     fork_error := "";
     waitpid_ret := fun _ => -1 |}.

End Fork.

(** ** network.c *)

Module Network.

(** An entry of [test_targets]. *)
Record target : Type := { ip : string; port : Z; name : string }.

Definition test_targets : list target :=
  [ {| ip := "8.8.8.8"; port := 53; name := "Google DNS" |};
    {| ip := "127.0.0.1"; port := 22; name := "Local SSH" |};
    {| ip := "127.0.0.1"; port := 80; name := "Local HTTP" |} ].

(** [sizeof(test_targets) / sizeof(test_targets[0])] *)
Definition num_targets : Z := Z.of_nat (length test_targets).

Definition no_target : target := {| ip := ""; port := 0; name := "" |}.

Inductive event : Type :=
  | Print (s : string)
  | Socket (fd : Z)
  | Bind (ret : Z)
  | Connect (ip : string) (port : Z) (ret : Z)
  | Close (fd : Z).

(** The environment: the results of the first [socket] and of [bind], and
    of [socket] and [connect] in iteration [i] of the loop. *)
Record world : Type :=
  { first_socket : Z;
    bind_ret : Z;
    socket_at : Z -> Z;
    connect_at : Z -> Z }.

Definition describe (t : target) : string :=
  name t +:+ " (" +:+ ip t +:+ ":" +:+ show_Z (port t) +:+ ")".

Definition connected_line (t : target) : string := line ("⚠ Connected to " +:+ describe t).
Definition blocked_line (t : target) : string := line ("✓ Cannot connect to " +:+ describe t).

(** Body of [for (int i = 0; i < num_targets; i++)]. *)
Definition connect_body (w : world) (i : Z) (tr : list event) : ctl (list event) :=
  let sock := socket_at w i in
  let tr := tr ++ [Socket sock] in
  if sock <? 0 then Continue tr
  else
    let t := nth (Z.to_nat i) test_targets no_target in
    let ret := connect_at w i in
    let tr := tr ++ [Connect (ip t) (port t) ret] in
    let tr := if ret =? 0 then tr ++ [Print (connected_line t)]
              else tr ++ [Print (blocked_line t)] in
    Continue (tr ++ [Close sock]).

(** [main]: exit status and trace when it returns. *)
Definition main (fuel : nat) (w : world) : option (Z * list event) :=
  let tr := [Print (line "=== C Network Test ===")] in
  let sock := first_socket w in
  let tr := tr ++ [Socket sock] in
  if sock <? 0 then Some (1, tr ++ [Print (line "✗ Socket creation failed")])
  else
    let tr := tr ++ [Print (line "✓ Socket creation successful")] in
    let tr := tr ++ [Bind (bind_ret w)] in
    let tr := if bind_ret w =? 0 then tr ++ [Print (line "✓ Local bind successful")]
              else tr ++ [Print (line "✗ Local bind failed")] in
    let tr := tr ++ [Close sock] in
    tr ← for_lt fuel 0 num_targets (connect_body w) tr;
    Some (0, tr).

(** The connection attempts of a trace, as (address, port) pairs, and the
    lines printed, in order. *)
Definition attempts (tr : list event) : list (string * Z) :=
  omap (fun e => match e with Connect a p _ => Some (a, p) | _ => None end) tr.

Definition printed (tr : list event) : list string :=
  omap (fun e => match e with Print s => Some s | _ => None end) tr.


(** The events one pass of the loop adds to the trace. *)
Definition pass_events (w : world) (i : Z) : list event :=
  let sock := socket_at w i in
  let t := nth (Z.to_nat i) test_targets no_target in
  if sock <? 0 then [Socket sock]
  else [Socket sock; Connect (ip t) (port t) (connect_at w i);
        Print (if connect_at w i =? 0 then connected_line t else blocked_line t);
        Close sock].




(** A world in which every socket is created and every connection refused,
    and one in which the first socket cannot be created. *)
Definition isolated : world :=
  {| first_socket := 3; bind_ret := 0; socket_at := fun _ => 3; connect_at := fun _ => -1 |}.

(** The descriptors [socket] returned, those passed to [close], and the
    results of [bind], in order. *)
Definition sockets (tr : list event) : list Z :=
  omap (fun e => match e with Socket fd => Some fd | _ => None end) tr.

Definition closes (tr : list event) : list Z :=
  omap (fun e => match e with Close fd => Some fd | _ => None end) tr.

Definition binds (tr : list event) : list Z :=
  omap (fun e => match e with Bind ret => Some ret | _ => None end) tr.

(** A world without sockets. *)
Definition offline : world :=
  {| first_socket := -1; bind_ret := -1; socket_at := fun _ => -1; connect_at := fun _ => -1 |}.

End Network.

(** ** file_io.c *)

Module FileIo.

Inductive event : Type :=
  | Print (s : string)
  | Fopen (path mode : string) (ok : bool)
  | Fprintf (s : string)
  | Fgets (got : option string)
  | Fclose
  | Unlink (path : string).

(** The environment: whether [test.txt] can be created and reopened, what
    [fgets] reads back, and whether a path can be opened for reading. *)
Record world : Type :=
  { create_test : bool;
    reopen_test : bool;
    read_back : option string;
    open_read : string -> bool }.

Definition sensitive : list string := ["/etc/passwd"; "/proc/version"; "/root"].

(** [sizeof(sensitive) / sizeof(sensitive[0])] *)
Definition count : Z := Z.of_nat (length sensitive).

Definition warning_line (path : string) : string := line ("⚠ WARNING: Can access " +:+ path).
Definition denied_line (path : string) : string := line ("✓ Cannot access " +:+ path).

(** Body of [for (int i = 0; i < count; i++)]. *)
Definition probe_body (w : world) (i : Z) (tr : list event) : ctl (list event) :=
  let path := nth (Z.to_nat i) sensitive "" in
  let ok := open_read w path in
  let tr := tr ++ [Fopen path "r" ok] in
  if ok then Continue (tr ++ [Print (warning_line path); Fclose])
  else Continue (tr ++ [Print (denied_line path)]).

(** The first part of [main]: create, read back and remove [test.txt]. *)
Definition scratch_file (w : world) (tr : list event) : list event :=
  let tr := tr ++ [Fopen "test.txt" "w" (create_test w)] in
  if create_test w then
    let tr := tr ++ [Fprintf (line "Hello from C in sandbox!"); Fclose;
                     Print (line "✓ Created and wrote to test.txt")] in
    let tr := tr ++ [Fopen "test.txt" "r" (reopen_test w)] in
    let tr :=
      if reopen_test w then
        let tr := tr ++ [Fgets (read_back w)] in
        let tr := match read_back w with
                  | Some buffer => tr ++ [Print ("✓ Read back: " +:+ buffer)]
                  | None => tr
                  end in
        tr ++ [Fclose]
      else tr in
    tr ++ [Unlink "test.txt"; Print (line "✓ Cleaned up test.txt")]
  else tr ++ [Print (line "✗ Failed to create test.txt")].

(** [main]: exit status and trace when it returns. *)
Definition main (fuel : nat) (w : world) : option (Z * list event) :=
  let tr := [Print (line "=== C File I/O Test ===")] in
  let tr := scratch_file w tr in
  tr ← for_lt fuel 0 count (probe_body w) tr;
  Some (0, tr).


Definition printed (tr : list event) : list string :=
  omap (fun e => match e with Print s => Some s | _ => None end) tr.


(** The events one pass of the sensitive-path loop adds to the trace. *)
Definition probe_events (w : world) (i : Z) : list event :=
  let path := nth (Z.to_nat i) sensitive "" in
  if open_read w path then [Fopen path "r" true; Print (warning_line path); Fclose]
  else [Fopen path "r" false; Print (denied_line path)].


(** A world in which the working directory is writable and every sensitive
    path is denied. *)
Definition sandboxed : world :=
  {| create_test := true; reopen_test := true;
     read_back := Some (line "Hello from C in sandbox!");
     open_read := fun _ => false |}.

(** The streams opened successfully and the [fclose] calls of a trace. *)
Definition streams (tr : list event) : list string :=
  omap (fun e => match e with Fopen path _ true => Some path | _ => None end) tr.

Definition fcloses (tr : list event) : list unit :=
  omap (fun e => match e with Fclose => Some tt | _ => None end) tr.

End FileIo.

(** ** syscalls.c *)

Module Syscalls.

(** The library calls the probe makes. *)
Inductive op : Type :=
  | Getpid | Getppid | Getuid | Getgid
  | Access | Chmod | ForkOp | Execl | WaitOp | System.

Inductive event : Type :=
  | Print (s : string)
  | Call (o : op).

(** How the process stops running [main]: it exits with a status, or
    [execl] succeeds and another program takes its place. *)
Inductive ending : Type :=
  | Exited (code : Z)
  | Replaced (path : string).

(** The environment, as this process sees it. *)
Record world : Type :=
  { pid : Z; ppid : Z;
    uid : Z; gid : Z;         (* [uid_t], [gid_t]: unsigned, 32 bits *)
    access_ret : Z;
    chmod_ret : Z;
    fork_test : Z;            (* result of the first [fork()] *)
    fork_exec : Z;            (* result of the second [fork()] *)
    execl_returns : bool;     (* [execl] failed and came back *)
    child_status : Z;         (* status stored by [wait(&status)] *)
    system_ret : Z;
    strerror : op -> string } (* [strerror(errno)] after a failed call *).

(** [WIFEXITED(status)] and [WEXITSTATUS(status)] *)
Definition WIFEXITED (status : Z) : bool := Z.land status 127 =? 0.
Definition WEXITSTATUS (status : Z) : Z := Z.land (Z.shiftr status 8) 255.

(** [// Test system() call] up to [return 0;] *)
Definition system_part (w : world) (tr : list event) : ending * list event :=
  let tr := tr ++ [Call System] in
  let result := system_ret w in
  if result =? 0 then (Exited 0, tr ++ [Print (line "⚠ system() call successful")])
  else (Exited 0, tr ++ [Print (line "✓ system() call blocked or failed")]).

(** [// Test exec] and what follows. *)
Definition exec_part (w : world) (tr : list event) : ending * list event :=
  let tr := tr ++ [Call ForkOp] in
  let pid := fork_exec w in
  if pid =? 0 then
    let tr := tr ++ [Call Execl] in
    if execl_returns w then
      (Exited 1, tr ++ [Print (line ("✓ execl() blocked: " +:+ strerror w Execl))])
    else (Replaced "/bin/echo", tr)
  else if pid >? 0 then
    let tr := tr ++ [Call WaitOp] in
    let status := child_status w in
    if WIFEXITED status && (WEXITSTATUS status =? 0) then
      system_part w (tr ++ [Print (line "⚠ execl() successful")])
    else system_part w (tr ++ [Print (line "✓ execl() blocked or failed")])
  else system_part w tr.

(** [// Test fork] and what follows. *)
Definition fork_part (w : world) (tr : list event) : ending * list event :=
  let tr := tr ++ [Call ForkOp] in
  let pid := fork_test w in
  if pid =? -1 then
    exec_part w (tr ++ [Print (line ("✓ fork() blocked: " +:+ strerror w ForkOp))])
  else if pid =? 0 then
    (Exited 0, tr ++ [Print (line "⚠ fork() successful - child process")])
  else
    let tr := tr ++ [Print (line "⚠ fork() successful - parent process")] in
    exec_part w (tr ++ [Call WaitOp]).

(** [// Test chmod] and what follows: the part under
    [// Test potentially dangerous system calls]. *)
Definition dangerous_part (w : world) (tr : list event) : ending * list event :=
  let tr := tr ++ [Call Chmod] in
  if chmod_ret w =? 0 then fork_part w (tr ++ [Print (line "⚠ chmod() allowed")])
  else fork_part w (tr ++ [Print (line ("✓ chmod() blocked: " +:+ strerror w Chmod))]).

(** [printf("%d", id)] for a [uid_t] or [gid_t]: the unsigned 32-bit
    identifier is read back as an [int], so an identifier of 2^31 or more
    comes out negative. *)
Definition show_id (id : Z) : string := show_Z (wrap_int id).

(** The part of [main] before it: the header, the identifiers and the
    [access] test. *)
Definition preamble (w : world) : list event :=
  [ Print (line "=== C System Call Test ===");
    Call Getpid; Print (line ("Process ID: " +:+ show_Z (pid w)));
    Call Getppid; Print (line ("Parent PID: " +:+ show_Z (ppid w)));
    Call Getuid; Print (line ("User ID: " +:+ show_id (uid w)));
    Call Getgid; Print (line ("Group ID: " +:+ show_id (gid w)));
    Call Access;
    Print (if access_ret w =? 0 then line "✓ access() allowed"
           else line ("✗ access() failed: " +:+ strerror w Access)) ].

Definition main (w : world) : ending * list event :=
  dangerous_part w (preamble w).

(** *** Specification side *)

(** The line expected of each test, from the result of its call: a blocked
    line when the call failed, a warning line when it succeeded. *)
Definition chmod_line (w : world) : string :=
  if chmod_ret w =? 0 then line "⚠ chmod() allowed"
  else line ("✓ chmod() blocked: " +:+ strerror w Chmod).

Definition fork_line (w : world) : string :=
  if fork_test w =? -1 then line ("✓ fork() blocked: " +:+ strerror w ForkOp)
  else if fork_test w =? 0 then line "⚠ fork() successful - child process"
  else line "⚠ fork() successful - parent process".

Definition exec_child_line (w : world) : string :=
  line ("✓ execl() blocked: " +:+ strerror w Execl).

Definition exec_parent_line (w : world) : string :=
  if WIFEXITED (child_status w) && (WEXITSTATUS (child_status w) =? 0)
  then line "⚠ execl() successful"
  else line "✓ execl() blocked or failed".

Definition system_line (w : world) : string :=
  if system_ret w =? 0 then line "⚠ system() call successful"
  else line "✓ system() call blocked or failed".

(** The trace of the part under [// Test potentially dangerous system calls]. *)
Definition dangerous_trace (w : world) : list event :=
  drop (length (preamble w)) (snd (main w)).

Definition calls (tr : list event) : list op :=
  omap (fun e => match e with Call o => Some o | _ => None end) tr.

Definition printed (tr : list event) : list string :=
  omap (fun e => match e with Print s => Some s | _ => None end) tr.

Definition op_eqb (a b : op) : bool :=
  match a, b with
  | Getpid, Getpid | Getppid, Getppid | Getuid, Getuid | Getgid, Getgid
  | Access, Access | Chmod, Chmod | ForkOp, ForkOp | Execl, Execl
  | WaitOp, WaitOp | System, System => true
  | _, _ => false
  end.

(** How often a call occurs in a trace. *)
Definition times (o : op) (tr : list event) : nat :=
  length (List.filter (op_eqb o) (calls tr)).

(** The set the specification names: [chmod], [exec*], [system]. *)
Definition named_set : list op := [Chmod; Execl; System].

(** The calls that only collect a child, which are not probes of their own. *)
Definition is_wait (o : op) : bool := op_eqb o WaitOp.

(** The probes of a trace: its calls without the [wait]s. *)
Definition probes (tr : list event) : list op :=
  List.filter (fun o => negb (is_wait o)) (calls tr).

(** A world in which every probed call is refused. *)
Definition locked_down : world :=
  {| pid := 2; ppid := 1; uid := 1000; gid := 1000;
     access_ret := 0; chmod_ret := -1; fork_test := -1; fork_exec := -1;
     execl_returns := true; child_status := 256; system_ret := -1;
     strerror := fun _ => "Operation not permitted" |}.

End Syscalls.

(** ** Memory-limit-exceeded fixtures (test_5_mle.cpp, two variants) *)

Module Mle.

(** The exceptions a vector operation can raise: [std::bad_alloc], or
    another [std::exception] such as [std::length_error]. *)
Inductive exn : Type :=
  | bad_alloc
  | other_exception (what : string).

Inductive alloc : Type :=
  | Allocated
  | Raised (e : exn).

(** The environment: how constructing a vector of [size] elements goes, and
    how [data.push_back(arr)] goes for an [arr] of [size] elements. *)
Record world : Type :=
  { new_vector : Z -> alloc;
    push_back : Z -> alloc }.

(** How [main] stops: it returns a status, an exception nobody catches
    reaches [std::terminate], or the run reaches undefined behaviour, after
    which the language says nothing of it. *)
Inductive ending : Type :=
  | Exited (code : Z)
  | Terminated (e : exn)
  | Undefined.

(** What ends the loop of the first fixture other than its [break]: an
    exception in flight, or [size *= 2] overflowing the [int]. *)
Inductive stop : Type :=
  | Raising (e : exn)
  | SignedOverflow.

(** The value fits an [int]. *)
Definition fits_int (z : Z) : bool := (INT_MIN <=? z) && (z <=? INT_MAX).

(** *** test_files/lang_cpp/test_5_mle.cpp *)

(** Body of [while (true)] inside the [try] block; the state is [size]
    and what stopped the loop, if anything did.  [size] is an [int]:
    [size *= 2] is defined only while the product fits. *)
Definition src_body (w : world) (st : Z * option stop) : ctl (Z * option stop) :=
  let size := fst st in
  match new_vector w size with
  | Raised e => Break (size, Some (Raising e))
  | Allocated =>
      match push_back w size with
      | Raised e => Break (size, Some (Raising e))
      | Allocated =>
          if fits_int (size * 2) then
            let size := size * 2 in
            if size <=? 0 then Break (size, None) else Continue (size, None)
          else Break (size, Some SignedOverflow)
      end
  end.

Definition main_src (fuel : nat) (w : world) : option (ending * list string) :=
  st ← while_true fuel (src_body w) (1, None);
  match snd st with
  | None => Some (Exited 0, [])
  | Some (Raising bad_alloc) => Some (Exited 0, [line "Memory allocation failed"])
  | Some (Raising (other_exception what)) => Some (Exited 0, [line ("Error: " +:+ what)])
  | Some SignedOverflow => Some (Undefined, [])
  end.

(** *** tests/languages/lang_cpp/test_5_mle.cpp *)

(** Body of [while (1)]: the [try] block with its handler.  The state is
    [size], the output and an exception the handler did not catch. *)
Definition tests_body (w : world) (st : Z * list string * option exn)
  : ctl (Z * list string * option exn) :=
  let '(size, out, _) := st in
  match new_vector w size with
  | Allocated => Continue (wrap_size_t (size * 2), out, None)
  | Raised bad_alloc =>
      Break (size, out ++ [line ("Memory allocation failed at size = " +:+ show_Z size)],
             None)
  | Raised e => Break (size, out, Some e)
  end.

Definition main_tests (fuel : nat) (w : world) : option (ending * list string) :=
  st ← while_true fuel (tests_body w) (1, [], None);
  let '(_, out, uncaught) := st in
  match uncaught with
  | None => Some (Exited 0, out)
  | Some e => Some (Terminated e, out)
  end.

(** *** Specification side *)

(** [needle] occurs in [s]. *)
Definition contains (needle s : string) : Prop :=
  exists before after, s = before +:+ needle +:+ after.

(** The allocations of iteration [k] (counted from 0) are the first to
    fail, and fail with [bad_alloc]; [sizes k] is the size in use then. *)
Definition src_size (k : nat) : Z := 2 ^ Z.of_nat k.

Definition src_fails_at (w : world) (k : nat) : Prop :=
  (forall j, (j < k)%nat ->
     new_vector w (src_size j) = Allocated /\ push_back w (src_size j) = Allocated) /\
  (new_vector w (src_size k) = Raised bad_alloc \/
   (new_vector w (src_size k) = Allocated /\ push_back w (src_size k) = Raised bad_alloc)).

Definition tests_fails_at (w : world) (k : nat) : Prop :=
  (forall j, (j < k)%nat -> new_vector w (src_size j) = Allocated) /\
  new_vector w (src_size k) = Raised bad_alloc.

(** A world whose allocator grants fewer than 1024 elements. *)
Definition limited : world :=
  {| new_vector := fun size => if size <? 1024 then Allocated else Raised bad_alloc;
     push_back := fun _ => Allocated |}.

(** The allocations of iteration [k] are the first to fail, and fail with
    the exception [e]. *)
Definition src_raises_at (w : world) (k : nat) (e : exn) : Prop :=
  (forall j, (j < k)%nat ->
     new_vector w (src_size j) = Allocated /\ push_back w (src_size j) = Allocated) /\
  (new_vector w (src_size k) = Raised e \/
   (new_vector w (src_size k) = Allocated /\ push_back w (src_size k) = Raised e)).

Definition tests_raises_at (w : world) (k : nat) (e : exn) : Prop :=
  (forall j, (j < k)%nat -> new_vector w (src_size j) = Allocated) /\
  new_vector w (src_size k) = Raised e.

(** A world in which no allocation ever fails, and one whose vectors refuse
    1024 elements or more with [std::length_error]. *)
Definition roomy : world :=
  {| new_vector := fun _ => Allocated; push_back := fun _ => Allocated |}.

Definition strict : world :=
  {| new_vector := fun size =>
       if size <? 1024 then Allocated
       else Raised (other_exception "cannot create std::vector larger than max_size()");
     push_back := fun _ => Allocated |}.

End Mle.

(** ** Machine integers: basic facts *)

Lemma wrap_int_id z : INT_MIN <= z <= INT_MAX -> wrap_int z = z.
Proof.
  unfold wrap_int, INT_MIN, INT_MAX. intros Hz.
  rewrite Z.mod_small; lia.
Qed.


Lemma wrap_size_t_id z : 0 <= z < 18446744073709551616 -> wrap_size_t z = z.
Proof. intros Hz. unfold wrap_size_t. apply Z.mod_small. lia. Qed.

(** ** Strings: basic facts *)

Lemma append_assoc (a b c : string) : (a +:+ b) +:+ c = a +:+ (b +:+ c).
Proof. induction a as [|x a IH]; simpl; [reflexivity|]. rewrite IH. reflexivity. Qed.

Lemma append_nil_r (a : string) : a +:+ "" = a.
Proof. induction a as [|x a IH]; simpl; [reflexivity|]. rewrite IH. reflexivity. Qed.

(** ** Loops: basic facts *)

Section Loops.
Context {S : Type}.
Implicit Types (body : S -> ctl S) (s : S).

(** A pass more, seen from the end of the run. *)
Lemma after_succ k body s :
  after (Datatypes.S k) body s =
  match after k body s with
  | Continue s' => body s'
  | Break s' => Break s'
  end.
Proof.
  revert s. induction k as [|k IH]; intros s.
  - simpl. destruct (body s); reflexivity.
  - change (after (Datatypes.S (Datatypes.S k)) body s)
      with (match body s with
            | Continue s' => after (Datatypes.S k) body s'
            | Break s' => Break s'
            end).
    destruct (body s) as [s'|s'] eqn:Hb.
    + rewrite IH. simpl. rewrite Hb. reflexivity.
    + simpl. rewrite Hb. reflexivity.
Qed.

(** Once left, a loop stays left, in the same state. *)
Lemma after_break_stable k k' body s s' :
  after k body s = Break s' -> (k <= k')%nat -> after k' body s = Break s'.
Proof.
  intros Hk Hle. induction Hle as [|k' Hle IH]; [exact Hk|].
  rewrite after_succ, IH. reflexivity.
Qed.

(** [while_true] returns exactly when the loop has been left. *)
Lemma while_true_after fuel body s s' :
  while_true fuel body s = Some s' <-> after fuel body s = Break s'.
Proof.
  revert s. induction fuel as [|fuel IH]; intros s; simpl.
  - split; discriminate.
  - destruct (body s) as [s1|s1]; [apply IH|].
    split; intros H; injection H as ->; reflexivity.
Qed.

Lemma while_true_running fuel body s s' :
  after fuel body s = Continue s' -> while_true fuel body s = None.
Proof.
  revert s. induction fuel as [|fuel IH]; intros s; simpl; [reflexivity|].
  destruct (body s) as [s1|s1]; [apply IH|discriminate].
Qed.

(** Invariants: [P] holds at the head of the loop, [Q] once it is left. *)
Lemma after_invariant (P Q : S -> Prop) body :
  (forall s s', P s -> body s = Continue s' -> P s') ->
  (forall s s', P s -> body s = Break s' -> Q s') ->
  forall k s, P s ->
    match after k body s with
    | Continue s' => P s'
    | Break s' => Q s'
    end.
Proof.
  intros Hc Hb. induction k as [|k IH]; intros s Hs; simpl; [exact Hs|].
  destruct (body s) as [s1|s1] eqn:E.
  - apply IH. eapply Hc; eassumption.
  - eapply Hb; eassumption.
Qed.

Lemma for_lt_unroll fuel i hi (body : Z -> S -> ctl S) s :
  for_lt (Datatypes.S fuel) i hi body s =
  if i <? hi then
    match body i s with
    | Continue s' => for_lt fuel (wrap_int (i + 1)) hi body s'
    | Break s' => Some s'
    end
  else Some s.
Proof.
  unfold for_lt. simpl. destruct (i <? hi); [|reflexivity].
  destruct (body i s); reflexivity.
Qed.

Lemma for_le_unroll fuel i hi (body : Z -> S -> ctl S) s :
  for_le (Datatypes.S fuel) i hi body s =
  if i <=? hi then
    match body i s with
    | Continue s' => for_le fuel (wrap_int (i + 1)) hi body s'
    | Break s' => Some s'
    end
  else Some s.
Proof.
  unfold for_le. simpl. destruct (i <=? hi); [|reflexivity].
  destruct (body i s); reflexivity.
Qed.

(** A counted loop whose body never breaks folds its body over the range
    of its counter. *)
Lemma for_le_fold (f : Z -> S -> S) (body : Z -> S -> ctl S) (n : nat) :
  (forall i s, body i s = Continue (f i s)) ->
  forall fuel lo s,
    INT_MIN <= lo -> lo + Z.of_nat n <= INT_MAX -> (n < fuel)%nat ->
    for_le fuel lo (lo + Z.of_nat n - 1) body s =
    Some (foldl (fun s i => f i s) s (seqZ lo (Z.of_nat n))).
Proof.
  intros Hbody. induction n as [|n IH]; intros fuel lo s Hlo Hhi Hfuel.
  - destruct fuel as [|fuel]; [lia|]. rewrite for_le_unroll.
    destruct (Z.leb_spec lo (lo + Z.of_nat 0 - 1)) as [H|_]; [lia|]. reflexivity.
  - destruct fuel as [|fuel]; [lia|]. rewrite for_le_unroll.
    destruct (Z.leb_spec lo (lo + Z.of_nat (Datatypes.S n) - 1)) as [_|H]; [|lia].
    rewrite Hbody, wrap_int_id by (unfold INT_MIN, INT_MAX in *; lia).
    replace (lo + Z.of_nat (Datatypes.S n) - 1) with ((lo + 1) + Z.of_nat n - 1) by lia.
    rewrite IH by (unfold INT_MIN, INT_MAX in *; lia).
    rewrite (seqZ_cons lo (Z.of_nat (Datatypes.S n))) by lia.
    replace (Z.pred (Z.of_nat (Datatypes.S n))) with (Z.of_nat n) by lia.
    replace (Z.succ lo) with (lo + 1) by lia.
    reflexivity.
Qed.

Lemma for_lt_fold (f : Z -> S -> S) (body : Z -> S -> ctl S) (n : nat) :
  (forall i s, body i s = Continue (f i s)) ->
  forall fuel lo s,
    INT_MIN <= lo -> lo + Z.of_nat n <= INT_MAX -> (n < fuel)%nat ->
    for_lt fuel lo (lo + Z.of_nat n) body s =
    Some (foldl (fun s i => f i s) s (seqZ lo (Z.of_nat n))).
Proof.
  intros Hbody. induction n as [|n IH]; intros fuel lo s Hlo Hhi Hfuel.
  - destruct fuel as [|fuel]; [lia|]. rewrite for_lt_unroll.
    destruct (Z.ltb_spec lo (lo + Z.of_nat 0)) as [H|_]; [lia|]. reflexivity.
  - destruct fuel as [|fuel]; [lia|]. rewrite for_lt_unroll.
    destruct (Z.ltb_spec lo (lo + Z.of_nat (Datatypes.S n))) as [_|H]; [|lia].
    rewrite Hbody, wrap_int_id by (unfold INT_MIN, INT_MAX in *; lia).
    replace (lo + Z.of_nat (Datatypes.S n)) with ((lo + 1) + Z.of_nat n) by lia.
    rewrite IH by (unfold INT_MIN, INT_MAX in *; lia).
    rewrite (seqZ_cons lo (Z.of_nat (Datatypes.S n))) by lia.
    replace (Z.pred (Z.of_nat (Datatypes.S n))) with (Z.of_nat n) by lia.
    replace (Z.succ lo) with (lo + 1) by lia.
    reflexivity.
Qed.
End Loops.

(** At the head of a counted loop the counter tells the passes made, and
    it has not passed the bound. *)
Lemma for_lt_counter {S : Type} (body : Z -> S -> ctl S) (lo hi : Z) (s : S) (k : nat) i s' :
  INT_MIN <= lo <= hi -> hi <= INT_MAX ->
  after k (for_lt_step hi body) (lo, s) = Continue (i, s') ->
  i = lo + Z.of_nat k /\ i <= hi.
Proof.
  intros Hlo Hhi. revert i s'. induction k as [|k IH]; intros i s' H.
  - injection H as <- <-. lia.
  - rewrite after_succ in H.
    destruct (after k _ _) as [[j u]|] eqn:E; [|discriminate H].
    destruct (IH j u eq_refl) as [-> Hj].
    unfold for_lt_step in H.
    destruct (Z.ltb_spec (lo + Z.of_nat k) hi) as [Hlt|]; [|discriminate H].
    destruct (body (lo + Z.of_nat k) u); [|discriminate H].
    injection H as <- <-.
    rewrite wrap_int_id by (unfold INT_MIN, INT_MAX in *; lia). lia.
Qed.

(** So a counted loop from [lo] to [hi] is left after [hi - lo + 1] passes. *)
Lemma for_lt_left {S : Type} (body : Z -> S -> ctl S) (lo hi : Z) (s : S) (k : nat) :
  INT_MIN <= lo <= hi -> hi <= INT_MAX -> hi - lo < Z.of_nat k ->
  exists st, after k (for_lt_step hi body) (lo, s) = Break st.
Proof.
  intros Hlo Hhi Hk.
  destruct (after k _ _) as [[i s']|st] eqn:E; [|exists st; reflexivity].
  apply for_lt_counter in E; [lia | assumption..].
Qed.

(** A counted loop whose body only appends to a trace and never breaks
    appends the events of its passes, in order. *)
Lemma for_lt_accumulate {E : Type} (ev : Z -> list E) (body : Z -> list E -> ctl (list E))
    (n : nat) :
  (forall i tr, body i tr = Continue (tr ++ ev i)) ->
  forall fuel lo tr,
    INT_MIN <= lo -> lo + Z.of_nat n <= INT_MAX -> (n < fuel)%nat ->
    for_lt fuel lo (lo + Z.of_nat n) body tr =
    Some (tr ++ concat (map ev (seqZ lo (Z.of_nat n)))).
Proof.
  intros Hbody. induction n as [|n IH]; intros fuel lo tr Hlo Hhi Hfuel.
  - destruct fuel as [|fuel]; [lia|]. rewrite for_lt_unroll.
    destruct (Z.ltb_spec lo (lo + Z.of_nat 0)) as [H|_]; [lia|].
    simpl. rewrite app_nil_r. reflexivity.
  - destruct fuel as [|fuel]; [lia|]. rewrite for_lt_unroll.
    destruct (Z.ltb_spec lo (lo + Z.of_nat (Datatypes.S n))) as [_|H]; [|lia].
    rewrite Hbody, wrap_int_id by (unfold INT_MIN, INT_MAX in *; lia).
    replace (lo + Z.of_nat (Datatypes.S n)) with ((lo + 1) + Z.of_nat n) by lia.
    rewrite IH by (unfold INT_MIN, INT_MAX in *; lia).
    rewrite (seqZ_cons lo (Z.of_nat (Datatypes.S n))) by lia.
    replace (Z.pred (Z.of_nat (Datatypes.S n))) with (Z.of_nat n) by lia.
    replace (Z.succ lo) with (lo + 1) by lia.
    simpl. rewrite <- app_assoc. reflexivity.
Qed.


(** ** Longest increasing subsequence: correctness of the table *)

Section LisProofs.
Import Lis.

Lemma increasing_single x : increasing [x].
Proof. exact I. Qed.

Lemma increasing_app_l s t : increasing (s ++ t) -> increasing s.
Proof.
  induction s as [|x s IH]; [intros _; exact I|].
  destruct s as [|y s]; [intros _; exact I|].
  intros [Hxy H]. split; [exact Hxy|]. apply IH. exact H.
Qed.

(** Appending an element above the last one keeps a list increasing. *)
Lemma increasing_snoc s y x :
  increasing (s ++ [y]) -> y < x -> increasing ((s ++ [y]) ++ [x]).
Proof.
  induction s as [|a s IH]; [intros _ Hyx; split; [exact Hyx | exact I]|].
  destruct s as [|b s].
  - intros [Hay _] Hyx. repeat split; assumption.
  - intros [Hab H] Hyx. split; [exact Hab|]. apply IH; assumption.
Qed.

Lemma increasing_snoc_inv s y x :
  increasing ((s ++ [y]) ++ [x]) -> increasing (s ++ [y]) /\ y < x.
Proof.
  induction s as [|a s IH]; [intros [Hyx _]; split; [exact I | exact Hyx]|].
  destruct s as [|b s].
  - intros [Hay [Hyx _]]. repeat split; assumption.
  - intros [Hab H]. destruct (IH H) as [H1 H2]. repeat split; assumption.
Qed.

(** The last element of a subsequence sits at some index of the list, and
    the rest of the subsequence lies before that index. *)
Lemma sublist_snoc_inv (s : list Z) y (l : list Z) :
  (s ++ [y]) `sublist_of` l ->
  exists j, l !! j = Some y /\ s `sublist_of` take j l.
Proof.
  intros H. apply sublist_app_l in H as (k1 & k2 & -> & Hs & Hy).
  apply sublist_cons_l in Hy as (k2a & k2b & -> & _).
  exists (length (k1 ++ k2a)). split.
  - rewrite app_assoc. rewrite list_lookup_middle; reflexivity.
  - rewrite app_assoc, take_app_length.
    apply sublist_inserts_r. exact Hs.
Qed.

Lemma snoc_cases (s : list Z) : s = [] \/ exists s' y, s = s' ++ [y].
Proof.
  induction s as [|x s IH] using rev_ind; [left; reflexivity|].
  right. exists s, x. reflexivity.
Qed.

Lemma ending_at_length arr i s :
  ending_at arr i s -> (length s <= i)%nat.
Proof.
  intros [Hs _]. apply sublist_length in Hs.
  rewrite length_take in Hs. lia.
Qed.

Lemma opt_end_bounds arr i v : opt_end arr i v -> 1 <= v <= Z.of_nat i + 1.
Proof.
  intros [(s & Hs & <-) _]. apply ending_at_length in Hs. lia.
Qed.

(** An optimal subsequence ending at [j] extends to one ending at [i]. *)
Lemma ending_at_extend arr i j s :
  (j < i)%nat -> (i < length arr)%nat ->
  ending_at arr j s -> arr !!! j < arr !!! i ->
  ending_at arr i (s ++ [arr !!! j]).
Proof.
  intros Hji Hi [Hs Hinc] Hlt. split.
  - assert (Hj : arr !! j = Some (arr !!! j)).
    { apply list_lookup_lookup_total_lt. lia. }
    transitivity (take (Datatypes.S j) arr).
    + rewrite (take_S_r _ _ _ Hj). apply sublist_app; [exact Hs|reflexivity].
    + replace (take (Datatypes.S j) arr) with (take (Datatypes.S j) (take i arr)).
      * apply sublist_take.
      * rewrite take_take. f_equal. lia.
  - apply increasing_snoc; assumption.
Qed.

(** Every increasing subsequence ending at [i] is either the single
    element or extends one that ends at an earlier, smaller element. *)
Lemma ending_at_inv arr i s :
  (i < length arr)%nat -> ending_at arr i s ->
  s = [] \/ exists s' j, s = s' ++ [arr !!! j] /\ (j < i)%nat /\
                         ending_at arr j s' /\ arr !!! j < arr !!! i.
Proof.
  intros Hi [Hs Hinc]. destruct (snoc_cases s) as [->|(s' & y & ->)]; [left; reflexivity|].
  right. apply sublist_snoc_inv in Hs as (j & Hj & Hs').
  apply lookup_take_Some in Hj as [Hj Hji].
  apply increasing_snoc_inv in Hinc as [Hinc Hyx].
  assert (Hy : arr !!! j = y) by (apply list_lookup_total_correct; exact Hj).
  exists s', j. rewrite Hy. repeat split; try assumption.
  - rewrite take_take in Hs'. replace (j `min` i)%nat with j in Hs' by lia. exact Hs'.
  - rewrite Hy. exact Hinc.
Qed.

Section Table.
Variable arr : list Z.
Hypothesis arr_fits : Z.of_nat (length arr) <= INT_MAX.

(** One pass of the inner loop keeps its invariant. *)
Lemma inner_step i dp0 j dp :
  (i < length arr)%nat -> (j < i)%nat ->
  length dp0 = length arr ->
  (forall k, (k < i)%nat -> opt_end arr k (dp0 !!! k)) ->
  inner_inv arr i dp0 j dp ->
  inner_inv arr i dp0 (Datatypes.S j) (src_inner_body arr i dp j).
Proof.
  intros Hi Hj Hlen Hopt (Hl & Hsame & (s & Hs & Hsv) & Hacc).
  unfold src_inner_body.
  assert (Hdpj : dp !!! j = dp0 !!! j).
  { rewrite !list_lookup_total_alt, Hsame by lia. reflexivity. }
  destruct (Z.ltb_spec (arr !!! j) (arr !!! i)) as [Hlt|Hge].
  - pose proof (Hopt j Hj) as Hoj.
    pose proof (opt_end_bounds _ _ _ Hoj) as Hb.
    rewrite Hdpj.
    rewrite wrap_int_id by (unfold INT_MIN, INT_MAX in *; lia).
    assert (Hii : (i < length dp)%nat) by lia.
    repeat split.
    + rewrite length_insert. exact Hl.
    + intros k Hk. rewrite list_lookup_insert_ne by congruence. apply Hsame, Hk.
    + rewrite list_lookup_total_insert_eq by exact Hii.
      unfold std_max. destruct (Z.ltb_spec (dp !!! i) (dp0 !!! j + 1)) as [Hm|Hm].
      * destruct Hoj as [(sj & Hsj & Hsjv) _].
        exists (sj ++ [arr !!! j]). split.
        -- apply ending_at_extend; assumption.
        -- rewrite length_app. simpl. lia.
      * exists s. split; assumption.
    + intros j' Hj' Hlt'. rewrite list_lookup_total_insert_eq by exact Hii.
      unfold std_max.
      destruct (Z.ltb_spec (dp !!! i) (dp0 !!! j + 1)) as [Hm|Hm];
        destruct (decide (j' = j)) as [->|Hne]; try lia;
        assert (Hold : dp0 !!! j' + 1 <= dp !!! i) by (apply Hacc; [lia|exact Hlt']);
        lia.
  - repeat split; try assumption.
    + exists s. split; assumption.
    + intros j' Hj' Hlt'. destruct (decide (j' = j)) as [->|Hne]; [lia|].
      apply Hacc; [lia|exact Hlt'].
Qed.

(** The inner loop, run to [j], establishes its invariant at [j]. *)
Lemma inner_loop i dp0 j :
  (i < length arr)%nat -> (j <= i)%nat ->
  length dp0 = length arr ->
  (forall k, (k < i)%nat -> opt_end arr k (dp0 !!! k)) ->
  dp0 !!! i = 1 ->
  inner_inv arr i dp0 j (foldl (src_inner_body arr i) dp0 (seq 0 j)).
Proof.
  intros Hi Hj Hlen Hopt Hone. induction j as [|j IH].
  - simpl. repeat split.
    + exists []. split; [|simpl; lia].
      split; [apply sublist_nil_l | apply increasing_single].
    + intros j' Hj'. lia.
  - rewrite seq_S, foldl_snoc. simpl.
    apply inner_step; try assumption; try lia.
    apply IH. lia.
Qed.

(** A finished row holds the optimum for its index. *)
Lemma inner_done i dp0 dp :
  (i < length arr)%nat ->
  outer_inv arr i dp0 ->
  inner_inv arr i dp0 i dp ->
  outer_inv arr (Datatypes.S i) dp.
Proof.
  intros Hi (Hlen & Hopt & Hones) (Hl & Hsame & (s & Hs & Hsv) & Hacc).
  assert (Hother : forall k, k <> i -> dp !!! k = dp0 !!! k).
  { intros k Hk. rewrite !list_lookup_total_alt, Hsame by exact Hk. reflexivity. }
  split; [lia|]. split.
  - intros k Hk Hka. destruct (decide (k = i)) as [->|Hne].
    + split; [exists s; split; assumption|].
      intros t Ht. destruct (ending_at_inv _ _ _ Hi Ht)
        as [->|(t' & j & -> & Hji & Htj & Hlt)].
      * simpl. lia.
      * pose proof (Hopt j Hji ltac:(lia)) as [_ Hbound].
        specialize (Hbound t' Htj). specialize (Hacc j Hji Hlt).
        rewrite length_app. simpl. lia.
    + rewrite Hother by exact Hne. apply Hopt; [lia|exact Hka].
  - intros k Hk Hka. rewrite Hother by lia. apply Hones; [lia|exact Hka].
Qed.

(** The table after the rows below [m]. *)
Lemma outer_loop c :
  (c < length arr)%nat ->
  outer_inv arr (Datatypes.S c)
    (foldl (fun dp i => foldl (src_inner_body arr i) dp (seq 0 i))
           (replicate (length arr) 1) (seq 1 c)).
Proof.
  intros Hc. induction c as [|c IH].
  - simpl. split; [apply length_replicate|]. split.
    + intros k Hk Hka. assert (k = 0%nat) as -> by lia.
      rewrite lookup_total_replicate_2 by exact Hka.
      split.
      * exists []. split; [|reflexivity].
        split; [apply sublist_nil_l | apply increasing_single].
      * intros t [Ht _]. rewrite take_0 in Ht. apply sublist_nil_r in Ht as ->.
        simpl. lia.
    + intros k _ Hka. apply lookup_total_replicate_2. exact Hka.
  - rewrite seq_S, foldl_snoc. simpl.
    specialize (IH ltac:(lia)).
    eapply inner_done; [lia | exact IH |].
    destruct IH as (Hlen & Hopt & Hones).
    apply inner_loop; try lia.
    + intros k Hk. apply Hopt; lia.
    + apply Hones; lia.
Qed.
End Table.

(** [max_element] returns a value of the range that bounds all of them. *)
Lemma max_element_spec dp m :
  max_element dp = Some m ->
  (exists k, dp !! k = Some m) /\ (forall k v, dp !! k = Some v -> v <= m).
Proof.
  destruct dp as [|x rest]; [discriminate|]. simpl. intros [= <-].
  revert x. induction rest as [|y rest IH]; intros x; simpl.
  - split; [exists 0%nat; reflexivity|].
    intros [|k'] v; simpl; [intros [= <-]; lia | discriminate].
  - destruct (IH (if x <? y then y else x)) as [(k & Hk) Hle]. split.
    + destruct k as [|k].
      * simpl in Hk. destruct (x <? y) eqn:E.
        -- exists 1%nat. exact Hk.
        -- exists 0%nat. exact Hk.
      * exists (Datatypes.S (Datatypes.S k)). exact Hk.
    + intros [|[|k']] v Hv; simpl in Hv.
      * injection Hv as <-. specialize (Hle 0%nat _ eq_refl).
        destruct (Z.ltb_spec x y); lia.
      * injection Hv as <-. specialize (Hle 0%nat _ eq_refl).
        destruct (Z.ltb_spec x y); lia.
      * apply (Hle (Datatypes.S k')). exact Hv.
Qed.

(** The test of [lis] and the [max] of [longest_increasing_subsequence]
    store the same table. *)
Lemma inner_bodies_agree arr i dp j :
  lis_inner_body arr i dp j = src_inner_body arr i dp j.
Proof.
  unfold lis_inner_body, src_inner_body, std_max.
  rewrite Z.gtb_ltb.
  destruct (arr !!! j <? arr !!! i); simpl; [|reflexivity].
  destruct (dp !!! i <? wrap_int (dp !!! j + 1)); [reflexivity|].
  symmetry. apply list_insert_id'. intros Hi.
  apply list_lookup_lookup_total_lt. exact Hi.
Qed.

Lemma dp_loops_agree arr n dp :
  dp_loops lis_inner_body arr n dp = dp_loops src_inner_body arr n dp.
Proof.
  unfold dp_loops. generalize (seq 1 (n - 1)). intros rows. revert dp.
  induction rows as [|i rows IH]; intros dp; simpl; [reflexivity|].
  rewrite IH. f_equal.
  generalize (seq 0 i). intros cols. revert dp.
  induction cols as [|j cols IHc]; intros dp; simpl; [reflexivity|].
  rewrite inner_bodies_agree. apply IHc.
Qed.

Lemma dp_table_agree arr : dp_table lis_inner_body arr = dp_table src_inner_body arr.
Proof. unfold dp_table. rewrite dp_loops_agree. reflexivity. Qed.

(** On a vector whose size an [int] holds, the table yields the length of
    the longest increasing subsequence. *)
Lemma dp_table_correct arr :
  arr <> [] -> Z.of_nat (length arr) <= INT_MAX ->
  exists L, dp_table src_inner_body arr = Returns L /\ lis_length arr L.
Proof.
  intros Hne Hfit. unfold dp_table.
  assert (Hpos : (0 < length arr)%nat) by (destruct arr; [congruence|simpl; lia]).
  rewrite wrap_int_id by (unfold INT_MIN, INT_MAX in *; lia).
  destruct (Z.ltb_spec (Z.of_nat (length arr)) 0) as [Hneg|_]; [lia|].
  rewrite Nat2Z.id. unfold dp_loops.
  pose proof (outer_loop arr Hfit (length arr - 1) ltac:(lia)) as Hinv.
  replace (Datatypes.S (length arr - 1)) with (length arr) in Hinv by lia.
  set (dp := foldl _ _ _) in *.
  destruct Hinv as (Hlen & Hopt & _).
  destruct (max_element dp) as [m|] eqn:Hmax.
  2:{ destruct dp; [simpl in Hlen; lia | discriminate]. }
  exists m. split; [reflexivity|].
  apply max_element_spec in Hmax as [(k & Hk) Hle].
  assert (Hka : (k < length arr)%nat).
  { rewrite <- Hlen. apply lookup_lt_Some in Hk. exact Hk. }
  split.
  - destruct (Hopt k Hka Hka) as [(s & [Hs Hinc] & Hsv) _].
    rewrite (list_lookup_total_correct _ _ _ Hk) in Hsv.
    exists (s ++ [arr !!! k]). repeat split.
    + transitivity (take (Datatypes.S k) arr); [|apply sublist_take].
      rewrite (take_S_r arr k (arr !!! k))
        by (apply list_lookup_lookup_total_lt; exact Hka).
      apply sublist_app; [exact Hs | reflexivity].
    + exact Hinc.
    + rewrite length_app. simpl. lia.
  - intros s Hs Hinc. destruct (snoc_cases s) as [->|(s' & y & ->)].
    + simpl. destruct (Hopt k Hka Hka) as [(t & _ & Htv) _].
      rewrite (list_lookup_total_correct _ _ _ Hk) in Htv. lia.
    + apply sublist_snoc_inv in Hs as (j & Hj & Hs').
      assert (Hja : (j < length arr)%nat) by (apply lookup_lt_Some in Hj; exact Hj).
      destruct (Hopt j Hja Hja) as [_ Hbound].
      assert (Hend : ending_at arr j s').
      { split; [exact Hs'|]. rewrite (list_lookup_total_correct _ _ _ Hj). exact Hinc. }
      specialize (Hbound _ Hend).
      assert (Hdj : dp !! j = Some (dp !!! j)).
      { apply list_lookup_lookup_total_lt. lia. }
      specialize (Hle _ _ Hdj). rewrite length_app. simpl. lia.
Qed.
End LisProofs.

Section LisTheorems.
Import Lis.

Lemma lis_src_nonempty arr :
  arr <> [] -> longest_increasing_subsequence arr = dp_table src_inner_body arr.
Proof.
  intros Hne. unfold longest_increasing_subsequence.
  rewrite bool_decide_eq_false_2 by exact Hne. reflexivity.
Qed.

(** When the size of the vector reads as 1 in an [int], the table has one
    row and both functions return 1. *)
Lemma dp_table_size_one body arr :
  wrap_int (Z.of_nat (length arr)) = 1 -> dp_table body arr = Returns 1.
Proof. unfold dp_table. intros ->. reflexivity. Qed.

(** The size of a vector [0, 1, 0, ..., 0] with [c] trailing zeros. *)
Lemma padded_size (c : Z) :
  0 <= c -> Z.of_nat (length (0 :: 1 :: replicate (Z.to_nat c) 0)) = c + 2.
Proof. intros Hc. simpl length. rewrite length_replicate. lia. Qed.

Lemma huge_vector_size : wrap_int (Z.of_nat (length huge_vector)) = 1.
Proof.
  unfold huge_vector.
  rewrite (padded_size 4294967295) by discriminate.
  reflexivity.
Qed.

Lemma huge_vector_has_pair : [0; 1] `sublist_of` huge_vector.
Proof.
  unfold huge_vector. apply sublist_skip || constructor.
  constructor. apply sublist_nil_l.
Qed.
End LisTheorems.

(** C1, as stated, fails: the fixture does not print "LIS length: 6". *)
Lemma lis_fixture_does_not_print_6 :
  Lis.main_src <> Returns ([line "LIS length: 6"], 0).
Proof. vm_compute. discriminate. Qed.

(** C1, amended: the LIS fixture, on its hard-coded array
    {10, 9, 2, 5, 3, 7, 101, 18}, prints exactly one line, "LIS length: 4",
    and exits with status 0; 4 is the length of the longest strictly
    increasing subsequence of that array. *)
Theorem lis_fixture_prints_4 :
  Lis.main_src = Returns ([line "LIS length: 4"], 0) /\
  Lis.longest_increasing_subsequence Lis.fixture_array = Returns 4 /\
  Lis.lis_length Lis.fixture_array 4.
Proof.
  split; [reflexivity|]. split; [reflexivity|].
  destruct (dp_table_correct Lis.fixture_array) as (L & HL & Hspec).
  - discriminate.
  - vm_compute. discriminate.
  - assert (L = 4) as -> by (vm_compute in HL; congruence).
    exact Hspec.
Qed.

(** C10, as stated, fails: on a vector of 2^32 + 1 elements the size read
    into [int n] is 1, both functions return 1, and the vector has the
    increasing subsequence 0, 1 of length 2. *)
Lemma lis_wrong_on_huge_vector :
  Lis.huge_vector <> [] /\
  ~ (exists L, Lis.longest_increasing_subsequence Lis.huge_vector = Returns L /\
               Lis.lis Lis.huge_vector = Returns L /\
               Lis.lis_length Lis.huge_vector L).
Proof.
  split; [discriminate|].
  intros (L & Hsrc & _ & _ & Hbound).
  rewrite lis_src_nonempty in Hsrc by discriminate.
  rewrite (dp_table_size_one _ _ huge_vector_size) in Hsrc.
  injection Hsrc as <-.
  specialize (Hbound [0; 1] huge_vector_has_pair).
  assert (Hinc : Lis.increasing [0; 1]) by (split; [reflexivity | exact I]).
  specialize (Hbound Hinc). revert Hbound.
  change (Z.of_nat (length [0; 1])) with 2. lia.
Qed.

(** C10, amended: for every non-empty vector of at most INT_MAX elements,
    [longest_increasing_subsequence] and [lis] return the same value, the
    length of the longest strictly increasing subsequence of the vector;
    [longest_increasing_subsequence] returns 0 on the empty vector, on which
    [lis] has no defined result. *)
Theorem lis_fixtures_agree (arr : list Z) :
  arr <> [] -> Z.of_nat (length arr) <= INT_MAX ->
  (exists L, Lis.longest_increasing_subsequence arr = Returns L /\
             Lis.lis arr = Returns L /\
             Lis.lis_length arr L) /\
  Lis.longest_increasing_subsequence [] = Returns 0 /\
  Lis.lis [] = Undefined.
Proof.
  intros Hne Hfit. split; [|split; reflexivity].
  destruct (dp_table_correct arr Hne Hfit) as (L & HL & Hspec).
  exists L. split; [|split].
  - rewrite lis_src_nonempty by exact Hne. exact HL.
  - unfold Lis.lis. rewrite dp_table_agree. exact HL.
  - exact Hspec.
Qed.

Lemma lis_fixtures_agree_witness :
  (exists L, Lis.longest_increasing_subsequence [10; 22; 9; 33; 21; 50; 41; 60] = Returns L /\
             Lis.lis [10; 22; 9; 33; 21; 50; 41; 60] = Returns L /\
             Lis.lis_length [10; 22; 9; 33; 21; 50; 41; 60] L) /\
  Lis.longest_increasing_subsequence [] = Returns 0 /\
  Lis.lis [] = Undefined.
Proof.
  apply (lis_fixtures_agree [10; 22; 9; 33; 21; 50; 41; 60]).
  - discriminate.
  - vm_compute. discriminate.
Defined.

(** ** Star pattern fixtures *)

Section StarProofs.
Import Star.

Lemma stars_snoc out n : (out +:+ "*") +:+ stars n = out +:+ stars (S n).
Proof. rewrite append_assoc. reflexivity. Qed.


(** And it returns when it has fuel for its passes. *)
Lemma put_stars_total fuel j k out :
  0 <= j -> k <= INT_MAX -> (Z.to_nat (k - j) < fuel)%nat ->
  put_stars fuel j k out = Some (out +:+ stars (Z.to_nat (k - j))).
Proof.
  revert j out. induction fuel as [|fuel IH]; intros j out Hj Hk Hfuel; [lia|].
  simpl. destruct (Z.ltb_spec j k) as [Hlt|Hge].
  - rewrite wrap_int_id by (unfold INT_MIN, INT_MAX in *; lia).
    rewrite IH by lia. rewrite stars_snoc. f_equal. f_equal. f_equal. lia.
  - replace (Z.to_nat (k - j)) with 0%nat by lia. rewrite append_nil_r. reflexivity.
Qed.

(** While [2 * i] fits an [int], the bound of the inner loop is [2*i - 1]. *)
Lemma group_width_exact i : 1 <= i <= 1073741823 -> group_width i = 2 * i - 1.
Proof.
  intros Hi. unfold group_width.
  rewrite (wrap_int_id (2 * i)) by (unfold INT_MIN, INT_MAX; lia).
  apply wrap_int_id. unfold INT_MIN, INT_MAX. lia.
Qed.

Lemma src_rows_total inner fuel i N out :
  1 <= i <= N + 1 -> N <= 1073741823 ->
  (Z.to_nat (2 * N) <= inner)%nat -> (Z.to_nat (N + 1 - i) < fuel)%nat ->
  src_rows inner fuel i N out
  = Some (out +:+ concat_rows src_row (seqZ i (N + 1 - i))).
Proof.
  revert i out. induction fuel as [|fuel IH]; intros i out Hi HN Hinner Hfuel; [lia|].
  simpl. destruct (Z.leb_spec i N) as [Hle|Hgt].
  - rewrite group_width_exact by lia.
    rewrite put_stars_total by (unfold INT_MAX; lia).
    cbn [mbind option_bind].
    rewrite wrap_int_id by (unfold INT_MIN, INT_MAX; lia).
    rewrite IH by lia.
    rewrite (seqZ_cons i (N + 1 - i)) by lia.
    replace (Z.pred (N + 1 - i)) with (N + 1 - (i + 1)) by lia.
    replace (Z.succ i) with (i + 1) by lia.
    cbn [concat_rows fold_right]. unfold src_row at 2.
    rewrite Z.sub_0_r.
    destruct (i >? 1); rewrite !append_assoc; reflexivity.
  - replace (N + 1 - i) with 0 by lia. cbn. rewrite append_nil_r. reflexivity.
Qed.

Lemma tests_rows_total inner fuel i N out :
  1 <= i <= N + 1 -> N <= 1073741823 ->
  (Z.to_nat (2 * N) <= inner)%nat -> (Z.to_nat (N + 1 - i) < fuel)%nat ->
  tests_rows inner fuel i N out
  = Some (out +:+ concat_rows tests_row (seqZ i (N + 1 - i))).
Proof.
  revert i out. induction fuel as [|fuel IH]; intros i out Hi HN Hinner Hfuel; [lia|].
  simpl. destruct (Z.leb_spec i N) as [Hle|Hgt].
  - rewrite group_width_exact by lia.
    rewrite put_stars_total by (unfold INT_MAX; lia).
    cbn [mbind option_bind].
    rewrite wrap_int_id by (unfold INT_MIN, INT_MAX; lia).
    rewrite IH by lia.
    rewrite (seqZ_cons i (N + 1 - i)) by lia.
    replace (Z.pred (N + 1 - i)) with (N + 1 - (i + 1)) by lia.
    replace (Z.succ i) with (i + 1) by lia.
    cbn [concat_rows fold_right]. unfold tests_row at 2.
    rewrite Z.sub_0_r, !append_assoc. reflexivity.
  - replace (N + 1 - i) with 0 by lia. cbn. rewrite append_nil_r. reflexivity.
Qed.

(** *** Reading the groups back *)







Lemma seqZ_from n i : Forall (fun j => i <= j) (seqZ i n).
Proof.
  apply Forall_forall. intros j Hj. apply elem_of_seqZ in Hj. lia.
Qed.



(** *** Counting the stars *)







(** *** Past the range of [int] *)



End StarProofs.






(** ** timeout.c *)

Section TimeoutProofs.
Import Timeout.

Lemma second_body_continue i st :
  second_body i st
  = Continue (sleep 1 (emit Flush (printf (line ("Second " +:+ show_Z i +:+ "/30")) st))).
Proof. reflexivity. Qed.

Lemma sleeps_app tr1 tr2 : sleeps (tr1 ++ tr2) = sleeps tr1 ++ sleeps tr2.
Proof. apply omap_app. Qed.

(** Each pass of the 30-second loop adds exactly one sleep of one second. *)
Lemma seconds_fold (l : list Z) st :
  sleeps (trace (foldl (fun st i =>
            sleep 1 (emit Flush (printf (line ("Second " +:+ show_Z i +:+ "/30")) st)))
          st l))
  = sleeps (trace st) ++ replicate (length l) 1.
Proof.
  revert st. induction l as [|i l IH]; intros st; simpl.
  - rewrite app_nil_r. reflexivity.
  - rewrite IH. unfold sleep, emit, printf, emit. cbn [trace].
    rewrite !sleeps_app. cbn [sleeps omap]. rewrite <- !app_assoc. reflexivity.
Qed.


Lemma sleeps_printf s st : sleeps (trace (printf s st)) = sleeps (trace st).
Proof. unfold printf, emit. cbn [trace]. rewrite sleeps_app. apply app_nil_r. Qed.

Lemma sleeps_sleep n st : sleeps (trace (sleep n st)) = sleeps (trace st) ++ [n].
Proof. unfold sleep, emit. cbn [trace]. apply sleeps_app. Qed.

Lemma sleeps_ticked w st : sleeps (trace (ticked w st)) = sleeps (trace st).
Proof. unfold ticked. cbn [trace]. rewrite sleeps_app. apply app_nil_r. Qed.

(** The normal mode terminates: with fuel for its 30 passes it returns, and
    it has slept 2 s, 5 s and then 30 times 1 s. *)
Lemma test_timeouts_sleeps fuel w :
  (31 <= fuel)%nat ->
  exists st, test_timeouts fuel w initial = Some st /\
             sleeps (trace st) = [2; 5] ++ replicate 30 1.
Proof.
  intros Hfuel. unfold test_timeouts, time.
  change 30 with (1 + Z.of_nat 30 - 1) at 1.
  rewrite (for_le_fold _ _ 30 second_body_continue) by (unfold INT_MIN, INT_MAX; lia).
  cbn [mbind option_bind]. eexists. split; [reflexivity|].
  rewrite sleeps_printf, sleeps_ticked, seconds_fold, sleeps_ticked, sleeps_printf,
    sleeps_printf, sleeps_ticked, sleeps_sleep, sleeps_ticked, sleeps_printf,
    sleeps_printf, sleeps_ticked, sleeps_sleep, sleeps_ticked, sleeps_printf,
    sleeps_printf.
  reflexivity.
Qed.

(** The state of the infinite loop after [k] passes: still at the head of
    the loop, having counted [k] passes and called [time] once per pass. *)
Lemma infinite_loop_runs w st k :
  exists v, after k (infinite_body w) (infinite_entry w st) = Continue v /\
            counter v = wrap_size_t (Z.of_nat k) /\
            ticks (io v) = S (ticks st + k).
Proof.
  induction k as [|k (v & Hv & Hc & Ht)].
  - eexists. split; [reflexivity|]. split; [reflexivity|].
    unfold infinite_entry, time, ticked, printf, emit. cbn. lia.
  - rewrite after_succ, Hv. unfold infinite_body, time, ticked.
    assert (Hcount : wrap_size_t (counter v + 1) = wrap_size_t (Z.of_nat (S k))).
    { rewrite Hc. unfold wrap_size_t. rewrite Z.add_mod_idemp_l by lia.
      f_equal. lia. }
    destruct (wrap_long (clock w (ticks (io v)) - last_print v) >=? 1);
      (eexists; split; [reflexivity|]); cbn [counter io ticks printf emit];
      (split; [exact Hcount | lia]).
Qed.

Lemma infinite_loop_test_never_returns fuel w st : infinite_loop_test fuel w st = None.
Proof.
  unfold infinite_loop_test.
  destruct (infinite_loop_runs w st fuel) as (v & Hv & _).
  rewrite (while_true_running _ _ _ _ Hv). reflexivity.
Qed.

Lemma infinite_mode_chosen prog rest :
  (Z.of_nat (length (prog :: "infinite" :: rest)) >? 1)
    && (strcmp (nth 1 (prog :: "infinite" :: rest) "") "infinite" =? 0) = true.
Proof.
  apply andb_true_intro. split; [|reflexivity].
  cbn [length]. destruct (Z.gtb_spec (Z.of_nat (S (S (length rest)))) 1); [reflexivity|lia].
Qed.

Lemma normal_mode_chosen argv :
  ~ asks_infinite argv ->
  (Z.of_nat (length argv) >? 1) && (strcmp (nth 1 argv "") "infinite" =? 0) = false.
Proof.
  intros Hno. apply not_true_is_false. intros H.
  apply andb_prop in H as [Hlen Hcmp]. apply Hno.
  destruct argv as [|prog [|arg rest]]; [discriminate Hlen..|].
  exists prog, rest. f_equal. f_equal.
  cbn [nth] in Hcmp. unfold strcmp in Hcmp.
  destruct (String.compare arg "infinite") eqn:E; try discriminate Hcmp.
  apply String.compare_eq_iff. exact E.
Qed.
End TimeoutProofs.

(** C2: invoked with first argument "infinite", [main] calls
    [infinite_loop_test], which never returns: after any number of passes
    the [while (1)] loop is back at its head, having counted the passes, and
    no amount of fuel lets [main] return.  Invoked without that argument,
    [main] runs [test_timeouts], which terminates after sleeping 2 s, then
    5 s, then 30 times 1 s, and [main] returns 0. *)
Theorem timeout_modes (w : Timeout.world) :
  (forall prog rest fuel, Timeout.main fuel w (prog :: "infinite" :: rest) = None) /\
  (forall k, exists v,
     after k (Timeout.infinite_body w) (Timeout.infinite_entry w Timeout.initial)
       = Continue v /\
     Timeout.counter v = wrap_size_t (Z.of_nat k)) /\
  (forall argv fuel,
     ~ Timeout.asks_infinite argv -> (31 <= fuel)%nat ->
     exists tr, Timeout.main fuel w argv = Some (0, tr) /\
                Timeout.sleeps tr = [2; 5] ++ replicate 30 1).
Proof.
  split; [|split].
  - intros prog rest fuel. unfold Timeout.main.
    rewrite infinite_mode_chosen, infinite_loop_test_never_returns. reflexivity.
  - intros k. destruct (infinite_loop_runs w Timeout.initial k) as (v & Hv & Hc & _).
    exists v. split; assumption.
  - intros argv fuel Hno Hfuel. unfold Timeout.main.
    rewrite (normal_mode_chosen argv Hno).
    destruct (test_timeouts_sleeps fuel w Hfuel) as (st & -> & Hs).
    eexists. split; [reflexivity | exact Hs].
Qed.

Lemma timeout_modes_witness :
  Timeout.main 31 Timeout.ticking ["timeout"; "infinite"] = None /\
  exists tr, Timeout.main 31 Timeout.ticking ["timeout"] = Some (0, tr) /\
             Timeout.sleeps tr = [2; 5] ++ replicate 30 1.
Proof.
  destruct (timeout_modes Timeout.ticking) as (Hinf & _ & Hnormal).
  split; [apply Hinf|]. apply Hnormal; [|lia].
  intros (prog & rest & H). discriminate H.
Defined.

(** ** memory.c *)

Section MemoryProofs.
Import Memory.

Lemma requests_app tr1 tr2 : requests (tr1 ++ tr2) = requests tr1 ++ requests tr2.
Proof. apply omap_app. Qed.

Lemma granted_app tr1 tr2 : granted (tr1 ++ tr2) = granted tr1 ++ granted tr2.
Proof. apply omap_app. Qed.

Lemma chunk_size_value : chunk_size = 5 * 1024 * 1024.
Proof. reflexivity. Qed.

Lemma ceiling_value : ceiling = 500 * 1024 * 1024.
Proof. reflexivity. Qed.

(** What one pass of the loop body does to the variables. *)
Lemma alloc_body_spec w i v :
  0 <= i <= 100 -> allocated_chunks v = i -> total_allocated v = 5 * 1024 * 1024 * i ->
  exists v' evs,
    alloc_body w i v
      = (if chunk_malloc w i then
           if 500 * 1024 * 1024 <? 5 * 1024 * 1024 * (i + 1) then Break v' else Continue v'
         else Break v') /\
    trace v' = trace v ++ evs /\
    requests evs = [5 * 1024 * 1024] /\
    granted evs = (if chunk_malloc w i then [5 * 1024 * 1024] else []) /\
    allocated_chunks v' = (if chunk_malloc w i then i + 1 else i) /\
    total_allocated v' = 5 * 1024 * 1024 * (if chunk_malloc w i then i + 1 else i).
Proof.
  intros Hi Hc Ht. unfold alloc_body.
  destruct (chunk_malloc w i) eqn:Hok; cbn [negb].
  - unfold printf, emit. cbn [ptrs allocated_chunks total_allocated trace].
    rewrite Hc, Ht, chunk_size_value, ceiling_value.
    rewrite (wrap_int_id (i + 1)) by (unfold INT_MIN, INT_MAX; lia).
    rewrite wrap_size_t_id by lia.
    replace (5 * 1024 * 1024 * i + 5 * 1024 * 1024) with (5 * 1024 * 1024 * (i + 1)) by lia.
    rewrite Z.gtb_ltb.
    destruct (500 * 1024 * 1024 <? 5 * 1024 * 1024 * (i + 1));
      eexists; eexists; (split; [reflexivity|]);
      cbn [trace allocated_chunks total_allocated];
      (split; [rewrite <- ?app_assoc; reflexivity|]);
      repeat split; reflexivity.
  - unfold printf, emit. cbn [ptrs allocated_chunks total_allocated trace].
    eexists; eexists; (split; [reflexivity|]).
    cbn [trace allocated_chunks total_allocated].
    split; [rewrite <- ?app_assoc; reflexivity|].
    rewrite chunk_size_value. repeat split; assumption.
Qed.

Lemma forall_app_one (P : Z -> Prop) l x : Forall P l -> P x -> Forall P (l ++ [x]).
Proof. intros Hl Hx. apply Forall_app. split; [exact Hl | constructor; [exact Hx | constructor]]. Qed.

(** A pass from the head of the loop leads to its head or out of it. *)
Lemma alloc_step_head w v0 st st' :
  at_head v0 st -> for_lt_step 200 (alloc_body w) st = Continue st' -> at_head v0 st'.
Proof.
  destruct st as [i v], st' as [i' v'].
  intros (Hi & Htot & tr & Htr & Hall & Hreq & Hgr & Ht & Hc) Hstep.
  unfold for_lt_step in Hstep.
  destruct (Z.ltb_spec i 200) as [_|Hge]; [|discriminate Hstep].
  destruct (alloc_body_spec w i v Hi Hc Ht)
    as (v1 & evs & Hb & Htr1 & Hreq1 & Hgr1 & Hc1 & Ht1).
  rewrite Hb in Hstep.
  destruct (chunk_malloc w i); [|discriminate Hstep].
  destruct (Z.ltb_spec (500 * 1024 * 1024) (5 * 1024 * 1024 * (i + 1))) as [Hover|Hfits];
    [discriminate Hstep|].
  injection Hstep as <- <-.
  rewrite wrap_int_id by (unfold INT_MIN, INT_MAX; lia).
  split; [lia|]. split; [lia|].
  exists (tr ++ evs). rewrite Htr1, Htr, <- app_assoc, requests_app, granted_app,
    Hreq1, Hgr1, !length_app, Hreq, Hgr.
  repeat split; try assumption; try (simpl; lia).
  apply forall_app_one; [exact Hall | reflexivity].
Qed.

Lemma alloc_step_left w v0 st st' :
  at_head v0 st -> for_lt_step 200 (alloc_body w) st = Break st' -> once_left v0 st'.
Proof.
  destruct st as [i v], st' as [i' v'].
  intros (Hi & Htot & tr & Htr & Hall & Hreq & Hgr & Ht & Hc) Hstep.
  unfold for_lt_step in Hstep.
  destruct (Z.ltb_spec i 200) as [_|Hge]; [|lia].
  destruct (alloc_body_spec w i v Hi Hc Ht)
    as (v1 & evs & Hb & Htr1 & Hreq1 & Hgr1 & Hc1 & Ht1).
  rewrite Hb in Hstep.
  assert (Hv : v' = v1).
  { destruct (chunk_malloc w i);
      [destruct (500 * 1024 * 1024 <? 5 * 1024 * 1024 * (i + 1))|];
      congruence. }
  subst v'.
  assert (Hbound : chunk_malloc w i = true -> i + 1 <= 101) by lia.
  exists (tr ++ evs). rewrite Htr1, Htr, <- app_assoc, requests_app, granted_app,
    Hreq1, Hgr1, !length_app, Hreq, Hgr.
  destruct (chunk_malloc w i); repeat split; try (simpl; lia);
    apply forall_app_one; (exact Hall || reflexivity).
Qed.

Lemma alloc_at_head_entry v0 :
  allocated_chunks v0 = 0 -> total_allocated v0 = 0 -> at_head v0 (0, v0).
Proof.
  intros Hc Ht. split; [lia|]. split; [lia|].
  exists []. rewrite app_nil_r. repeat split; try assumption; try (simpl; lia).
  constructor.
Qed.

Lemma alloc_at_head_facts v0 i v : at_head v0 (i, v) -> loop_facts v0 v.
Proof.
  intros (Hi & Htot & tr & Htr & Hall & Hreq & Hgr & Ht & Hc).
  exists tr. repeat split; try assumption; lia.
Qed.

Lemma alloc_once_left_facts v0 i v : once_left v0 (i, v) -> loop_facts v0 v.
Proof.
  intros (tr & Htr & Hall & Hreq & Ht & Hc & Hmax).
  exists tr. repeat split; try assumption; lia.
Qed.

(** Where the loop stands after [k] passes. *)
Lemma alloc_loop_invariant w v0 k :
  allocated_chunks v0 = 0 -> total_allocated v0 = 0 ->
  match after k (for_lt_step 200 (alloc_body w)) (0, v0) with
  | Continue st => at_head v0 st
  | Break st => once_left v0 st
  end.
Proof.
  intros Hc Ht.
  apply (after_invariant (at_head v0) (once_left v0)).
  - intros s s'. apply alloc_step_head.
  - intros s s'. apply alloc_step_left.
  - apply alloc_at_head_entry; assumption.
Qed.

(** From the head of the loop, a refused request or a total above the
    ceiling ends the loop in this very pass. *)
Lemma alloc_loop_exit w v0 i v :
  at_head v0 (i, v) ->
  chunk_malloc w i = false \/ 500 * 1024 * 1024 < total_allocated v + 5 * 1024 * 1024 ->
  exists st, for_lt_step 200 (alloc_body w) (i, v) = Break st.
Proof.
  intros (Hi & Htot & tr & Htr & Hall & Hreq & Hgr & Ht & Hc) Hcond.
  unfold for_lt_step.
  destruct (Z.ltb_spec i 200) as [_|Hge]; [|eexists; reflexivity].
  destruct (alloc_body_spec w i v Hi Hc Ht) as (v1 & evs & -> & _).
  destruct (chunk_malloc w i).
  - destruct (Z.ltb_spec (500 * 1024 * 1024) (5 * 1024 * 1024 * (i + 1))) as [Hover|Hfits];
      [eexists; reflexivity|].
    destruct Hcond as [Hno|Hover]; [discriminate Hno | lia].
  - eexists; reflexivity.
Qed.
(** Every granted request is a request. *)
Lemma granted_among_requests (P : Z -> Prop) tr :
  Forall P (requests tr) -> Forall P (granted tr).
Proof.
  induction tr as [|e tr IH]; intros H; [constructor|].
  destruct e as [s|size [|]|size| |usec]; cbn in *; try (apply IH, H).
  - inversion H; subst. constructor; [assumption | apply IH; assumption].
  - inversion H; subst. apply IH; assumption.
Qed.

Lemma all_chunks (l : list Z) (n : nat) :
  Forall (fun size => size = 5 * 1024 * 1024) l -> length l = n ->
  l = replicate n (5 * 1024 * 1024).
Proof.
  intros Hall Hlen. symmetry. apply replicate_as_Forall. split; [exact Hlen|].
  eapply Forall_impl; [exact Hall|]. intros x ->. reflexivity.
Qed.

(** The pass from the head of the loop, in full: one more request of 5 MB;
    the counters grow exactly when it is granted; and the loop goes on
    exactly when it is granted and the total does not exceed 500 MB. *)
Lemma alloc_pass w v0 i v :
  at_head v0 (i, v) ->
  exists v',
    for_lt_step 200 (alloc_body w) (i, v)
      = (if chunk_malloc w i && (total_allocated v' <=? 500 * 1024 * 1024)
         then Continue (i + 1, v') else Break (i, v')) /\
    requests (trace v') = requests (trace v) ++ [5 * 1024 * 1024] /\
    granted (trace v')
      = granted (trace v) ++ (if chunk_malloc w i then [5 * 1024 * 1024] else []) /\
    allocated_chunks v' = allocated_chunks v + (if chunk_malloc w i then 1 else 0) /\
    total_allocated v'
      = total_allocated v + (if chunk_malloc w i then 5 * 1024 * 1024 else 0).
Proof.
  intros (Hi & Htot & tr & Htr & Hall & Hreq & Hgr & Ht & Hc).
  destruct (alloc_body_spec w i v Hi Hc Ht)
    as (v1 & evs & Hb & Htr1 & Hreq1 & Hgr1 & Hc1 & Ht1).
  exists v1. unfold for_lt_step.
  destruct (Z.ltb_spec i 200) as [_|?]; [|lia].
  rewrite Hb, Htr1, requests_app, granted_app, Hreq1, Hgr1, Hc1, Ht1, Hc, Ht.
  destruct (chunk_malloc w i); cbn [andb].
  - destruct (Z.ltb_spec (500 * 1024 * 1024) (5 * 1024 * 1024 * (i + 1)));
      destruct (Z.leb_spec (5 * 1024 * 1024 * (i + 1)) (500 * 1024 * 1024)); try lia;
      rewrite ?wrap_int_id by (unfold INT_MIN, INT_MAX; lia);
      repeat split; lia.
  - repeat split; lia.
Qed.


(** While the requests are granted, up to 100 of them, the loop goes on. *)
Lemma alloc_loop_runs w (k : nat) :
  (k <= 100)%nat ->
  (forall j, 0 <= j < Z.of_nat k -> chunk_malloc w j = true) ->
  exists v,
    after k (for_lt_step 200 (alloc_body w)) (0, loop_entry) = Continue (Z.of_nat k, v) /\
    at_head loop_entry (Z.of_nat k, v).
Proof.
  intros Hk Hok. induction k as [|k IH].
  - exists loop_entry. split; [reflexivity|].
    apply alloc_at_head_entry; reflexivity.
  - destruct IH as (v & Hv & Hhead); [lia | intros j Hj; apply Hok; lia |].
    pose proof (alloc_loop_invariant w loop_entry (S k) eq_refl eq_refl) as Hinv.
    rewrite after_succ, Hv in Hinv |- *.
    pose proof Hhead as (Hi & _ & _ & _ & _ & _ & _ & Ht & Hc).
    unfold for_lt_step in Hinv |- *.
    destruct (Z.ltb_spec (Z.of_nat k) 200) as [_|?]; [|lia].
    destruct (alloc_body_spec w (Z.of_nat k) v Hi Hc Ht) as (v1 & evs & Hb & _).
    rewrite Hb, (Hok (Z.of_nat k)) in Hinv |- * by lia.
    destruct (Z.ltb_spec (500 * 1024 * 1024) (5 * 1024 * 1024 * (Z.of_nat k + 1)));
      [lia|].
    rewrite wrap_int_id in Hinv |- * by (unfold INT_MIN, INT_MAX; lia).
    replace (Z.of_nat k + 1) with (Z.of_nat (S k)) in Hinv |- * by lia.
    exists v1. split; [reflexivity | exact Hinv].
Qed.

(** What a pass stores in [ptrs]: the result of its request, in slot [i]. *)
Lemma alloc_body_ptrs w i v :
  ptrs (state_of (alloc_body w i v)) = <[Z.to_nat i := chunk_malloc w i]> (ptrs v).
Proof.
  unfold alloc_body. destruct (chunk_malloc w i); cbn [negb].
  - destruct (_ >? ceiling); reflexivity.
  - reflexivity.
Qed.

Lemma alloc_step_state w i v :
  i < 200 ->
  snd (state_of (for_lt_step 200 (alloc_body w) (i, v))) = state_of (alloc_body w i v).
Proof.
  intros Hi. unfold for_lt_step. destruct (Z.ltb_spec i 200); [|lia].
  destruct (alloc_body w i v); reflexivity.
Qed.

Lemma slots_grow (k : nat) :
  (k < 200)%nat ->
  <[k := true]> (replicate k true ++ replicate (200 - k) false)
  = replicate (S k) true ++ replicate (200 - S k) false.
Proof.
  intros Hk. rewrite insert_app_r_alt by (rewrite length_replicate; lia).
  rewrite length_replicate, Nat.sub_diag.
  replace (200 - k)%nat with (S (200 - S k)) by lia.
  rewrite (replicate_S_end k true), <- app_assoc. reflexivity.
Qed.

(** While the requests are granted, the slots are filled from slot 0 on,
    and the others are as they were. *)
Lemma alloc_loop_ptrs w (k : nat) v :
  (k <= 100)%nat ->
  (forall j, 0 <= j < Z.of_nat k -> chunk_malloc w j = true) ->
  after k (for_lt_step 200 (alloc_body w)) (0, loop_entry) = Continue (Z.of_nat k, v) ->
  ptrs v = replicate k true ++ replicate (200 - k) false.
Proof.
  revert v. induction k as [|k IH]; intros v Hk Hok Hafter.
  - injection Hafter as <-. reflexivity.
  - destruct (alloc_loop_runs w k) as (v0 & Hv0 & _); [lia | intros j Hj; apply Hok; lia |].
    rewrite after_succ, Hv0 in Hafter.
    apply (f_equal (fun r => snd (state_of r))) in Hafter.
    rewrite alloc_step_state in Hafter by lia. cbn [state_of snd] in Hafter. subst v.
    rewrite alloc_body_ptrs, (IH v0), Nat2Z.id, (Hok (Z.of_nat k)) by
      (try lia; try exact Hv0; intros j Hj; apply Hok; lia).
    apply slots_grow. lia.
Qed.

(** The pass after them decides how the loop is left. *)
Lemma alloc_loop_last_pass w (k : nat) fuel :
  (k <= 100)%nat -> (k < fuel)%nat ->
  (forall j, 0 <= j < Z.of_nat k -> chunk_malloc w j = true) ->
  chunk_malloc w (Z.of_nat k) = false \/ (k = 100%nat /\ chunk_malloc w (Z.of_nat k) = true) ->
  exists v,
    for_lt fuel 0 200 (alloc_body w) loop_entry = Some v /\
    allocated_chunks v = (if chunk_malloc w (Z.of_nat k) then 101 else Z.of_nat k) /\
    total_allocated v = 5 * 1024 * 1024 * allocated_chunks v /\
    ptrs v = <[k := chunk_malloc w (Z.of_nat k)]>
               (replicate k true ++ replicate (200 - k) false).
Proof.
  intros Hk Hfuel Hok Hlast.
  destruct (alloc_loop_runs w k Hk Hok) as (v & Hv & Hhead).
  pose proof (alloc_loop_ptrs w k v Hk Hok Hv) as Hptrs.
  pose proof Hhead as (Hi & _ & _ & _ & _ & _ & _ & Ht & Hc).
  destruct (alloc_body_spec w (Z.of_nat k) v Hi Hc Ht)
    as (v1 & evs & Hb & _ & _ & _ & Hc1 & Ht1).
  assert (Hrun : after (S k) (for_lt_step 200 (alloc_body w)) (0, loop_entry)
                 = Break (Z.of_nat k, v1)).
  { rewrite after_succ, Hv. unfold for_lt_step.
    destruct (Z.ltb_spec (Z.of_nat k) 200) as [_|?]; [|lia].
    rewrite Hb. destruct Hlast as [->|[Hk100 ->]]; [reflexivity|].
    destruct (Z.ltb_spec (500 * 1024 * 1024) (5 * 1024 * 1024 * (Z.of_nat k + 1)));
      [reflexivity | lia]. }
  apply (after_break_stable _ fuel) in Hrun; [|lia].
  apply while_true_after in Hrun.
  assert (Hv1 : v1 = state_of (alloc_body w (Z.of_nat k) v)).
  { rewrite Hb. destruct Hlast as [->|[Hk100 ->]]; [reflexivity|].
    destruct (_ <? _); reflexivity. }
  exists v1. unfold for_lt. rewrite Hrun. split; [reflexivity|].
  split; [|split].
  - rewrite Hc1. destruct Hlast as [->|[Hk100 ->]]; lia.
  - rewrite Ht1, Hc1. destruct Hlast as [->|[Hk100 ->]]; lia.
  - rewrite Hv1, alloc_body_ptrs, Hptrs, Nat2Z.id. reflexivity.
Qed.
End MemoryProofs.

(** C3: the progressive-allocation loop of memory.c.  At any point of it,
    every chunk requested so far was of exactly 5 MB (5*1024*1024 bytes),
    [total_allocated] is exactly 5 MB per granted chunk, at most 200
    requests were made and [total_allocated] is at most 505 MB.  As long as
    the first [k] requests are granted, [k] up to 100, the loop is still
    running after [k] passes: it has made exactly [k] requests of 5 MB each
    and holds [k] times 5 MB.  The pass that follows makes one more request
    of 5 MB, adds 5 MB to [total_allocated] and 1 to [allocated_chunks]
    exactly when the request is granted, and leaves the loop exactly when
    [malloc] returns NULL or [total_allocated] has come to exceed 500 MB.
    Whatever the environment, a pass whose request is refused or brings the
    total above 500 MB leaves the loop, and after 200 passes it has been
    left. *)
Theorem memory_progressive_allocation (w : Memory.world) (k : nat) :
  Memory.loop_facts Memory.loop_entry
    (snd (state_of (after k (for_lt_step 200 (Memory.alloc_body w)) (0, Memory.loop_entry)))) /\
  ((k <= 100)%nat ->
   (forall j, 0 <= j < Z.of_nat k -> Memory.chunk_malloc w j = true) ->
   exists v tr,
     after k (for_lt_step 200 (Memory.alloc_body w)) (0, Memory.loop_entry)
       = Continue (Z.of_nat k, v) /\
     Memory.trace v = Memory.trace Memory.loop_entry ++ tr /\
     Memory.requests tr = replicate k (5 * 1024 * 1024) /\
     Memory.granted tr = replicate k (5 * 1024 * 1024) /\
     Memory.allocated_chunks v = Z.of_nat k /\
     Memory.total_allocated v = 5 * 1024 * 1024 * Z.of_nat k /\
     exists v',
       after (S k) (for_lt_step 200 (Memory.alloc_body w)) (0, Memory.loop_entry)
         = (if Memory.chunk_malloc w (Z.of_nat k)
               && (Memory.total_allocated v' <=? 500 * 1024 * 1024)
            then Continue (Z.of_nat k + 1, v') else Break (Z.of_nat k, v')) /\
       Memory.requests (Memory.trace v')
         = Memory.requests (Memory.trace v) ++ [5 * 1024 * 1024] /\
       Memory.allocated_chunks v'
         = Memory.allocated_chunks v + (if Memory.chunk_malloc w (Z.of_nat k) then 1 else 0) /\
       Memory.total_allocated v'
         = Memory.total_allocated v
           + (if Memory.chunk_malloc w (Z.of_nat k) then 5 * 1024 * 1024 else 0)) /\
  (forall i v,
     after k (for_lt_step 200 (Memory.alloc_body w)) (0, Memory.loop_entry) = Continue (i, v) ->
     Memory.chunk_malloc w i = false \/
       500 * 1024 * 1024 < Memory.total_allocated v + 5 * 1024 * 1024 ->
     exists st,
       after (S k) (for_lt_step 200 (Memory.alloc_body w)) (0, Memory.loop_entry) = Break st) /\
  (exists st,
     after 200 (for_lt_step 200 (Memory.alloc_body w)) (0, Memory.loop_entry) = Break st).
Proof.
  pose proof (alloc_loop_invariant w Memory.loop_entry k eq_refl eq_refl) as Hinv.
  split; [|split; [|split]].
  - destruct (after k _ _) as [[i v]|[i v]]; cbn [state_of snd].
    + eapply alloc_at_head_facts. exact Hinv.
    + eapply alloc_once_left_facts. exact Hinv.
  - intros Hk Hok.
    destruct (alloc_loop_runs w k Hk Hok) as (v & Hv & Hhead).
    pose proof Hhead as (Hi & Htot & tr & Htr & Hall & Hreq & Hgr & Ht & Hc).
    rewrite Nat2Z.id in Hreq, Hgr.
    exists v, tr. split; [exact Hv|]. split; [exact Htr|].
    split; [apply all_chunks; assumption|].
    split; [apply all_chunks; [apply granted_among_requests|]; assumption|].
    split; [exact Hc|]. split; [exact Ht|].
    destruct (alloc_pass w Memory.loop_entry (Z.of_nat k) v Hhead)
      as (v' & Hstep & Hreq' & _ & Hc' & Ht').
    exists v'. rewrite after_succ, Hv.
    split; [exact Hstep|]. split; [exact Hreq'|]. split; [exact Hc'|exact Ht'].
  - intros i v Hk Hcond. rewrite after_succ, Hk. rewrite Hk in Hinv.
    apply (alloc_loop_exit w _ i v Hinv Hcond).
  - destruct (after 101 (for_lt_step 200 (Memory.alloc_body w)) (0, Memory.loop_entry))
      as [[i v]|st] eqn:E.
    + pose proof (alloc_loop_invariant w Memory.loop_entry 101 eq_refl eq_refl) as H101.
      rewrite E in H101. destruct H101 as (Hi & _).
      apply for_lt_counter in E; [lia | unfold INT_MIN, INT_MAX; lia..].
    + exists st. apply (after_break_stable 101); [exact E | lia].
Qed.

Lemma memory_progressive_allocation_witness :
  Memory.loop_facts Memory.loop_entry
    (snd (state_of (after 2 (for_lt_step 200 (Memory.alloc_body Memory.capped))
                         (0, Memory.loop_entry)))) /\
  (exists v v',
     after 2 (for_lt_step 200 (Memory.alloc_body Memory.capped)) (0, Memory.loop_entry)
       = Continue (2, v) /\
     Memory.total_allocated v = 10 * 1024 * 1024 /\
     after 3 (for_lt_step 200 (Memory.alloc_body Memory.capped)) (0, Memory.loop_entry)
       = Break (2, v') /\
     Memory.total_allocated v' = 10 * 1024 * 1024) /\
  exists st,
    after 3 (for_lt_step 200 (Memory.alloc_body Memory.capped)) (0, Memory.loop_entry)
      = Break st.
Proof.
  destruct (memory_progressive_allocation Memory.capped 2) as (Hfacts & Hrun & Hexit & _).
  split; [exact Hfacts|].
  destruct Hrun as (v & tr & Hv & _ & _ & _ & _ & Ht & v' & Hv' & _ & _ & Ht').
  { lia. }
  { intros j Hj. assert (j = 0 \/ j = 1) as [-> | ->] by lia; reflexivity. }
  split.
  - exists v, v'. split; [exact Hv|]. split; [exact Ht|]. split; [exact Hv'|].
    rewrite Ht', Ht. reflexivity.
  - apply (Hexit 2 v Hv). left. reflexivity.
Defined.

(** ** fork.c *)

Section ForkProofs.
Import Fork.

Lemma forks_app tr1 tr2 : forks (tr1 ++ tr2) = forks tr1 ++ forks tr2.
Proof. apply omap_app. Qed.

Lemma stores_app tr1 tr2 : stores (tr1 ++ tr2) = stores tr1 ++ stores tr2.
Proof. apply omap_app. Qed.

Lemma filter_all {A} (p : A -> bool) l :
  Forall (fun x => p x = true) l -> List.filter p l = l.
Proof.
  induction 1 as [|x l Hx _ IH]; simpl; [reflexivity|]. rewrite Hx, IH. reflexivity.
Qed.

Lemma created_not_failed ret : created ret = true -> negb (failed ret) = true.
Proof. unfold created, failed. intros H. apply andb_prop in H as [H _]. exact H. Qed.

Lemma created_cases ret :
  (ret = -1 /\ created ret = false /\ failed ret = true) \/
  (ret = 0 /\ created ret = false /\ failed ret = false) \/
  (ret <> -1 /\ ret <> 0 /\ created ret = true /\ failed ret = false).
Proof.
  unfold created, failed.
  destruct (Z.eqb_spec ret (-1)) as [->|H1]; [left; repeat split; reflexivity|].
  destruct (Z.eqb_spec ret 0) as [->|H0]; [right; left; repeat split; reflexivity|].
  right; right. repeat split; assumption.
Qed.

(** What one pass of the loop body does to the variables. *)
Lemma fork_body_spec w i v :
  0 <= i < 50 -> created_count v = i ->
  exists v' evs,
    fork_body w i v
      = (if created (loop_fork w i) then Continue v' else Break v') /\
    trace v' = trace v ++ evs /\
    forks evs = [loop_fork w i] /\
    stores evs = (if created (loop_fork w i) then [i] else []) /\
    created_count v' = (if created (loop_fork w i) then i + 1 else i) /\
    exited v' = (if loop_fork w i =? 0 then Some i else exited v).
Proof.
  intros Hi Hc. unfold fork_body.
  destruct (created_cases (loop_fork w i)) as [(E & Hcr & _)|[(E & Hcr & _)|(E1 & E0 & Hcr & _)]];
    rewrite Hcr.
  - rewrite E. cbn [Z.eqb]. unfold printf, emit.
    eexists; eexists; (split; [reflexivity|]). cbn [trace created_count exited].
    split; [rewrite <- ?app_assoc; reflexivity|]. repeat split; assumption.
  - rewrite E. cbn [Z.eqb]. unfold exit, printf, emit.
    eexists; eexists; (split; [reflexivity|]). cbn [trace created_count exited].
    split; [rewrite <- ?app_assoc; reflexivity|]. repeat split; assumption.
  - destruct (Z.eqb_spec (loop_fork w i) (-1)) as [?|_]; [contradiction|].
    destruct (Z.eqb_spec (loop_fork w i) 0) as [?|_]; [contradiction|].
    unfold printf, emit.
    eexists; eexists; (split; [reflexivity|]). cbn [trace created_count exited children].
    split; [rewrite <- ?app_assoc; reflexivity|].
    rewrite Hc, wrap_int_id by (unfold INT_MIN, INT_MAX; lia).
    repeat split; reflexivity.
Qed.

Lemma fork_step_head w v0 st st' :
  at_head v0 st -> for_lt_step max_processes (fork_body w) st = Continue st' ->
  at_head v0 st'.
Proof.
  destruct st as [i v], st' as [i' v'].
  intros (Hi & Hex & Hc & tr & Htr & Hlen & Hall & Hst) Hstep.
  unfold for_lt_step, max_processes in Hstep.
  destruct (Z.ltb_spec i 50) as [Hlt|Hge]; [|discriminate Hstep].
  destruct (fork_body_spec w i v ltac:(lia) Hc)
    as (v1 & evs & Hb & Htr1 & Hf1 & Hs1 & Hc1 & Hex1).
  rewrite Hb in Hstep.
  destruct (created_cases (loop_fork w i)) as [(E & Hcr & _)|[(E & Hcr & _)|(E1 & E0 & Hcr & _)]];
    rewrite Hcr in *; try discriminate Hstep.
  injection Hstep as <- <-.
  rewrite wrap_int_id by (unfold INT_MIN, INT_MAX; lia).
  destruct (Z.eqb_spec (loop_fork w i) 0) as [?|_]; [contradiction|].
  split; [lia|]. split; [congruence|]. split; [exact Hc1|].
  exists (tr ++ evs). rewrite Htr1, Htr, <- app_assoc, forks_app, stores_app, Hf1, Hs1,
    length_app, Hlen.
  repeat split.
  - simpl. lia.
  - apply Forall_app. split; [exact Hall|]. constructor; [exact Hcr | constructor].
  - apply Forall_app. split; [exact Hst|]. constructor; [lia | constructor].
Qed.

Lemma fork_at_head_facts v0 i v : at_head v0 (i, v) -> loop_facts v0 v.
Proof.
  intros (Hi & Hex & Hc & tr & Htr & Hlen & Hall & Hst).
  exists tr. split; [exact Htr|].
  assert (Hnf : Forall (fun ret => negb (failed ret) = true) (forks tr)).
  { eapply Forall_impl; [exact Hall|]. intros ret. apply created_not_failed. }
  rewrite (filter_all _ _ Hall), (filter_all _ _ Hnf), Hlen.
  repeat split; try lia; try assumption.
  intros j ret Hj Hfail.
  rewrite Forall_forall in Hall.
  assert (Hin : ret ∈ forks tr).
  { apply list_elem_of_lookup. exists j. exact Hj. }
  apply Hall in Hin. apply created_not_failed in Hin. rewrite Hfail in Hin. discriminate Hin.
Qed.

Lemma fork_step_left w v0 st st' :
  at_head v0 st -> for_lt_step max_processes (fork_body w) st = Break st' ->
  loop_facts v0 (snd st').
Proof.
  destruct st as [i v], st' as [i' v'].
  intros Hhead Hstep. pose proof Hhead as (Hi & Hex & Hc & tr & Htr & Hlen & Hall & Hst).
  unfold for_lt_step, max_processes in Hstep.
  destruct (Z.ltb_spec i 50) as [Hlt|Hge].
  2:{ injection Hstep as <- <-. eapply fork_at_head_facts. exact Hhead. }
  destruct (fork_body_spec w i v ltac:(lia) Hc)
    as (v1 & evs & Hb & Htr1 & Hf1 & Hs1 & Hc1 & Hex1).
  rewrite Hb in Hstep.
  assert (Hnf : Forall (fun ret => negb (failed ret) = true) (forks tr)).
  { eapply Forall_impl; [exact Hall|]. intros ret. apply created_not_failed. }
  assert (Hlast : forall j ret, (forks tr ++ [loop_fork w i]) !! j = Some ret ->
            failed ret = true -> S j = length (forks tr ++ [loop_fork w i])).
  { intros j ret Hj Hfail. rewrite length_app. simpl.
    destruct (decide (j < length (forks tr))%nat) as [Hjl|Hjl].
    - rewrite lookup_app_l in Hj by exact Hjl.
      rewrite Forall_forall in Hnf.
      assert (Hin : ret ∈ forks tr).
      { apply list_elem_of_lookup. exists j. exact Hj. }
      apply Hnf in Hin. rewrite Hfail in Hin. discriminate Hin.
    - apply lookup_lt_Some in Hj. rewrite length_app in Hj. simpl in Hj. lia. }
  destruct (created_cases (loop_fork w i))
    as [(E & Hcr & Hfl)|[(E & Hcr & Hfl)|(E1 & E0 & Hcr & Hfl)]];
    rewrite Hcr in *; try discriminate Hstep;
    injection Hstep as <- <-; cbn [snd];
    exists (tr ++ evs); rewrite Htr1, Htr, <- app_assoc, forks_app, stores_app, Hf1, Hs1,
      !List.filter_app, (filter_all _ _ Hall), (filter_all _ _ Hnf), !length_app, Hlen;
    cbn [List.filter]; rewrite Hcr, Hfl; cbn [negb length]; rewrite app_nil_r.
  - repeat split; try lia; try assumption.
    intros j ret Hj Hf. rewrite (Hlast j ret Hj Hf), length_app, Hlen. reflexivity.
  - repeat split; try lia; try assumption.
    + intros j ret Hj Hf. rewrite (Hlast j ret Hj Hf), length_app, Hlen. reflexivity.
    + rewrite Hex1, E. cbn [Z.eqb]. discriminate.
Qed.

(** Where the loop stands after [k] passes. *)
Lemma fork_loop_invariant w v0 k :
  created_count v0 = 0 -> exited v0 = None ->
  match after k (for_lt_step max_processes (fork_body w)) (0, v0) with
  | Continue st => at_head v0 st
  | Break st => loop_facts v0 (snd st)
  end.
Proof.
  intros Hc Hex.
  apply (after_invariant (at_head v0) (fun st => loop_facts v0 (snd st))).
  - intros s s'. apply fork_step_head.
  - intros s s'. apply fork_step_left.
  - split; [lia|]. split; [exact Hex|]. split; [exact Hc|].
    exists []. rewrite app_nil_r. repeat split; constructor.
Qed.

Lemma loop_entry_running w :
  first_fork w <> 0 -> created_count (loop_entry w) = 0 /\ exited (loop_entry w) = None.
Proof.
  intros Hf. unfold loop_entry, basic_fork.
  destruct (first_fork w =? -1); [split; reflexivity|].
  destruct (Z.eqb_spec (first_fork w) 0) as [?|_]; [contradiction|].
  split; reflexivity.
Qed.

(** From the head of the loop, a failed fork ends the loop in this pass. *)
Lemma fork_loop_exit w v0 i v :
  at_head v0 (i, v) -> failed (loop_fork w i) = true ->
  exists st, for_lt_step max_processes (fork_body w) (i, v) = Break st.
Proof.
  intros (Hi & Hex & Hc & _) Hfail. unfold for_lt_step, max_processes.
  destruct (Z.ltb_spec i 50) as [Hlt|_]; [|eexists; reflexivity].
  destruct (fork_body_spec w i v ltac:(lia) Hc) as (v1 & evs & -> & _).
  destruct (created_cases (loop_fork w i))
    as [(E & -> & _)|[(E & -> & _)|(E1 & E0 & _ & Hfl)]].
  - eexists; reflexivity.
  - eexists; reflexivity.
  - rewrite Hfl in Hfail. discriminate Hfail.
Qed.
End ForkProofs.

(** C4: at any point of the multi-fork loop of fork.c (entered by the
    process the basic fork test left running), at most 50 forks were
    attempted, a failed fork is the last attempt, [created_count] is the
    number of forks that succeeded so far and at most 50, and every write
    [children[created_count]] was at an index from 0 to 49; the loop is left
    in the pass whose fork fails, and after 51 passes it has been left. *)
Theorem fork_loop_bounded (w : Fork.world) (k : nat) :
  Fork.first_fork w <> 0 ->
  Fork.loop_facts (Fork.loop_entry w)
    (snd (state_of (after k (for_lt_step Fork.max_processes (Fork.fork_body w))
                          (0, Fork.loop_entry w)))) /\
  (forall i v,
     after k (for_lt_step Fork.max_processes (Fork.fork_body w)) (0, Fork.loop_entry w)
       = Continue (i, v) ->
     Fork.failed (Fork.loop_fork w i) = true ->
     exists st,
       after (S k) (for_lt_step Fork.max_processes (Fork.fork_body w)) (0, Fork.loop_entry w)
         = Break st) /\
  (exists st,
     after 51 (for_lt_step Fork.max_processes (Fork.fork_body w)) (0, Fork.loop_entry w)
       = Break st).
Proof.
  intros Hf. destruct (loop_entry_running w Hf) as [Hc Hex].
  pose proof (fork_loop_invariant w (Fork.loop_entry w) k Hc Hex) as Hinv.
  split; [|split].
  - destruct (after k _ _) as [[i v]|[i v]]; cbn [state_of snd].
    + eapply fork_at_head_facts. exact Hinv.
    + exact Hinv.
  - intros i v Hk Hfail. rewrite after_succ, Hk. rewrite Hk in Hinv.
    apply (fork_loop_exit w _ i v Hinv Hfail).
  - apply for_lt_left; unfold Fork.max_processes, INT_MIN, INT_MAX; lia.
Qed.

Lemma fork_loop_bounded_witness :
  Fork.loop_facts (Fork.loop_entry Fork.two_children)
    (snd (state_of (after 2 (for_lt_step Fork.max_processes (Fork.fork_body Fork.two_children))
                          (0, Fork.loop_entry Fork.two_children)))) /\
  exists st,
    after 3 (for_lt_step Fork.max_processes (Fork.fork_body Fork.two_children))
          (0, Fork.loop_entry Fork.two_children)
      = Break st.
Proof.
  assert (Hf : Fork.first_fork Fork.two_children <> 0) by (vm_compute; discriminate).
  destruct (fork_loop_bounded Fork.two_children 2 Hf) as (Hfacts & Hexit & _).
  split; [exact Hfacts|].
  let c := eval vm_compute in
      (after 2 (for_lt_step Fork.max_processes (Fork.fork_body Fork.two_children))
             (0, Fork.loop_entry Fork.two_children)) in
  match c with
  | Continue (?i, ?v) => apply (Hexit i v)
  end.
  - vm_compute. reflexivity.
  - reflexivity.
Defined.


(** ** syscalls.c *)

Section SyscallsProofs.
Import Syscalls.

(** Each part only appends to the trace it is given. *)
Lemma system_part_appends w tr :
  system_part w tr = (fst (system_part w []), tr ++ snd (system_part w [])).
Proof.
  unfold system_part. destruct (system_ret w =? 0);
    cbn [fst snd app]; rewrite <- ?app_assoc; reflexivity.
Qed.

Lemma exec_part_appends w tr :
  exec_part w tr = (fst (exec_part w []), tr ++ snd (exec_part w [])).
Proof.
  unfold exec_part.
  destruct (fork_exec w =? 0), (fork_exec w >? 0), (execl_returns w),
    (WIFEXITED (child_status w) && (WEXITSTATUS (child_status w) =? 0));
    cbn [fst snd app]; rewrite <- ?app_assoc; try reflexivity;
    match goal with
    | |- system_part w ?t = _ =>
        rewrite (system_part_appends w t);
        try match goal with
            | |- context [system_part w (?x :: ?l)] =>
                rewrite (system_part_appends w (x :: l))
            end;
        cbn [fst snd app]; rewrite <- ?app_assoc; reflexivity
    end.
Qed.

Lemma fork_part_appends w tr :
  fork_part w tr = (fst (fork_part w []), tr ++ snd (fork_part w [])).
Proof.
  unfold fork_part.
  destruct (fork_test w =? -1), (fork_test w =? 0);
    cbn [fst snd app]; rewrite <- ?app_assoc; try reflexivity;
    match goal with
    | |- exec_part w ?t = _ =>
        rewrite (exec_part_appends w t);
        match goal with
        | |- context [exec_part w (?x :: ?l)] =>
            rewrite (exec_part_appends w (x :: l))
        end;
        cbn [fst snd app]; rewrite <- ?app_assoc; reflexivity
    end.
Qed.

(** The dangerous part only appends to the trace it is given. *)
Lemma dangerous_part_appends w tr :
  dangerous_part w tr = (fst (dangerous_part w []), tr ++ snd (dangerous_part w [])).
Proof.
  unfold dangerous_part.
  destruct (chmod_ret w =? 0); cbn [app];
    match goal with
    | |- fork_part w ?t = _ =>
        rewrite (fork_part_appends w t);
        match goal with
        | |- context [fork_part w (?x :: ?l)] =>
            rewrite (fork_part_appends w (x :: l))
        end;
        cbn [fst snd app]; rewrite <- ?app_assoc; reflexivity
    end.
Qed.

Lemma dangerous_trace_alone w : dangerous_trace w = snd (dangerous_part w []).
Proof.
  unfold dangerous_trace, main. rewrite dangerous_part_appends.
  cbn [snd]. apply drop_app_length.
Qed.

Lemma main_ending w : fst (main w) = fst (dangerous_part w []).
Proof. unfold main. rewrite dangerous_part_appends. reflexivity. Qed.
End SyscallsProofs.

(** The lines of the probe, taken as given. *)
Ltac abstract_lines :=
  repeat match goal with
         | |- context [line ?s] => let l := fresh "l" in set (l := line s); clearbody l
         end.

(** The cases of the environment that decide the run of the probe; those
    that contradict a hypothesis are closed at once. *)
Ltac syscalls_cases w :=
  destruct (Z.eqb_spec (Syscalls.fork_test w) (-1));
  destruct (Z.eqb_spec (Syscalls.fork_test w) 0); try lia;
  destruct (Z.eqb_spec (Syscalls.fork_exec w) 0); try lia;
  destruct (Z.gtb_spec (Syscalls.fork_exec w) 0); try lia;
  destruct (Syscalls.chmod_ret w =? 0);
  destruct (Syscalls.execl_returns w);
  destruct (Syscalls.WIFEXITED (Syscalls.child_status w)
            && (Syscalls.WEXITSTATUS (Syscalls.child_status w) =? 0));
  destruct (Syscalls.system_ret w =? 0).

(** C5, as stated, fails: where every call is refused, the probe attempts
    [fork], which is not in the set {chmod, exec*, system}, and reports it
    blocked, while it never attempts [execl]. *)
Lemma syscalls_probe_exercises_fork :
  In Syscalls.ForkOp (Syscalls.calls (Syscalls.dangerous_trace Syscalls.locked_down)) /\
  ~ In Syscalls.ForkOp Syscalls.named_set /\
  In (line "✓ fork() blocked: Operation not permitted")
     (Syscalls.printed (Syscalls.dangerous_trace Syscalls.locked_down)) /\
  Syscalls.times Syscalls.Execl (Syscalls.dangerous_trace Syscalls.locked_down) = 0%nat.
Proof.
  rewrite dangerous_trace_alone. vm_compute. repeat split.
  - right; left; reflexivity.
  - intros [H|[H|[H|[]]]]; discriminate H.
  - right; left; reflexivity.
Qed.

(** C5, amended: the dangerous-operation part of the syscalls probe
    exercises chmod, fork, exec and system.  The process first makes one
    chmod attempt and one fork attempt and prints one line for each (a
    blocked line with the error string when the call failed, a warning line
    when it succeeded); the child of that fork exits with status 0 there.
    Every other process forks a second time.  The child of the second fork
    makes the one execl attempt and, when execl comes back, prints a
    blocked line with the error string and exits with status 1.  The parent
    of the second fork prints one execl line decided by the child's exit
    status, then makes one system attempt, prints one line for it (warning
    when it returned 0, blocked-or-failed otherwise) and exits with status
    0.  When the second fork fails, the process prints no line for it,
    attempts no execl, makes the one system attempt, prints its line and
    exits with status 0. *)
Theorem syscalls_probe_operations (w : Syscalls.world) :
  (exists rest lines,
     Syscalls.calls (Syscalls.dangerous_trace w)
       = Syscalls.Chmod :: Syscalls.ForkOp :: rest /\
     Syscalls.printed (Syscalls.dangerous_trace w)
       = Syscalls.chmod_line w :: Syscalls.fork_line w :: lines) /\
  (Syscalls.fork_test w = 0 ->
     Syscalls.main w
       = (Syscalls.Exited 0,
          Syscalls.preamble w ++
            [Syscalls.Call Syscalls.Chmod; Syscalls.Print (Syscalls.chmod_line w);
             Syscalls.Call Syscalls.ForkOp; Syscalls.Print (Syscalls.fork_line w)])) /\
  (Syscalls.fork_test w <> 0 -> Syscalls.fork_exec w = 0 ->
     fst (Syscalls.main w)
       = (if Syscalls.execl_returns w then Syscalls.Exited 1
          else Syscalls.Replaced "/bin/echo") /\
     Syscalls.probes (Syscalls.dangerous_trace w)
       = [Syscalls.Chmod; Syscalls.ForkOp; Syscalls.ForkOp; Syscalls.Execl] /\
     Syscalls.printed (Syscalls.dangerous_trace w)
       = [Syscalls.chmod_line w; Syscalls.fork_line w]
           ++ (if Syscalls.execl_returns w then [Syscalls.exec_child_line w] else [])) /\
  (Syscalls.fork_test w <> 0 -> 0 < Syscalls.fork_exec w ->
     fst (Syscalls.main w) = Syscalls.Exited 0 /\
     Syscalls.probes (Syscalls.dangerous_trace w)
       = [Syscalls.Chmod; Syscalls.ForkOp; Syscalls.ForkOp; Syscalls.System] /\
     Syscalls.printed (Syscalls.dangerous_trace w)
       = [Syscalls.chmod_line w; Syscalls.fork_line w;
          Syscalls.exec_parent_line w; Syscalls.system_line w]) /\
  (Syscalls.fork_test w <> 0 -> Syscalls.fork_exec w < 0 ->
     fst (Syscalls.main w) = Syscalls.Exited 0 /\
     Syscalls.probes (Syscalls.dangerous_trace w)
       = [Syscalls.Chmod; Syscalls.ForkOp; Syscalls.ForkOp; Syscalls.System] /\
     Syscalls.printed (Syscalls.dangerous_trace w)
       = [Syscalls.chmod_line w; Syscalls.fork_line w; Syscalls.system_line w]).
Proof.
  rewrite main_ending, dangerous_trace_alone.
  unfold Syscalls.main. rewrite (dangerous_part_appends w (Syscalls.preamble w)).
  unfold Syscalls.dangerous_part, Syscalls.fork_part, Syscalls.exec_part,
    Syscalls.system_part, Syscalls.chmod_line, Syscalls.fork_line,
    Syscalls.exec_child_line, Syscalls.exec_parent_line, Syscalls.system_line.
  abstract_lines.
  split; [|split; [|split; [|split]]].
  - syscalls_cases w; do 2 eexists; split; reflexivity.
  - intros H. syscalls_cases w; reflexivity.
  - intros H1 H2. syscalls_cases w; repeat split; reflexivity.
  - intros H1 H2. syscalls_cases w; repeat split; reflexivity.
  - intros H1 H2. syscalls_cases w; repeat split; reflexivity.
Qed.

(** ** Memory-limit-exceeded fixtures *)

Section MleProofs.
Import Mle.

Lemma src_size_succ k : src_size (S k) = src_size k * 2.
Proof. unfold src_size. rewrite Nat2Z.inj_succ, Z.pow_succ_r by lia. lia. Qed.

Lemma src_size_pos k : 0 < src_size k.
Proof. unfold src_size. apply Z.pow_pos_nonneg; lia. Qed.

Lemma src_size_mono j k : (j <= k)%nat -> src_size j <= src_size k.
Proof. intros H. unfold src_size. apply Z.pow_le_mono_r; lia. Qed.

Lemma src_size_30 : src_size 30 = 1073741824.
Proof. reflexivity. Qed.

Lemma src_size_63 : src_size 63 = 9223372036854775808.
Proof. reflexivity. Qed.

(** While the allocations succeed, the first fixture doubles [size]. *)
Lemma src_doubles w n :
  (n <= 30)%nat ->
  (forall j, (j < n)%nat ->
     new_vector w (src_size j) = Allocated /\ push_back w (src_size j) = Allocated) ->
  after n (src_body w) (1, None) = Continue (src_size n, None).
Proof.
  intros Hn Hok. induction n as [|n IH]; [reflexivity|].
  rewrite after_succ, IH by (try lia; intros j Hj; apply Hok; lia).
  unfold src_body. cbn [fst].
  destruct (Hok n ltac:(lia)) as [-> ->].
  rewrite <- src_size_succ.
  pose proof (src_size_pos (S n)). pose proof (src_size_mono (S n) 30 Hn) as Hle.
  rewrite src_size_30 in Hle.
  unfold fits_int.
  destruct (Z.leb_spec INT_MIN (src_size (S n))); [|unfold INT_MIN in *; lia].
  destruct (Z.leb_spec (src_size (S n)) INT_MAX); [|unfold INT_MAX in *; lia].
  destruct (Z.leb_spec (src_size (S n)) 0); [lia|reflexivity].
Qed.

(** While the allocations succeed, the second fixture doubles [size]. *)
Lemma tests_doubles w n :
  (n <= 63)%nat ->
  (forall j, (j < n)%nat -> new_vector w (src_size j) = Allocated) ->
  after n (tests_body w) (1, [], None) = Continue (src_size n, [], None).
Proof.
  intros Hn Hok. induction n as [|n IH]; [reflexivity|].
  rewrite after_succ, IH by (try lia; intros j Hj; apply Hok; lia).
  unfold tests_body. rewrite (Hok n) by lia.
  rewrite <- src_size_succ.
  pose proof (src_size_pos (S n)). pose proof (src_size_mono (S n) 63 Hn) as Hle.
  rewrite src_size_63 in Hle.
  rewrite wrap_size_t_id by lia. reflexivity.
Qed.

End MleProofs.

(** C6: in each memory-limit-exceeded fixture, when the allocations of
    iteration [k] are the first to fail and fail with [bad_alloc], the
    program catches the exception, prints one line that contains
    "Memory allocation failed", and returns exit status 0.  (In the first
    fixture [size *= 2] stays within [int] up to iteration 30; the second
    keeps a non-zero size up to iteration 63.) *)
Theorem mle_graceful_failure (w : Mle.world) (k fuel : nat) :
  (k < fuel)%nat ->
  ((k <= 30)%nat -> Mle.src_fails_at w k ->
     exists l, Mle.main_src fuel w = Some (Mle.Exited 0, [l]) /\
               Mle.contains "Memory allocation failed" l) /\
  ((k <= 63)%nat -> Mle.tests_fails_at w k ->
     exists l, Mle.main_tests fuel w = Some (Mle.Exited 0, [l]) /\
               Mle.contains "Memory allocation failed" l).
Proof.
  intros Hfuel. split.
  - intros Hk [Hok Hfail].
    assert (Hrun : after (S k) (Mle.src_body w) (1, None)
                   = Break (Mle.src_size k, Some (Mle.Raising Mle.bad_alloc))).
    { rewrite after_succ, (src_doubles w k Hk Hok). unfold Mle.src_body. cbn [fst].
      destruct Hfail as [->|[-> ->]]; reflexivity. }
    apply (after_break_stable _ fuel) in Hrun; [|lia].
    apply while_true_after in Hrun.
    unfold Mle.main_src. rewrite Hrun. cbn.
    eexists. split; [reflexivity|]. exists "", endl. reflexivity.
  - intros Hk [Hok Hfail].
    assert (Hrun : after (S k) (Mle.tests_body w) (1, [], None)
                   = Break (Mle.src_size k,
                            [line ("Memory allocation failed at size = "
                                   +:+ show_Z (Mle.src_size k))], None)).
    { rewrite after_succ, (tests_doubles w k Hk Hok). unfold Mle.tests_body.
      rewrite Hfail. reflexivity. }
    apply (after_break_stable _ fuel) in Hrun; [|lia].
    apply while_true_after in Hrun.
    unfold Mle.main_tests. rewrite Hrun. cbn [mbind option_bind].
    eexists. split; [reflexivity|].
    exists "", (" at size = " +:+ show_Z (Mle.src_size k) +:+ endl). reflexivity.
Qed.

Lemma limited_fails_at_10 : Mle.src_fails_at Mle.limited 10 /\ Mle.tests_fails_at Mle.limited 10.
Proof.
  assert (Hok : forall j, (j < 10)%nat -> Mle.new_vector Mle.limited (Mle.src_size j) = Mle.Allocated).
  { intros j Hj. do 10 (destruct j as [|j]; [reflexivity|]). lia. }
  split; (split; [|try left; reflexivity]).
  - intros j Hj. split; [apply Hok, Hj | reflexivity].
  - exact Hok.
Qed.

Lemma mle_graceful_failure_witness :
  (exists l, Mle.main_src 11 Mle.limited = Some (Mle.Exited 0, [l]) /\
             Mle.contains "Memory allocation failed" l) /\
  (exists l, Mle.main_tests 11 Mle.limited = Some (Mle.Exited 0, [l]) /\
             Mle.contains "Memory allocation failed" l).
Proof.
  destruct (mle_graceful_failure Mle.limited 10 11 ltac:(lia)) as [Hsrc Htests].
  destruct limited_fails_at_10 as [H1 H2].
  split; [apply Hsrc | apply Htests]; (lia || assumption).
Defined.

(** ** network.c *)

Lemma connect_body_events w i tr :
  Network.connect_body w i tr = Continue (tr ++ Network.pass_events w i).
Proof.
  unfold Network.connect_body, Network.pass_events.
  destruct (Network.socket_at w i <? 0); [reflexivity|].
  destruct (Network.connect_at w i =? 0); rewrite <- !app_assoc; reflexivity.
Qed.





(** ** file_io.c *)

Lemma probe_body_events w i tr :
  FileIo.probe_body w i tr = Continue (tr ++ FileIo.probe_events w i).
Proof.
  unfold FileIo.probe_body, FileIo.probe_events.
  destruct (FileIo.open_read w _); rewrite <- !app_assoc; reflexivity.
Qed.



(** ** Further properties of the LIS fixtures *)

(** The two functions have the same outcome on every non-empty vector,
    whatever its size: the same value, the same exception or the same
    undefined dereference. *)
Theorem lis_same_outcome (arr : list Z) :
  arr <> [] -> Lis.lis arr = Lis.longest_increasing_subsequence arr.
Proof.
  intros Hne. rewrite lis_src_nonempty by exact Hne.
  unfold Lis.lis. apply dp_table_agree.
Qed.

Lemma lis_same_outcome_witness :
  Lis.lis Lis.fixture_array = Lis.longest_increasing_subsequence Lis.fixture_array.
Proof. apply (lis_same_outcome Lis.fixture_array). discriminate. Defined.

(** When the loops are done, every [dp[k]] is the length of the longest
    strictly increasing subsequence that ends at index [k]; this holds for
    the table of either function. *)
Theorem lis_table_rows (arr : list Z) (k : nat) :
  Z.of_nat (length arr) <= INT_MAX -> (k < length arr)%nat ->
  Lis.opt_end arr k
    (Lis.dp_loops Lis.src_inner_body arr (length arr) (replicate (length arr) 1) !!! k) /\
  Lis.opt_end arr k
    (Lis.dp_loops Lis.lis_inner_body arr (length arr) (replicate (length arr) 1) !!! k).
Proof.
  intros Hfit Hk. rewrite dp_loops_agree.
  pose proof (outer_loop arr Hfit (length arr - 1) ltac:(lia)) as (_ & Hopt & _).
  replace (S (length arr - 1)) with (length arr) in Hopt by lia.
  split; apply Hopt; lia.
Qed.

Lemma lis_table_rows_witness :
  Lis.opt_end Lis.fixture_array 6
    (Lis.dp_loops Lis.src_inner_body Lis.fixture_array (length Lis.fixture_array)
       (replicate (length Lis.fixture_array) 1) !!! 6%nat) /\
  Lis.opt_end Lis.fixture_array 6
    (Lis.dp_loops Lis.lis_inner_body Lis.fixture_array (length Lis.fixture_array)
       (replicate (length Lis.fixture_array) 1) !!! 6%nat).
Proof.
  apply (lis_table_rows Lis.fixture_array 6); [vm_compute; discriminate | vm_compute; lia].
Defined.

Section LisBounds.
Import Lis.

Lemma increasing_pair_inv x y s : increasing (x :: y :: s) -> x < y.
Proof. intros [H _]. exact H. Qed.

(** Two consecutive elements of a subsequence sit at increasing indices. *)
Lemma sublist_pair_indices (x y : Z) (s arr : list Z) :
  (x :: y :: s) `sublist_of` arr ->
  exists i j, (i < j)%nat /\ arr !! i = Some x /\ arr !! j = Some y.
Proof.
  intros H. apply sublist_cons_l in H as (k1 & k2 & -> & H).
  apply sublist_cons_l in H as (k3 & k4 & -> & _).
  exists (length k1), (length k1 + S (length k3))%nat. split; [lia|]. split.
  - apply list_lookup_middle. reflexivity.
  - rewrite lookup_app_r by lia.
    replace (length k1 + S (length k3) - length k1)%nat with (S (length k3)) by lia.
    cbn [lookup list_lookup]. apply list_lookup_middle. reflexivity.
Qed.
End LisBounds.

(** On a non-empty vector whose size an [int] holds, the value returned is
    at least 1 and at most the size; it is the size when the vector is
    strictly increasing, and 1 when the vector never increases. *)
Theorem lis_result_bounds (arr : list Z) (L : Z) :
  arr <> [] -> Z.of_nat (length arr) <= INT_MAX ->
  Lis.longest_increasing_subsequence arr = Returns L ->
  1 <= L <= Z.of_nat (length arr) /\
  (Lis.increasing arr -> L = Z.of_nat (length arr)) /\
  ((forall i j x y, (i < j)%nat -> arr !! i = Some x -> arr !! j = Some y -> y <= x) ->
   L = 1).
Proof.
  intros Hne Hfit Hret.
  destruct (dp_table_correct arr Hne Hfit) as (L' & HL' & (s & Hs & Hinc & Hlen) & Hbound).
  rewrite lis_src_nonempty in Hret by exact Hne.
  assert (L' = L) as -> by congruence.
  assert (Hupper : L <= Z.of_nat (length arr)).
  { apply sublist_length in Hs. lia. }
  assert (Hlower : 1 <= L).
  { destruct arr as [|x arr]; [congruence|].
    apply (Hbound [x]); [|exact I].
    apply sublist_skip, sublist_nil_l. }
  split; [lia|]. split.
  - intros Hall. specialize (Hbound arr (reflexivity arr) Hall). lia.
  - intros Hdesc. destruct s as [|x [|y s]]; simpl in Hlen; try lia.
    apply sublist_pair_indices in Hs as (i & j & Hij & Hi & Hj).
    apply increasing_pair_inv in Hinc.
    specialize (Hdesc i j x y Hij Hi Hj). lia.
Qed.

Lemma lis_result_bounds_witness :
  1 <= 4 <= Z.of_nat (length Lis.fixture_array) /\
  (Lis.increasing Lis.fixture_array -> 4 = Z.of_nat (length Lis.fixture_array)) /\
  ((forall i j x y, (i < j)%nat -> Lis.fixture_array !! i = Some x ->
                    Lis.fixture_array !! j = Some y -> y <= x) ->
   4 = 1).
Proof.
  apply (lis_result_bounds Lis.fixture_array 4).
  - discriminate.
  - vm_compute. discriminate.
  - reflexivity.
Defined.

(** ** Further properties of the star-pattern fixtures *)

(** For N <= 0 neither loop runs a pass: both fixtures print just the
    newline. *)
Theorem star_pattern_nonpositive (N : Z) (fuel : nat) :
  N <= 0 -> (1 <= fuel)%nat ->
  Star.print_star_pattern fuel N = Some endl /\
  Star.printStarPattern fuel N = Some endl.
Proof.
  intros HN Hfuel. destruct fuel as [|fuel]; [lia|].
  unfold Star.print_star_pattern, Star.printStarPattern. simpl.
  destruct (Z.leb_spec 1 N) as [H|_]; [lia|]. split; reflexivity.
Qed.

Lemma star_pattern_nonpositive_witness :
  Star.print_star_pattern 1 0 = Some endl /\ Star.printStarPattern 1 0 = Some endl.
Proof. apply (star_pattern_nonpositive 0 1); lia. Defined.

Section StarLengths.
Import Star.

Lemma length_append a b :
  String.length (a +:+ b) = (String.length a + String.length b)%nat.
Proof. induction a as [|c a IH]; simpl; [reflexivity|]. rewrite IH. reflexivity. Qed.

(** From the second row on, a row of either fixture has the same length:
    the group and one blank. *)
Lemma rows_same_length range :
  Forall (fun i => 2 <= i) range ->
  String.length (concat_rows src_row range) = String.length (concat_rows tests_row range).
Proof.
  induction 1 as [|i range Hi _ IH]; [reflexivity|].
  cbn [concat_rows fold_right].
  fold (concat_rows src_row range). fold (concat_rows tests_row range).
  rewrite !length_append, IH. unfold src_row, tests_row.
  destruct (Z.gtb_spec i 1) as [_|Hle]; [|lia].
  rewrite !length_append. simpl. lia.
Qed.

Lemma texts_differ_by_one N :
  1 <= N ->
  String.length (concat_rows tests_row (seqZ 1 N) +:+ endl)
  = S (String.length (concat_rows src_row (seqZ 1 N) +:+ endl)).
Proof.
  intros HN. rewrite (seqZ_cons 1 N) by lia.
  cbn [concat_rows fold_right].
  fold (concat_rows src_row (seqZ (Z.succ 1) (Z.pred N))).
  fold (concat_rows tests_row (seqZ (Z.succ 1) (Z.pred N))).
  rewrite !length_append, (rows_same_length (seqZ (Z.succ 1) (Z.pred N)))
    by apply seqZ_from.
  change (String.length (src_row 1)) with 1%nat.
  change (String.length (tests_row 1)) with 2%nat. lia.
Qed.
End StarLengths.

(** For 1 <= N <= 2^30 - 1 the output of the second fixture is one
    character longer than that of the first (the blank after the last
    group), so the two outputs are never equal byte for byte. *)
Theorem star_outputs_differ (N : Z) (fuel : nat) :
  1 <= N <= 1073741823 -> (Z.to_nat (2 * N) <= fuel)%nat ->
  exists out_src out_tests,
    Star.print_star_pattern fuel N = Some out_src /\
    Star.printStarPattern fuel N = Some out_tests /\
    String.length out_tests = S (String.length out_src) /\
    out_src <> out_tests.
Proof.
  intros HN Hfuel. unfold Star.print_star_pattern, Star.printStarPattern.
  rewrite src_rows_total, tests_rows_total by lia.
  cbn [mbind option_bind String.append].
  replace (N + 1 - 1) with N by lia.
  do 2 eexists. do 2 (split; [reflexivity|]).
  pose proof (texts_differ_by_one N ltac:(lia)) as Hlen.
  split; [exact Hlen|].
  intros Heq. rewrite Heq in Hlen. lia.
Qed.

Lemma star_outputs_differ_witness :
  exists out_src out_tests,
    Star.print_star_pattern 6 3 = Some out_src /\
    Star.printStarPattern 6 3 = Some out_tests /\
    String.length out_tests = S (String.length out_src) /\
    out_src <> out_tests.
Proof. apply (star_outputs_differ 3 6); [lia | vm_compute; lia]. Defined.

(** ** Further properties of timeout.c *)

Section TimeoutOutput.
Import Timeout.

Lemma printed_app tr1 tr2 : printed (tr1 ++ tr2) = printed tr1 ++ printed tr2.
Proof. apply omap_app. Qed.

Lemma printed_printf s st : printed (trace (printf s st)) = printed (trace st) ++ [s].
Proof. unfold printf, emit. cbn [trace]. apply printed_app. Qed.


Lemma printed_flush st : printed (trace (emit Flush st)) = printed (trace st).
Proof. unfold emit. cbn [trace]. rewrite printed_app. apply app_nil_r. Qed.

Lemma printed_ticked w st : printed (trace (ticked w st)) = printed (trace st).
Proof. unfold ticked. cbn [trace]. rewrite printed_app. apply app_nil_r. Qed.




End TimeoutOutput.



(** In the infinite loop a status line is printed in at most one pass out
    of each second of clock time: after [k] passes at most [k] status lines
    follow the two header lines, and while the clock stands still none is
    printed at all. *)
Theorem infinite_loop_status_lines (w : Timeout.world) (k : nat) :
  exists v,
    after k (Timeout.infinite_body w) (Timeout.infinite_entry w Timeout.initial)
      = Continue v /\
    (length (Timeout.printed (Timeout.trace (Timeout.io v))) <= 2 + k)%nat /\
    ((forall n, Timeout.clock w n = Timeout.clock w 0) ->
     Timeout.printed (Timeout.trace (Timeout.io v))
       = [ line "=== C Infinite Loop Test ===";
           line "Starting infinite loop (should be terminated by timeout)..." ]).
Proof.
  induction k as [|k (v & Hv & Hlen & Hstill)].
  - eexists. split; [reflexivity|]. split; [cbn; lia|]. intros _. reflexivity.
  - assert (Hlast : (forall n, Timeout.clock w n = Timeout.clock w 0) ->
                    Timeout.last_print v = Timeout.clock w 0).
    { intros Hfrozen. clear Hlen Hstill. revert v Hv.
      induction k as [|k IHk]; intros v Hv.
      - injection Hv as <-. reflexivity.
      - rewrite after_succ in Hv.
        destruct (after k _ _) as [u|] eqn:E; [|discriminate Hv].
        specialize (IHk u eq_refl).
        unfold Timeout.infinite_body, Timeout.time in Hv.
        destruct (wrap_long _ >=? 1); injection Hv as <-; cbn [Timeout.last_print];
          [apply Hfrozen | exact IHk]. }
    rewrite after_succ, Hv. unfold Timeout.infinite_body, Timeout.time.
    destruct (wrap_long (Timeout.clock w (Timeout.ticks (Timeout.io v))
                         - Timeout.last_print v) >=? 1) eqn:E;
      (eexists; split; [reflexivity|]); cbn [Timeout.io].
    + rewrite printed_flush, printed_printf, printed_ticked, length_app.
      split; [simpl; lia|]. intros Hfrozen.
      rewrite (Hlast Hfrozen), Hfrozen, Z.sub_diag in E. discriminate E.
    + rewrite printed_ticked. split; [lia | exact Hstill].
Qed.

Lemma infinite_loop_status_lines_witness :
  exists v,
    after 5 (Timeout.infinite_body Timeout.frozen)
          (Timeout.infinite_entry Timeout.frozen Timeout.initial)
      = Continue v /\
    Timeout.printed (Timeout.trace (Timeout.io v))
      = [ line "=== C Infinite Loop Test ===";
          line "Starting infinite loop (should be terminated by timeout)..." ].
Proof.
  destruct (infinite_loop_status_lines Timeout.frozen 5) as (v & Hv & _ & Hstill).
  exists v. split; [exact Hv|]. apply Hstill. intros n. reflexivity.
Defined.

(** ** Further properties of memory.c *)

Section MemoryMore.
Import Memory.

Lemma frees_app tr1 tr2 : frees (tr1 ++ tr2) = (frees tr1 + frees tr2)%nat.
Proof. unfold frees. rewrite omap_app, length_app. reflexivity. Qed.

(** One pass of the loop body: what it stores in [ptrs] and adds to the
    trace. *)
Lemma alloc_body_slots w i v :
  0 <= i <= 100 -> allocated_chunks v = i ->
  exists v',
    (alloc_body w i v = Continue v' \/ alloc_body w i v = Break v') /\
    ptrs v' = <[Z.to_nat i := chunk_malloc w i]> (ptrs v) /\
    allocated_chunks v' = (if chunk_malloc w i then i + 1 else i) /\
    frees (trace v') = frees (trace v) /\
    length (granted (trace v'))
      = (length (granted (trace v)) + (if chunk_malloc w i then 1 else 0))%nat.
Proof.
  intros Hi Hc. unfold alloc_body.
  destruct (chunk_malloc w i) eqn:Hok; cbn [negb].
  - unfold printf, emit. cbn [ptrs allocated_chunks total_allocated trace].
    rewrite Hc, (wrap_int_id (i + 1)) by (unfold INT_MIN, INT_MAX; lia).
    destruct (_ >? ceiling);
      eexists; (split; [(left; reflexivity) || (right; reflexivity)|]);
      cbn [ptrs allocated_chunks trace];
      rewrite !frees_app, !granted_app, !length_app; cbn; repeat split; lia.
  - unfold printf, emit. cbn [ptrs allocated_chunks total_allocated trace].
    eexists. split; [right; reflexivity|]. cbn [ptrs allocated_chunks trace].
    rewrite !frees_app, !granted_app, !length_app; cbn; repeat split; lia.
Qed.

Lemma slots_step w v0 i v v' :
  0 <= i <= 100 -> allocated_chunks v = i -> slots_filled v0 (i, v) ->
  (alloc_body w i v = Continue v' \/ alloc_body w i v = Break v') ->
  forall i', slots_filled v0 (i', v').
Proof.
  intros Hi Hc (Hlen & Hfull & Hfree & Hgr) Hstep i'.
  destruct (alloc_body_slots w i v Hi Hc) as (v1 & Hb & Hp & Hc1 & Hf1 & Hg1).
  assert (v' = v1) as -> by (destruct Hstep as [H|H], Hb as [H'|H']; congruence).
  cbn [slots_filled]. rewrite Hp, Hc1, Hf1, Hg1, length_insert.
  split; [exact Hlen|]. split; [|split; [exact Hfree|]].
  - intros j Hj. destruct (chunk_malloc w i) eqn:Hok.
    + destruct (decide (j = Z.to_nat i)) as [->|Hne].
      * apply list_lookup_total_insert_eq. lia.
      * rewrite list_lookup_total_insert_ne by congruence. apply Hfull. lia.
    + destruct (decide (j = Z.to_nat i)) as [->|Hne]; [lia|].
      rewrite list_lookup_total_insert_ne by congruence. apply Hfull. lia.
  - rewrite Hgr. destruct (chunk_malloc w i); lia.
Qed.

(** Where the loop stands after [k] passes, with the facts about [ptrs]. *)
Lemma alloc_loop_slots w v0 k :
  allocated_chunks v0 = 0 -> total_allocated v0 = 0 -> length (ptrs v0) = 200%nat ->
  match after k (for_lt_step 200 (alloc_body w)) (0, v0) with
  | Continue st => at_head v0 st /\ slots_filled v0 st
  | Break st => once_left v0 st /\ slots_filled v0 st
  end.
Proof.
  intros Hc Ht Hlen.
  apply (after_invariant (fun st => at_head v0 st /\ slots_filled v0 st)
                         (fun st => once_left v0 st /\ slots_filled v0 st)).
  - intros [i v] [i' v'] [Hhead Hslots] Hstep.
    split; [eapply alloc_step_head; eassumption|].
    pose proof Hhead as (Hi & _ & _ & _ & _ & _ & _ & _ & Hci).
    unfold for_lt_step in Hstep. destruct (i <? 200); [|discriminate Hstep].
    destruct (alloc_body w i v) as [u|u] eqn:Hb; [|discriminate Hstep].
    injection Hstep as <- <-.
    eapply (slots_step w v0 i v u); eauto.
  - intros [i v] [i' v'] [Hhead Hslots] Hstep.
    split; [eapply alloc_step_left; eassumption|].
    pose proof Hhead as (Hi & _ & _ & _ & _ & _ & _ & _ & Hci).
    unfold for_lt_step in Hstep. destruct (i <? 200).
    + destruct (alloc_body w i v) as [u|u] eqn:Hb; [discriminate Hstep|].
      injection Hstep as <- <-.
      eapply (slots_step w v0 i v u); eauto.
    + injection Hstep as <- <-. exact Hslots.
  - split; [apply alloc_at_head_entry; assumption|].
    cbn [slots_filled]. rewrite Hc. repeat split; try assumption; try lia.
Qed.

Lemma granted_le_requests tr : (length (granted tr) <= length (requests tr))%nat.
Proof.
  induction tr as [|e tr IH]; [reflexivity|].
  destruct e as [s|size [|]|size| |usec]; simpl; lia.
Qed.

(** The progressive-allocation loop returns, given fuel for 101 passes. *)
Lemma alloc_loop_returns w fuel :
  (101 <= fuel)%nat ->
  exists v,
    for_lt fuel 0 200 (alloc_body w) loop_entry = Some v /\
    0 <= allocated_chunks v <= 101 /\
    (exists i, slots_filled loop_entry (i, v)).
Proof.
  intros Hfuel.
  pose proof (alloc_loop_slots w loop_entry 101 eq_refl eq_refl eq_refl) as Hinv.
  destruct (after 101 (for_lt_step 200 (alloc_body w)) (0, loop_entry))
    as [[i v]|[i v]] eqn:E.
  - destruct Hinv as [(Hi & _) _].
    apply for_lt_counter in E; [lia | unfold INT_MIN, INT_MAX; lia..].
  - destruct Hinv as [(tr & _ & _ & Hreq & _ & Hc & _) Hslots].
    apply (after_break_stable _ fuel) in E; [|lia].
    apply while_true_after in E.
    exists v. unfold for_lt. rewrite E. split; [reflexivity|].
    split; [|exists i; exact Hslots].
    pose proof (granted_le_requests tr). lia.
Qed.

Lemma frees_printf s v : frees (trace (printf s v)) = frees (trace v).
Proof. unfold printf, emit. cbn [trace]. rewrite frees_app. cbn. lia. Qed.

Lemma granted_printf s v : granted (trace (printf s v)) = granted (trace v).
Proof. unfold printf, emit. cbn [trace]. rewrite granted_app. apply app_nil_r. Qed.

Lemma free_body_continue i v :
  free_body i v = Continue (if ((ptrs v !!! Z.to_nat i) : bool) then emit Free v else v).
Proof. unfold free_body. destruct (ptrs v !!! Z.to_nat i); reflexivity. Qed.

(** The clean-up loop over filled slots frees one chunk per slot and
    leaves [ptrs] as it is. *)
Lemma free_fold (l : list Z) v :
  Forall (fun i => ptrs v !!! Z.to_nat i = true) l ->
  let v' := foldl (fun v i => if ((ptrs v !!! Z.to_nat i) : bool) then emit Free v else v) v l in
  ptrs v' = ptrs v /\
  frees (trace v') = (frees (trace v) + length l)%nat /\
  granted (trace v') = granted (trace v).
Proof.
  revert v. induction l as [|i l IH]; intros v Hall; cbn [foldl length].
  - repeat split; lia.
  - apply Forall_cons in Hall as [Hi Hl]. rewrite Hi.
    destruct (IH (emit Free v) Hl) as (Hp & Hf & Hg).
    cbn zeta in *. rewrite Hp, Hf, Hg. unfold emit. cbn [ptrs trace].
    rewrite frees_app, granted_app. cbn. rewrite app_nil_r. repeat split; lia.
Qed.
End MemoryMore.

(** memory.c frees what it was granted: [main] returns 1 when the small
    allocation fails and 0 otherwise, and in both cases its [free] calls
    are as many as its successful [malloc] calls (the small block and each
    chunk counted in [allocated_chunks]). *)
Theorem memory_frees_what_it_got (fuel : nat) (w : Memory.world) :
  (102 <= fuel)%nat ->
  exists tr,
    Memory.main fuel w = Some (if Memory.small_malloc w then 0 else 1, tr) /\
    Memory.frees tr = length (Memory.granted tr).
Proof.
  intros Hfuel. unfold Memory.main.
  destruct (Memory.small_malloc w).
  2:{ eexists. split; reflexivity. }
  destruct (alloc_loop_returns w fuel ltac:(lia))
    as (v & -> & Hc & i & Hlen & Hfull & Hfree & Hgr).
  cbn [mbind option_bind].
  set (v1 := Memory.printf _ v).
  assert (Hv1 : Memory.ptrs v1 = Memory.ptrs v /\
                Memory.allocated_chunks v1 = Memory.allocated_chunks v /\
                Memory.frees (Memory.trace v1) = Memory.frees (Memory.trace v) /\
                Memory.granted (Memory.trace v1) = Memory.granted (Memory.trace v)).
  { unfold v1. rewrite frees_printf, granted_printf. repeat split; reflexivity. }
  destruct Hv1 as (Hp1 & Hc1 & Hf1 & Hg1).
  replace (Memory.allocated_chunks v1)
    with (0 + Z.of_nat (Z.to_nat (Memory.allocated_chunks v))) by lia.
  rewrite (for_lt_fold _ _ _ free_body_continue) by (unfold INT_MIN, INT_MAX; lia).
  cbn [mbind option_bind]. eexists. split; [reflexivity|].
  assert (Hall : Forall (fun j => Memory.ptrs v1 !!! Z.to_nat j = true)
                   (seqZ 0 (Z.of_nat (Z.to_nat (Memory.allocated_chunks v))))).
  { apply Forall_forall. intros j Hj. apply elem_of_seqZ in Hj.
    rewrite Hp1. apply Hfull. lia. }
  destruct (free_fold _ v1 Hall) as (_ & Hf & Hg). cbn zeta in Hf, Hg.
  rewrite frees_printf, granted_printf, Hf, Hg, Hf1, Hg1, Hfree, Hgr, length_seqZ.
  change (Memory.frees (Memory.trace Memory.loop_entry)) with 1%nat.
  change (length (Memory.granted (Memory.trace Memory.loop_entry))) with 1%nat. lia.
Qed.

Lemma memory_frees_what_it_got_witness :
  exists tr,
    Memory.main 102 Memory.capped
      = Some (if Memory.small_malloc Memory.capped then 0 else 1, tr) /\
    Memory.frees tr = length (Memory.granted tr).
Proof. apply (memory_frees_what_it_got 102 Memory.capped). lia. Defined.



(** When the request for chunk [k] (counted from 0, at most 100) is the
    first that [malloc] refuses, the loop is left with exactly [k] chunks
    counted and 5 MB times [k] in [total_allocated]. *)
Theorem memory_stops_at_first_refusal (w : Memory.world) (k fuel : nat) :
  (k <= 100)%nat -> (k < fuel)%nat ->
  (forall j, 0 <= j < Z.of_nat k -> Memory.chunk_malloc w j = true) ->
  Memory.chunk_malloc w (Z.of_nat k) = false ->
  exists v,
    for_lt fuel 0 200 (Memory.alloc_body w) Memory.loop_entry = Some v /\
    Memory.allocated_chunks v = Z.of_nat k /\
    Memory.total_allocated v = 5 * 1024 * 1024 * Z.of_nat k.
Proof.
  intros Hk Hfuel Hok Hno.
  destruct (alloc_loop_last_pass w k fuel Hk Hfuel Hok (or_introl Hno)) as (v & Hv & Hc & Ht & _).
  rewrite Hno in Hc. exists v. rewrite Ht, Hc. repeat split. exact Hv.
Qed.

Lemma memory_stops_at_first_refusal_witness :
  exists v,
    for_lt 3 0 200 (Memory.alloc_body Memory.capped) Memory.loop_entry = Some v /\
    Memory.allocated_chunks v = Z.of_nat 2 /\
    Memory.total_allocated v = 5 * 1024 * 1024 * Z.of_nat 2.
Proof.
  apply (memory_stops_at_first_refusal Memory.capped 2 3); try lia.
  - intros j Hj. assert (j = 0 \/ j = 1) as [-> | ->] by lia; reflexivity.
  - reflexivity.
Defined.



(** ** Further properties of fork.c *)

Section ForkMore.
Import Fork.

Lemma stored_app tr1 tr2 : stored (tr1 ++ tr2) = stored tr1 ++ stored tr2.
Proof. apply omap_app. Qed.

Lemma waited_app tr1 tr2 : waited (tr1 ++ tr2) = waited tr1 ++ waited tr2.
Proof. apply omap_app. Qed.

(** One pass of the loop body keeps the roster. *)
Lemma fork_body_roster w v0 i v v' :
  0 <= i < 50 -> created_count v = i -> roster v0 (i, v) ->
  (fork_body w i v = Continue v' \/ fork_body w i v = Break v') ->
  forall i', roster v0 (i', v').
Proof.
  intros Hi Hc (Hlen & _ & Hst & Hw) Hstep i'.
  unfold fork_body in Hstep.
  destruct (loop_fork w i =? -1).
  { destruct Hstep as [H|H]; [discriminate H|]. injection H as <-.
    unfold printf, emit. cbn [roster children created_count trace].
    rewrite !stored_app, !waited_app, Hst, Hw. cbn. rewrite !app_nil_r.
    repeat split; try assumption; lia. }
  destruct (loop_fork w i =? 0).
  { destruct Hstep as [H|H]; [discriminate H|]. injection H as <-.
    unfold exit, printf, emit. cbn [roster children created_count trace].
    rewrite !stored_app, !waited_app, Hst, Hw. cbn. rewrite !app_nil_r.
    repeat split; try assumption; lia. }
  destruct Hstep as [H|H]; [|discriminate H]. injection H as <-.
  unfold printf, emit. cbn [roster children created_count trace].
  rewrite Hc, wrap_int_id by (unfold INT_MIN, INT_MAX; lia).
  rewrite !stored_app, !waited_app, Hst, Hw, Hc, length_insert. cbn.
  rewrite !app_nil_r, <- app_assoc.
  repeat split; try assumption; try lia.
  f_equal. replace (Z.to_nat (i + 1)) with (S (Z.to_nat i)) by lia.
  rewrite (take_S_r _ _ (loop_fork w i)).
  - rewrite take_insert_ge by lia. reflexivity.
  - apply list_lookup_insert_eq. lia.
Qed.

(** Where the loop stands after [k] passes, with the roster. *)
Lemma fork_loop_roster w v0 k :
  created_count v0 = 0 -> exited v0 = None -> length (children v0) = 50%nat ->
  match after k (for_lt_step max_processes (fork_body w)) (0, v0) with
  | Continue st => at_head v0 st /\ roster v0 st
  | Break st => roster v0 st
  end.
Proof.
  intros Hc Hex Hlen.
  apply (after_invariant (fun st => at_head v0 st /\ roster v0 st) (roster v0)).
  - intros [i v] [i' v'] [Hhead Hr] Hstep.
    split; [eapply fork_step_head; eassumption|].
    pose proof Hhead as (Hi & _ & Hci & _).
    unfold for_lt_step, max_processes in Hstep.
    destruct (Z.ltb_spec i 50); [|discriminate Hstep].
    destruct (fork_body w i v) as [u|u] eqn:Hb; [|discriminate Hstep].
    injection Hstep as <- <-.
    eapply (fork_body_roster w v0 i v u); eauto. lia.
  - intros [i v] [i' v'] [Hhead Hr] Hstep.
    pose proof Hhead as (Hi & _ & Hci & _).
    unfold for_lt_step, max_processes in Hstep.
    destruct (Z.ltb_spec i 50).
    + destruct (fork_body w i v) as [u|u] eqn:Hb; [discriminate Hstep|].
      injection Hstep as <- <-.
      eapply (fork_body_roster w v0 i v u); eauto. lia.
    + injection Hstep as <- <-. exact Hr.
  - split.
    + split; [lia|]. split; [exact Hex|]. split; [exact Hc|].
      exists []. rewrite app_nil_r. repeat split; constructor.
    + cbn [roster]. rewrite Hc. cbn. rewrite app_nil_r. repeat split; try assumption; lia.
Qed.

(** The process stays the parent as long as no fork returns 0. *)
Lemma fork_loop_parent w v0 k :
  created_count v0 = 0 -> exited v0 = None ->
  (forall i, 0 <= i < 50 -> loop_fork w i <> 0) ->
  exited (snd (state_of (after k (for_lt_step max_processes (fork_body w)) (0, v0)))) = None.
Proof.
  intros Hc Hex Hpar.
  pose proof (after_invariant
    (fun st => at_head v0 st) (fun st : Z * vars => exited (snd st) = None)
    (for_lt_step max_processes (fork_body w))) as Hinv.
  specialize (Hinv (fun s s' => fork_step_head w v0 s s')).
  assert (Hleft : forall s s', at_head v0 s ->
            for_lt_step max_processes (fork_body w) s = Break s' -> exited (snd s') = None).
  { intros [i v] [i' v'] (Hi & Hexv & Hci & _) Hstep.
    unfold for_lt_step, max_processes in Hstep.
    destruct (Z.ltb_spec i 50).
    - destruct (fork_body_spec w i v ltac:(lia) Hci) as (v1 & evs & Hb & _ & _ & _ & _ & Hex1).
      rewrite Hb in Hstep.
      destruct (created (loop_fork w i)); [discriminate Hstep|].
      injection Hstep as <- <-. cbn [snd]. rewrite Hex1.
      destruct (Z.eqb_spec (loop_fork w i) 0) as [H0|_]; [|exact Hexv].
      exfalso. apply (Hpar i); [lia | exact H0].
    - injection Hstep as <- <-. exact Hexv. }
  specialize (Hinv Hleft k (0, v0)).
  destruct (after k _ _) as [[i v]|[i v]]; cbn [state_of snd].
  - destruct Hinv as (_ & Hexv & _); [|exact Hexv].
    split; [lia|]. split; [exact Hex|]. split; [exact Hc|].
    exists []. rewrite app_nil_r. repeat split; constructor.
  - apply Hinv.
    split; [lia|]. split; [exact Hex|]. split; [exact Hc|].
    exists []. rewrite app_nil_r. repeat split; constructor.
Qed.

Lemma stored_printf s v : stored (trace (printf s v)) = stored (trace v).
Proof. unfold printf, emit. cbn [trace]. rewrite stored_app. apply app_nil_r. Qed.

Lemma waited_printf s v : waited (trace (printf s v)) = waited (trace v).
Proof. unfold printf, emit. cbn [trace]. rewrite waited_app. apply app_nil_r. Qed.

Lemma loop_entry_quiet w :
  stored (trace (loop_entry w)) = [] /\ waited (trace (loop_entry w)) = [] /\
  length (children (loop_entry w)) = 50%nat.
Proof.
  unfold loop_entry, basic_fork.
  destruct (first_fork w =? -1); [repeat split|].
  destruct (first_fork w =? 0); repeat split.
Qed.

(** The first [n] slots of an array, read one index at a time. *)
Lemma take_by_index (l : list Z) (n : nat) :
  (n <= length l)%nat ->
  map (fun i => l !!! Z.to_nat i) (seqZ 0 (Z.of_nat n)) = take n l.
Proof.
  induction n as [|n IH]; intros Hn; [reflexivity|].
  replace (Z.of_nat (Datatypes.S n)) with (Z.of_nat n + 1) by lia.
  rewrite seqZ_app by lia. rewrite map_app, IH by lia.
  destruct (lookup_lt_is_Some_2 l n ltac:(lia)) as [x Hx].
  rewrite (take_S_r _ _ x Hx). f_equal.
  change (seqZ (0 + Z.of_nat n) 1) with [Z.of_nat 0 + (0 + Z.of_nat n)].
  cbn [map]. rewrite Z.add_0_l, Z.add_0_l, Nat2Z.id.
  rewrite (list_lookup_total_correct _ _ _ Hx). reflexivity.
Qed.

Lemma wait_body_continue w i v :
  wait_body w i v = Continue (state_of (wait_body w i v)).
Proof. unfold wait_body. destruct (waitpid_ret w i >? 0); reflexivity. Qed.

(** The waiting loop, folded over a list of indices: it reads [children]
    at each index, in order, and writes nothing. *)
Lemma wait_fold w (l : list Z) v :
  let v' := foldl (fun s i => state_of (wait_body w i s)) v l in
  children v' = children v /\ created_count v' = created_count v /\
  stored (trace v') = stored (trace v) /\
  waited (trace v') = waited (trace v) ++ map (fun i => children v !!! Z.to_nat i) l.
Proof.
  revert v. induction l as [|i l IH]; intros v; cbn zeta.
  - rewrite app_nil_r. repeat split.
  - cbn [foldl].
    destruct (IH (state_of (wait_body w i v))) as (Hch & Hc & Hst & Hw).
    cbn zeta in Hch, Hc, Hst, Hw.
    rewrite Hch, Hc, Hst, Hw. unfold wait_body.
    destruct (waitpid_ret w i >? 0); unfold printf, emit;
      cbn [state_of children created_count trace];
      rewrite !stored_app, !waited_app; cbn; rewrite ?app_nil_r, <- ?app_assoc;
      repeat split.
Qed.

(** With passes enough the multi-fork loop returns. *)
Lemma fork_loop_returns w v0 fuel :
  (51 <= fuel)%nat ->
  exists st, after fuel (for_lt_step max_processes (fork_body w)) (0, v0) = Break st /\
             for_lt fuel 0 max_processes (fork_body w) v0 = Some (snd st).
Proof.
  intros Hfuel.
  destruct (for_lt_left (fork_body w) 0 max_processes v0 51) as [st Hst];
    [unfold INT_MIN, max_processes; lia | unfold INT_MAX, max_processes; lia
    | unfold max_processes; lia |].
  exists st. pose proof (after_break_stable _ _ _ _ _ Hst Hfuel) as Hb.
  split; [exact Hb|]. unfold for_lt.
  apply while_true_after in Hb. rewrite Hb. reflexivity.
Qed.

(** A pass in the parent stores the pid that fork returned. *)
Lemma fork_body_parent w i v v1 :
  fork_body w i v = Continue v1 ->
  stored (trace v1) = stored (trace v) ++ [loop_fork w i].
Proof.
  unfold fork_body.
  destruct (loop_fork w i =? -1); [discriminate|].
  destruct (loop_fork w i =? 0); [discriminate|].
  intros H. injection H as <-.
  unfold printf, emit. cbn [trace]. rewrite !stored_app. cbn.
  rewrite !app_nil_r. reflexivity.
Qed.

(** While the forks give children, the loop goes on. *)
Lemma fork_loop_runs w v0 (k : nat) :
  created_count v0 = 0 -> exited v0 = None -> length (children v0) = 50%nat ->
  (k <= 50)%nat ->
  (forall j, 0 <= j < Z.of_nat k -> created (loop_fork w j) = true) ->
  exists v, after k (for_lt_step max_processes (fork_body w)) (0, v0)
            = Continue (Z.of_nat k, v) /\
            at_head v0 (Z.of_nat k, v) /\ roster v0 (Z.of_nat k, v) /\
            stored (trace v) = stored (trace v0) ++ map (loop_fork w) (seqZ 0 (Z.of_nat k)).
Proof.
  intros Hc Hex Hlen. induction k as [|k IH]; intros Hk Hall.
  - exists v0. split; [reflexivity|].
    pose proof (fork_loop_roster w v0 0 Hc Hex Hlen) as [H1 H2].
    split; [exact H1|]. split; [exact H2|]. cbn. rewrite app_nil_r. reflexivity.
  - destruct IH as (v & Hafter & Hhead & Hr & Hpids); [lia | intros; apply Hall; lia |].
    pose proof (fork_loop_roster w v0 (Datatypes.S k) Hc Hex Hlen) as Hinv.
    rewrite after_succ, Hafter in Hinv. rewrite after_succ, Hafter.
    pose proof Hhead as (_ & _ & Hci & _).
    unfold for_lt_step, max_processes in *.
    destruct (Z.ltb_spec (Z.of_nat k) 50) as [_|?]; [|lia].
    destruct (fork_body_spec w (Z.of_nat k) v ltac:(lia) Hci) as (v1 & evs & Hb & _).
    rewrite Hb in *. rewrite (Hall (Z.of_nat k)) in * by lia.
    rewrite wrap_int_id in * by (unfold INT_MIN, INT_MAX; lia).
    replace (Z.of_nat k + 1) with (Z.of_nat (Datatypes.S k)) in * by lia.
    exists v1. split; [reflexivity|]. destruct Hinv as [H1 H2].
    split; [exact H1|]. split; [exact H2|].
    rewrite (fork_body_parent w (Z.of_nat k) v v1 Hb), Hpids, <- app_assoc. f_equal.
    replace (Z.of_nat (Datatypes.S k)) with (Z.of_nat k + 1) by lia.
    rewrite seqZ_app by lia. rewrite map_app. reflexivity.
Qed.
End ForkMore.

(** As long as every fork leaves the process in the parent, fork.c waits
    with [waitpid] for exactly the pids it stored in [children], in the
    order it stored them, at most 50 of them, and returns 0. *)
Theorem fork_parent_waits_for_its_children (w : Fork.world) (fuel : nat) :
  (51 <= fuel)%nat ->
  Fork.first_fork w <> 0 ->
  (forall i, 0 <= i < 50 -> Fork.loop_fork w i <> 0) ->
  exists tr, Fork.main fuel w = Some (0, tr) /\
             Fork.waited tr = Fork.stored tr /\
             (length (Fork.waited tr) <= 50)%nat.
Proof.
  intros Hfuel Hfirst Hpar.
  destruct (loop_entry_running w Hfirst) as [Hc Hex].
  destruct (loop_entry_quiet w) as (Hst0 & Hw0 & Hlen).
  destruct (fork_loop_returns w (Fork.loop_entry w) fuel Hfuel) as ([i v] & Hafter & Hloop).
  pose proof (fork_loop_roster w (Fork.loop_entry w) fuel Hc Hex Hlen) as Hr.
  pose proof (fork_loop_parent w (Fork.loop_entry w) fuel Hc Hex Hpar) as Hexv.
  rewrite Hafter in Hr, Hexv. cbn [state_of snd] in Hexv, Hloop.
  destruct Hr as (Hlenv & Hcv & Hstv & Hwv). rewrite Hst0 in Hstv. rewrite Hw0 in Hwv.
  unfold Fork.main.
  assert (Hrun : Fork.exited (Fork.basic_fork w Fork.initial) = None) by exact Hex.
  rewrite Hrun. fold (Fork.loop_entry w). rewrite Hloop. cbn [mbind option_bind].
  rewrite Hexv.
  set (v1 := Fork.printf _ v).
  assert (Hcount : Fork.created_count v1 = 0 + Z.of_nat (Z.to_nat (Fork.created_count v)))
    by (subst v1; cbn; lia).
  pose proof (for_lt_fold (fun i s => state_of (Fork.wait_body w i s)) (Fork.wait_body w)
                (Z.to_nat (Fork.created_count v)) (wait_body_continue w) fuel 0 v1) as Hwait.
  rewrite <- Hcount in Hwait.
  rewrite Hwait by (unfold INT_MIN, INT_MAX; lia).
  cbn [mbind option_bind].
  eexists. split; [reflexivity|].
  destruct (wait_fold w (seqZ 0 (Z.of_nat (Z.to_nat (Fork.created_count v)))) v1)
    as (_ & _ & Hst & Hw).
  cbn zeta in Hst, Hw.
  rewrite stored_printf, waited_printf, Hst, Hw.
  subst v1. rewrite stored_printf, waited_printf, Hstv, Hwv.
  change (Fork.children (Fork.printf _ v)) with (Fork.children v).
  rewrite !app_nil_l, take_by_index by lia.
  split; [reflexivity|]. rewrite length_take. lia.
Qed.

Lemma fork_parent_waits_for_its_children_witness :
  exists tr, Fork.main 51 Fork.two_children = Some (0, tr) /\
             Fork.waited tr = Fork.stored tr /\
             (length (Fork.waited tr) <= 50)%nat.
Proof.
  apply (fork_parent_waits_for_its_children Fork.two_children 51).
  - lia.
  - discriminate.
  - intros i Hi. cbn. destruct (i <? 2) eqn:E; [apply Z.ltb_lt in E|]; lia.
Defined.

(** A process that the multi-fork loop of fork.c creates in its pass [k]
    (the fork returns 0 there, after [k] forks that gave children) ends
    with [exit(k)] as its last action: the exit status of main is [k], and
    it has waited for no child. *)
Theorem fork_loop_child_exits_with_its_index (w : Fork.world) (k : Z) (fuel : nat) :
  Fork.first_fork w <> 0 ->
  0 <= k < 50 ->
  (forall j, 0 <= j < k -> Fork.created (Fork.loop_fork w j) = true) ->
  Fork.loop_fork w k = 0 ->
  (Z.to_nat k < fuel)%nat ->
  exists tr, Fork.main fuel w = Some (k, tr) /\
             last tr = Some (Fork.Exit k) /\
             Fork.waited tr = [] /\
             Fork.stored tr = map (Fork.loop_fork w) (seqZ 0 k).
Proof.
  intros Hfirst Hk Hall Hzero Hfuel.
  destruct (loop_entry_running w Hfirst) as [Hc Hex].
  destruct (loop_entry_quiet w) as (Hst0 & Hw0 & Hlen).
  destruct (fork_loop_runs w (Fork.loop_entry w) (Z.to_nat k) Hc Hex Hlen)
    as (v & Hafter & Hhead & Hr & Hpids); [lia | intros; apply Hall; lia |].
  rewrite Z2Nat.id in * by lia. rewrite Hst0 in Hpids.
  destruct Hr as (Hlenv & Hcv & Hstv & Hwv). rewrite Hst0 in Hstv. rewrite Hw0 in Hwv.
  set (v' := Fork.exit k
               (Fork.emit (Fork.Sleep 5)
                  (Fork.printf (line ("Child " +:+ show_Z k +:+ ": PID "
                                      +:+ show_Z (Fork.getpid w)))
                     (Fork.emit (Fork.ForkCall 0) v)))).
  assert (Hbreak : after (Datatypes.S (Z.to_nat k))
                     (for_lt_step Fork.max_processes (Fork.fork_body w))
                     (0, Fork.loop_entry w) = Break (k, v')).
  { rewrite after_succ, Hafter. unfold for_lt_step, Fork.max_processes.
    destruct (Z.ltb_spec k 50) as [_|?]; [|lia].
    unfold Fork.fork_body. rewrite Hzero. reflexivity. }
  apply (after_break_stable _ fuel) in Hbreak; [|lia].
  apply while_true_after in Hbreak.
  unfold Fork.main.
  assert (Hrun : Fork.exited (Fork.basic_fork w Fork.initial) = None) by exact Hex.
  rewrite Hrun. fold (Fork.loop_entry w). unfold for_lt. rewrite Hbreak.
  cbn [fmap option_fmap option_map mbind option_bind snd].
  exists (Fork.trace v'). split; [reflexivity|].
  subst v'. unfold Fork.exit, Fork.printf, Fork.emit. cbn [Fork.trace].
  split; [apply last_snoc|].
  rewrite !stored_app, !waited_app, Hpids, Hwv. cbn. rewrite !app_nil_r.
  split; reflexivity.
Qed.

Lemma fork_loop_child_exits_with_its_index_witness :
  exists tr, Fork.main 3 Fork.third_child = Some (2, tr) /\
             last tr = Some (Fork.Exit 2) /\
             Fork.waited tr = [] /\
             Fork.stored tr = map (Fork.loop_fork Fork.third_child) (seqZ 0 2).
Proof.
  apply (fork_loop_child_exits_with_its_index Fork.third_child 2 3).
  - discriminate.
  - lia.
  - intros j Hj. cbn. destruct (j <? 2) eqn:E; [|apply Z.ltb_ge in E; lia].
    unfold Fork.created.
    destruct (Z.eqb_spec (102 + j) (-1)); [lia|].
    destruct (Z.eqb_spec (102 + j) 0); [lia|]. reflexivity.
  - reflexivity.
  - cbn. lia.
Defined.

(** ** Further properties of the memory-limit-exceeded fixtures *)

Section MleMore.
Import Mle.

(** The sizes the second fixture can hold at the head of its loop: the
    powers of two a [size_t] holds, and 0 once the doubling has wrapped. *)
Lemma tests_size_step size :
  (size = 0 \/ exists k, (k <= 63)%nat /\ size = src_size k) ->
  wrap_size_t (size * 2) = 0 \/
  exists k, (k <= 63)%nat /\ wrap_size_t (size * 2) = src_size k.
Proof.
  intros [->|(k & Hk & ->)]; [left; reflexivity|].
  destruct (Nat.eq_dec k 63%nat) as [->|Hne].
  - left. reflexivity.
  - right. exists (S k). split; [lia|].
    rewrite <- src_size_succ.
    pose proof (src_size_pos (S k)).
    pose proof (src_size_mono (S k) 63%nat ltac:(lia)) as Hle. rewrite src_size_63 in Hle.
    apply wrap_size_t_id. lia.
Qed.

(** Where the loop of the second fixture stands after [n] passes: still
    running with nothing printed, or left by an exception. *)
Lemma tests_loop_invariant w n :
  match after n (tests_body w) (1, [], None) with
  | Continue (size, out, flight) =>
      out = [] /\ flight = None /\
      (size = 0 \/ exists k, (k <= 63)%nat /\ size = src_size k)
  | Break (size, out, flight) =>
      (size = 0 \/ exists k, (k <= 63)%nat /\ size = src_size k) /\
      ((new_vector w size = Raised bad_alloc /\ flight = None /\
        out = [line ("Memory allocation failed at size = " +:+ show_Z size)]) \/
       (exists what, new_vector w size = Raised (other_exception what) /\
                     flight = Some (other_exception what) /\ out = []))
  end.
Proof.
  apply (after_invariant
    (fun st : Z * list string * option exn =>
       let '(size, out, flight) := st in
       out = [] /\ flight = None /\
       (size = 0 \/ exists k, (k <= 63)%nat /\ size = src_size k))
    (fun st : Z * list string * option exn =>
       let '(size, out, flight) := st in
       (size = 0 \/ exists k, (k <= 63)%nat /\ size = src_size k) /\
       ((new_vector w size = Raised bad_alloc /\ flight = None /\
         out = [line ("Memory allocation failed at size = " +:+ show_Z size)]) \/
        (exists what, new_vector w size = Raised (other_exception what) /\
                      flight = Some (other_exception what) /\ out = [])))).
  - intros [[size out] flight] [[size' out'] flight'] (-> & -> & Hsize) Hstep.
    unfold tests_body in Hstep.
    destruct (new_vector w size) as [|[|what]]; try discriminate Hstep.
    injection Hstep as <- <- <-. split; [reflexivity|]. split; [reflexivity|].
    apply tests_size_step, Hsize.
  - intros [[size out] flight] [[size' out'] flight'] (-> & -> & Hsize) Hstep.
    unfold tests_body in Hstep.
    destruct (new_vector w size) as [|[|what]] eqn:Hnew; try discriminate Hstep;
      injection Hstep as <- <- <-; (split; [exact Hsize|]).
    + left. repeat split. exact Hnew.
    + right. exists what. repeat split. exact Hnew.
  - split; [reflexivity|]. split; [reflexivity|]. right. exists 0%nat. split; [lia|reflexivity].
Qed.

(** Where the loop of the first fixture stands after [n] passes: still
    running on a positive size, or stopped by something other than its
    [break]. *)
Lemma src_loop_invariant w n :
  match after n (src_body w) (1, None) with
  | Continue st => 0 < fst st
  | Break st => snd st <> None
  end.
Proof.
  apply (after_invariant (fun st : Z * option stop => 0 < fst st)
                         (fun st : Z * option stop => snd st <> None)).
  - intros [size flight] [size' flight'] Hpos Hstep. cbn [fst] in Hpos.
    unfold src_body in Hstep. cbn [fst] in Hstep.
    destruct (new_vector w size); [|discriminate Hstep].
    destruct (push_back w size); [|discriminate Hstep].
    destruct (fits_int (size * 2)); [|discriminate Hstep].
    destruct (Z.leb_spec (size * 2) 0); [discriminate Hstep|].
    injection Hstep as <- <-. cbn [fst]. lia.
  - intros [size flight] [size' flight'] Hpos Hstep. cbn [fst] in Hpos.
    unfold src_body in Hstep. cbn [fst] in Hstep.
    destruct (new_vector w size); [|injection Hstep as <- <-; discriminate].
    destruct (push_back w size); [|injection Hstep as <- <-; discriminate].
    destruct (fits_int (size * 2)); [|injection Hstep as <- <-; discriminate].
    destruct (Z.leb_spec (size * 2) 0); [lia|discriminate Hstep].
  - cbn [fst]. lia.
Qed.
End MleMore.

(** The second fixture has no way out of its loop but a failed
    construction: whenever it stops, the construction of a vector of [size]
    elements had thrown, where [size] is a power of two that a [size_t]
    holds (or 0, once the doubling has wrapped).  If that was [bad_alloc], it
    printed the one line naming this [size] and returned 0; if it was
    another exception, it printed nothing and ended in [std::terminate]. *)
Theorem mle_tests_stops_only_on_failure (w : Mle.world) (fuel : nat)
    (e : Mle.ending) (out : list string) :
  Mle.main_tests fuel w = Some (e, out) ->
  exists size,
    (size = 0 \/ exists k, (k <= 63)%nat /\ size = 2 ^ Z.of_nat k) /\
    ((Mle.new_vector w size = Mle.Raised Mle.bad_alloc /\ e = Mle.Exited 0 /\
      out = [line ("Memory allocation failed at size = " +:+ show_Z size)]) \/
     (exists what,
        Mle.new_vector w size = Mle.Raised (Mle.other_exception what) /\
        e = Mle.Terminated (Mle.other_exception what) /\ out = [])).
Proof.
  intros Hmain. unfold Mle.main_tests in Hmain.
  destruct (while_true fuel (Mle.tests_body w) (1, [], None)) as [[[size out'] flight]|] eqn:Hrun;
    [|discriminate Hmain].
  apply while_true_after in Hrun.
  pose proof (tests_loop_invariant w fuel) as Hinv. rewrite Hrun in Hinv.
  destruct Hinv as [Hsize Hcase]. exists size. split; [exact Hsize|].
  cbn [mbind option_bind] in Hmain.
  destruct Hcase as [(Hnew & -> & ->)|(what & Hnew & -> & ->)];
    injection Hmain as <- <-.
  - left. repeat split. exact Hnew.
  - right. exists what. repeat split. exact Hnew.
Qed.

Lemma mle_tests_stops_only_on_failure_witness :
  exists size,
    (size = 0 \/ exists k, (k <= 63)%nat /\ size = 2 ^ Z.of_nat k) /\
    ((Mle.new_vector Mle.limited size = Mle.Raised Mle.bad_alloc /\
      Mle.Exited 0 = Mle.Exited 0 /\
      [line ("Memory allocation failed at size = " +:+ show_Z 1024)]
        = [line ("Memory allocation failed at size = " +:+ show_Z size)]) \/
     (exists what,
        Mle.new_vector Mle.limited size = Mle.Raised (Mle.other_exception what) /\
        Mle.Exited 0 = Mle.Terminated (Mle.other_exception what) /\
        [line ("Memory allocation failed at size = " +:+ show_Z 1024)] = [])).
Proof.
  apply (mle_tests_stops_only_on_failure Mle.limited 11 (Mle.Exited 0)
           [line ("Memory allocation failed at size = " +:+ show_Z 1024)]).
  vm_compute. reflexivity.
Defined.

(** In the first fixture [if (size <= 0) break] is no way out: [size] is
    positive at the head of every pass, so the doubled size is positive
    unless the multiplication overflows the [int].  No run returns 0 with
    nothing printed; and when no allocation fails for the sizes 2^0 to 2^30,
    the run reaches [size *= 2] with [size] = 2^30, a signed overflow, with
    nothing printed. *)
Theorem mle_src_overflows (w : Mle.world) (fuel : nat) :
  Mle.main_src fuel w <> Some (Mle.Exited 0, []) /\
  ((forall j, (j <= 30)%nat ->
      Mle.new_vector w (Mle.src_size j) = Mle.Allocated /\
      Mle.push_back w (Mle.src_size j) = Mle.Allocated) ->
   (31 <= fuel)%nat ->
   Mle.main_src fuel w = Some (Mle.Undefined, [])).
Proof.
  split.
  - unfold Mle.main_src.
    destruct (while_true fuel (Mle.src_body w) (1, None)) as [[size flight]|] eqn:Hrun;
      [|discriminate].
    apply while_true_after in Hrun.
    pose proof (src_loop_invariant w fuel) as Hinv. rewrite Hrun in Hinv.
    cbn [snd] in Hinv. cbn [mbind option_bind snd].
    destruct flight as [[[|what]|]|]; [discriminate..|contradiction].
  - intros Hok Hfuel.
    assert (Hrun : after 31 (Mle.src_body w) (1, None)
                   = Break (Mle.src_size 30, Some Mle.SignedOverflow)).
    { rewrite after_succ, (src_doubles w 30) by (try lia; intros j Hj; apply Hok; lia).
      unfold Mle.src_body. cbn [fst]. destruct (Hok 30%nat ltac:(lia)) as [-> ->].
      reflexivity. }
    apply (after_break_stable _ fuel) in Hrun; [|lia].
    apply while_true_after in Hrun.
    unfold Mle.main_src. rewrite Hrun. reflexivity.
Qed.

Lemma mle_src_overflows_witness :
  Mle.main_src 31 Mle.roomy <> Some (Mle.Exited 0, []) /\
  Mle.main_src 31 Mle.roomy = Some (Mle.Undefined, []).
Proof.
  destruct (mle_src_overflows Mle.roomy 31) as [Hnot Hrun].
  split; [exact Hnot|]. apply Hrun; [|lia]. intros j Hj. split; reflexivity.
Defined.

(** An exception other than [bad_alloc] from the first failing allocation:
    the first fixture catches it as [std::exception], prints "Error: " and
    its text, and returns 0; the second fixture does not catch it, prints
    nothing and ends in [std::terminate]. *)
Theorem mle_other_exception (w : Mle.world) (k fuel : nat) (what : string) :
  (k < fuel)%nat ->
  ((k <= 30)%nat -> Mle.src_raises_at w k (Mle.other_exception what) ->
     Mle.main_src fuel w = Some (Mle.Exited 0, [line ("Error: " +:+ what)])) /\
  ((k <= 63)%nat -> Mle.tests_raises_at w k (Mle.other_exception what) ->
     Mle.main_tests fuel w = Some (Mle.Terminated (Mle.other_exception what), [])).
Proof.
  intros Hfuel. split.
  - intros Hk [Hok Hfail].
    assert (Hrun : after (S k) (Mle.src_body w) (1, None)
                   = Break (Mle.src_size k, Some (Mle.Raising (Mle.other_exception what)))).
    { rewrite after_succ, (src_doubles w k Hk Hok). unfold Mle.src_body. cbn [fst].
      destruct Hfail as [->|[-> ->]]; reflexivity. }
    apply (after_break_stable _ fuel) in Hrun; [|lia].
    apply while_true_after in Hrun.
    unfold Mle.main_src. rewrite Hrun. reflexivity.
  - intros Hk [Hok Hfail].
    assert (Hrun : after (S k) (Mle.tests_body w) (1, [], None)
                   = Break (Mle.src_size k, [], Some (Mle.other_exception what))).
    { rewrite after_succ, (tests_doubles w k Hk Hok). unfold Mle.tests_body.
      rewrite Hfail. reflexivity. }
    apply (after_break_stable _ fuel) in Hrun; [|lia].
    apply while_true_after in Hrun.
    unfold Mle.main_tests. rewrite Hrun. reflexivity.
Qed.

Lemma strict_raises_at_10 :
  Mle.src_raises_at Mle.strict 10
    (Mle.other_exception "cannot create std::vector larger than max_size()") /\
  Mle.tests_raises_at Mle.strict 10
    (Mle.other_exception "cannot create std::vector larger than max_size()").
Proof.
  assert (Hok : forall j, (j < 10)%nat -> Mle.new_vector Mle.strict (Mle.src_size j) = Mle.Allocated).
  { intros j Hj. do 10 (destruct j as [|j]; [reflexivity|]). lia. }
  split; (split; [|try left; reflexivity]).
  - intros j Hj. split; [apply Hok, Hj | reflexivity].
  - exact Hok.
Qed.

Lemma mle_other_exception_witness :
  Mle.main_src 11 Mle.strict
    = Some (Mle.Exited 0,
            [line ("Error: " +:+ "cannot create std::vector larger than max_size()")]) /\
  Mle.main_tests 11 Mle.strict
    = Some (Mle.Terminated
              (Mle.other_exception "cannot create std::vector larger than max_size()"), []).
Proof.
  destruct (mle_other_exception Mle.strict 10 11
              "cannot create std::vector larger than max_size()" ltac:(lia))
    as [Hsrc Htests].
  destruct strict_raises_at_10 as [H1 H2].
  split; [apply Hsrc | apply Htests]; (lia || assumption).
Defined.

(** ** Further properties of network.c, file_io.c and syscalls.c *)

(** network.c exits with status 1 exactly when the first socket cannot be
    created, and in that case it neither binds nor connects nor closes
    anything. *)
Theorem network_exit_status (fuel : nat) (w : Network.world) :
  (4 <= fuel)%nat ->
  exists tr,
    Network.main fuel w = Some (if Network.first_socket w <? 0 then 1 else 0, tr) /\
    (Network.first_socket w < 0 ->
     Network.attempts tr = [] /\ Network.binds tr = [] /\ Network.closes tr = []).
Proof.
  intros Hfuel. unfold Network.main.
  destruct (Z.ltb_spec (Network.first_socket w) 0) as [Hneg|Hpos].
  - eexists. split; [reflexivity|]. intros _. repeat split; reflexivity.
  - change Network.num_targets with (0 + Z.of_nat 3).
    rewrite (for_lt_accumulate (Network.pass_events w) _ 3 (connect_body_events w))
      by (unfold INT_MIN, INT_MAX; lia).
    eexists. split; [reflexivity|]. intros H. lia.
Qed.

Lemma network_exit_status_witness :
  exists tr,
    Network.main 4 Network.offline
      = Some (if Network.first_socket Network.offline <? 0 then 1 else 0, tr) /\
    (Network.first_socket Network.offline < 0 ->
     Network.attempts tr = [] /\ Network.binds tr = [] /\ Network.closes tr = []).
Proof. apply (network_exit_status 4 Network.offline). lia. Defined.

Lemma network_sockets_app tr1 tr2 :
  Network.sockets (tr1 ++ tr2) = Network.sockets tr1 ++ Network.sockets tr2.
Proof. apply omap_app. Qed.

Lemma network_closes_app tr1 tr2 :
  Network.closes (tr1 ++ tr2) = Network.closes tr1 ++ Network.closes tr2.
Proof. apply omap_app. Qed.

(** network.c closes every socket it created, once and in the order of
    creation, and never passes a failed descriptor to [close]. *)
Theorem network_closes_its_sockets (fuel : nat) (w : Network.world) :
  (4 <= fuel)%nat ->
  exists code tr,
    Network.main fuel w = Some (code, tr) /\
    Network.closes tr = List.filter (fun fd => negb (fd <? 0)) (Network.sockets tr).
Proof.
  intros Hfuel. unfold Network.main.
  destruct (Z.ltb_spec (Network.first_socket w) 0) as [Hneg|Hpos].
  - do 2 eexists. split; [reflexivity|].
    cbn. destruct (Z.ltb_spec (Network.first_socket w) 0); [reflexivity|lia].
  - change Network.num_targets with (0 + Z.of_nat 3).
    rewrite (for_lt_accumulate (Network.pass_events w) _ 3 (connect_body_events w))
      by (unfold INT_MIN, INT_MAX; lia).
    do 2 eexists. split; [reflexivity|].
    change (seqZ 0 (Z.of_nat 3)) with [0; 1; 2].
    rewrite network_closes_app, network_sockets_app, List.filter_app.
    unfold Network.pass_events. cbn [map concat].
    assert (Hfirst : (Network.first_socket w <? 0) = false) by (apply Z.ltb_ge; lia).
    destruct (Network.bind_ret w =? 0);
      destruct (Network.socket_at w 0 <? 0) eqn:E0;
      destruct (Network.socket_at w 1 <? 0) eqn:E1;
      destruct (Network.socket_at w 2 <? 0) eqn:E2;
      cbn; rewrite ?Hfirst, ?E0, ?E1, ?E2; reflexivity.
Qed.

Lemma network_closes_its_sockets_witness :
  exists code tr,
    Network.main 4 Network.isolated = Some (code, tr) /\
    Network.closes tr = List.filter (fun fd => negb (fd <? 0)) (Network.sockets tr).
Proof. apply (network_closes_its_sockets 4 Network.isolated). lia. Defined.

Lemma streams_app tr1 tr2 :
  FileIo.streams (tr1 ++ tr2) = FileIo.streams tr1 ++ FileIo.streams tr2.
Proof. apply omap_app. Qed.

Lemma fcloses_app tr1 tr2 :
  FileIo.fcloses (tr1 ++ tr2) = FileIo.fcloses tr1 ++ FileIo.fcloses tr2.
Proof. apply omap_app. Qed.

(** file_io.c leaves no stream open: in every world [main] returns 0 and
    the number of its [fclose] calls is the number of its successful
    [fopen] calls. *)
Theorem file_io_closes_its_streams (fuel : nat) (w : FileIo.world) :
  (4 <= fuel)%nat ->
  exists tr,
    FileIo.main fuel w = Some (0, tr) /\
    length (FileIo.fcloses tr) = length (FileIo.streams tr).
Proof.
  intros Hfuel. unfold FileIo.main.
  change FileIo.count with (0 + Z.of_nat 3).
  rewrite (for_lt_accumulate (FileIo.probe_events w) _ 3 (probe_body_events w))
    by (unfold INT_MIN, INT_MAX; lia).
  eexists. split; [reflexivity|].
  change (seqZ 0 (Z.of_nat 3)) with [0; 1; 2].
  rewrite streams_app, fcloses_app, !length_app. f_equal.
  - unfold FileIo.scratch_file.
    destruct (FileIo.create_test w), (FileIo.reopen_test w), (FileIo.read_back w);
      reflexivity.
  - unfold FileIo.probe_events. cbn [map concat].
    destruct (FileIo.open_read w _), (FileIo.open_read w _), (FileIo.open_read w _);
      reflexivity.
Qed.

Lemma file_io_closes_its_streams_witness :
  exists tr,
    FileIo.main 4 FileIo.sandboxed = Some (0, tr) /\
    length (FileIo.fcloses tr) = length (FileIo.streams tr).
Proof. apply (file_io_closes_its_streams 4 FileIo.sandboxed). lia. Defined.

(** syscalls.c: a process running [main] ends in one of three ways: it
    exits with status 0, it exits with status 1, or [execl] puts /bin/echo
    in its place.  Status 1 is that of the child of the second fork whose
    [execl] came back, and of no other process; the replacement is that of
    the same child when [execl] succeeds.  [system] is called exactly by
    the processes that are the child of neither fork, and they exit with
    status 0. *)
Theorem syscalls_exit_status (w : Syscalls.world) :
  (fst (Syscalls.main w) = Syscalls.Exited 0 \/
   fst (Syscalls.main w) = Syscalls.Exited 1 \/
   fst (Syscalls.main w) = Syscalls.Replaced "/bin/echo") /\
  (fst (Syscalls.main w) = Syscalls.Exited 1 <->
   Syscalls.fork_test w <> 0 /\ Syscalls.fork_exec w = 0 /\ Syscalls.execl_returns w = true) /\
  (fst (Syscalls.main w) = Syscalls.Replaced "/bin/echo" <->
   Syscalls.fork_test w <> 0 /\ Syscalls.fork_exec w = 0 /\ Syscalls.execl_returns w = false) /\
  (In Syscalls.System (Syscalls.calls (snd (Syscalls.main w))) <->
   Syscalls.fork_test w <> 0 /\ Syscalls.fork_exec w <> 0) /\
  (In Syscalls.System (Syscalls.calls (snd (Syscalls.main w))) ->
   fst (Syscalls.main w) = Syscalls.Exited 0).
Proof.
  unfold Syscalls.main. rewrite (dangerous_part_appends w (Syscalls.preamble w)).
  cbn [fst snd]. unfold Syscalls.calls. rewrite omap_app.
  change (omap _ (Syscalls.preamble w))
    with [Syscalls.Getpid; Syscalls.Getppid; Syscalls.Getuid; Syscalls.Getgid;
          Syscalls.Access].
  unfold Syscalls.dangerous_part, Syscalls.fork_part, Syscalls.exec_part,
    Syscalls.system_part.
  abstract_lines.
  split; [|split; [|split; [|split]]].
  - syscalls_cases w; cbn [fst]; auto.
  - split.
    + intros H. syscalls_cases w; try discriminate H; repeat split; assumption || reflexivity.
    + intros (H1 & H2 & H3). syscalls_cases w; try discriminate H3; reflexivity.
  - split.
    + intros H. syscalls_cases w; try discriminate H; repeat split; assumption || reflexivity.
    + intros (H1 & H2 & H3). syscalls_cases w; try discriminate H3; reflexivity.
  - split.
    + intros H. syscalls_cases w; try (split; assumption);
        cbn in H; intuition discriminate.
    + intros (H1 & H2). syscalls_cases w; cbn; intuition.
  - intros H. syscalls_cases w; try reflexivity; cbn in H; intuition discriminate.
Qed.
